(** * pylinalg: quaternion and vector routines over NumPy arrays

    A shallow embedding of [pylinalg/func/quaternion.py] and
    [pylinalg/func/vector.py].

    Conventions of the embedding.
    - A NumPy array object is a strided view ([ndarray]) of a flat buffer that
      lives in a [memory]; two views with the same [base] alias.  Strides are
      counted in elements, so the byte strides [16 * itemsize] and
      [5 * itemsize] of the source are 16 and 5 here.
    - The result of an arithmetic expression is a fresh array nobody else can
      see; such temporaries are plain values ([arr]: a shape and the elements
      in C order).
    - Elements are real numbers: float32/float64 rounding, NaN, infinities and
      signed zeros are abstracted away.  [x / 0] is [Rdiv x 0], about which
      nothing is provable, as nothing is promised by the source.  What rounding
      does to results that are exact over the reals is measured separately,
      on binary64 numbers, in the module [Binary64].
    - The element types are float32 and float64.  A Python number stands for
      a float and a sequence for a sequence of floats, which [np.asarray]
      turns into a float64 array.  Integer input (an all-integer sequence
      becomes an int64 array), integer output arrays and integer [dtype]
      arguments are outside the embedding; statements whose truth depends on
      the element type of the input are made about array objects.
    - [np.empty] returns a buffer whose content is taken from the [junk]
      field of the memory, about which nothing is known. *)

From Stdlib Require Import Reals Lra Lia List String Ascii.
From Stdlib Require Floats.
From stdpp Require Import base option list.

(** ** Exceptions *)

(** The Python exceptions the modelled code can raise, the arithmetic
    exceptions of the language (for comparison), and two outcomes that are not
    Python exceptions: [MemoryFault], an access outside a buffer (possible
    through [as_strided] only), and [OutsideModel], a call of a NumPy routine
    at shapes this development does not cover. *)
Inductive exn : Set :=
  | IndexError
  | ValueError
  | KeyError
  | AxisError
  | NotImplementedError
  | ZeroDivisionError
  | FloatingPointError
  | OverflowError
  | MemoryFault
  | OutsideModel.

(** [ArithmeticError] and its subclasses: the runtime numeric errors. *)
Definition is_numeric_error (e : exn) : bool :=
  match e with
  | ZeroDivisionError | FloatingPointError | OverflowError => true
  | _ => false
  end.

(** ** Array values *)

Inductive dtype : Set := float32 | float64.

Definition itemsize (d : dtype) : nat :=
  match d with float32 => 4 | float64 => 8 end.

Record array (A : Type) : Type := Arr { ashape : list nat; adata : list A }.
Arguments Arr {A} _ _.
Arguments ashape {A} _.
Arguments adata {A} _.

(** Arrays of floats and of booleans (masks). *)
Abbreviation arr := (array R).
Abbreviation mask := (array bool).

(** [np.prod] of a shape: the number of elements. *)
Definition np_prod (sh : list nat) : nat := foldr Nat.mul 1 sh.

(** Strides of a C-contiguous array of shape [sh]. *)
Fixpoint cstrides (sh : list nat) : list nat :=
  match sh with
  | [] => []
  | _ :: sh' => np_prod sh' :: cstrides sh'
  end.

(** The element offsets of a strided view, enumerated in C order; each axis
    is given by its length and its stride. *)
Fixpoint offsets (ds : list (nat * nat)) (off : nat) : list nat :=
  match ds with
  | [] => [off]
  | (d, s) :: ds' => flat_map (fun i => offsets ds' (off + i * s)) (seq 0 d)
  end.

Definition gather {A} (buf : list A) (offs : list nat) : option (list A) :=
  mapM (fun o => buf !! o) offs.

Fixpoint scatter (offs : list nat) (vals : list R) (buf : list R)
  : option (list R) :=
  match offs, vals with
  | o :: offs', v :: vals' =>
      if o <? length buf then scatter offs' vals' (<[o := v]> buf)
      else None
  | _, _ => Some buf
  end.

(** [np.broadcast_shapes]: trailing dimensions align, size 1 stretches. *)
Fixpoint broadcast_rev (r1 r2 : list nat) : option (list nat) :=
  match r1, r2 with
  | [], r => Some r
  | r, [] => Some r
  | d1 :: r1', d2 :: r2' =>
      match broadcast_rev r1' r2' with
      | None => None
      | Some r =>
          if d1 =? d2 then Some (d1 :: r)
          else if d1 =? 1 then Some (d2 :: r)
          else if d2 =? 1 then Some (d1 :: r)
          else None
      end
  end.

Definition broadcast_shapes (s1 s2 : list nat) : option (list nat) :=
  @rev nat <$> broadcast_rev (rev s1) (rev s2).

(** Strides with which an array of shape [s] and strides [st] is read as an
    array of shape [sh]: stride 0 along stretched and added axes.  All lists
    are reversed (last axis first). *)
Fixpoint bstrides_rev (rs rst rsh : list nat) : option (list nat) :=
  match rsh with
  | [] => match rs with [] => Some [] | _ => None end
  | d :: rsh' =>
      match rs with
      | [] => cons 0 <$> bstrides_rev [] [] rsh'
      | ds :: rs' =>
          if ds =? d then
            cons (hd 0 rst) <$> bstrides_rev rs' (tail rst) rsh'
          else if ds =? 1 then
            cons 0 <$> bstrides_rev rs' (tail rst) rsh'
          else None
      end
  end.

Definition bstrides (s st sh : list nat) : option (list nat) :=
  @rev nat <$> bstrides_rev (rev s) (rev st) (rev sh).

(** [np.broadcast_to(a, sh)], as the list of elements in C order. *)
Definition broadcast_to {A} (a : array A) (sh : list nat) : option (list A) :=
  st ← bstrides (ashape a) (cstrides (ashape a)) sh;
  gather (adata a) (offsets (zip sh st) 0).

(** An element-wise binary ufunc with broadcasting. *)
Definition ufunc2 {A B C} (f : A -> B -> C) (a : array A) (b : array B)
  : exn + array C :=
  match broadcast_shapes (ashape a) (ashape b) with
  | None => inl ValueError
  | Some sh =>
      match broadcast_to a sh, broadcast_to b sh with
      | Some da, Some db => inr (Arr sh (zip_with f da db))
      | _, _ => inl MemoryFault
      end
  end.

Definition ufunc1 {A B} (f : A -> B) (a : array A) : array B :=
  Arr (ashape a) (f <$> adata a).

(** A Python number used as an array operand. *)
Definition scalar (x : R) : arr := Arr [] [x].

(** ** Memory, views and the monad of array programs *)

Record ndarray : Set := NdArray {
  base : nat;
  offset : nat;
  dims : list (nat * nat);
  dt : dtype
}.

Definition shape (v : ndarray) : list nat := fst <$> dims v.
Definition strides (v : ndarray) : list nat := snd <$> dims v.

Record memory : Type := Memory {
  bufs : list (list R);
  junk : nat -> nat -> R
}.

Definition M (A : Type) : Type := memory -> exn + (A * memory).

Definition ret {A} (x : A) : M A := fun m => inr (x, m).

Definition bind {A B} (c : M A) (f : A -> M B) : M B := fun m =>
  match c m with
  | inl e => inl e
  | inr (x, m') => f x m'
  end.

Definition raise {A} (e : exn) : M A := fun _ => inl e.

Definition lift {A} (r : exn + A) : M A :=
  match r with inl e => raise e | inr x => ret x end.

Declare Scope M_scope.
Delimit Scope M_scope with M.
Bind Scope M_scope with M.
Notation "x ← y ; z" := (bind y (fun x => z))
  (at level 20, y at level 100, z at level 200, only parsing) : M_scope.
Notation "x ;; z" := (bind x (fun _ => z))
  (at level 100, z at level 200, only parsing, right associativity) : M_scope.
Local Open Scope M_scope.

(** The elements at the given offsets of buffer [b], and the buffers after
    storing elements there. *)
Definition load (bs : list (list R)) (b : nat) (offs : list nat)
  : option (list R) :=
  match bs !! b with
  | None => None
  | Some buf => gather buf offs
  end.

Definition store (bs : list (list R)) (b : nat) (offs : list nat)
    (d : list R) : option (list (list R)) :=
  match bs !! b with
  | None => None
  | Some buf =>
      match scatter offs d buf with
      | None => None
      | Some buf' => Some (<[b := buf']> bs)
      end
  end.

(** Reading all elements of a view (the operand of an expression). *)
Definition read (v : ndarray) : M arr := fun m =>
  match load (bufs m) (base v) (offsets (dims v) (offset v)) with
  | None => inl MemoryFault
  | Some d => inr (Arr (shape v) d, m)
  end.

Definition poke (b : nat) (offs : list nat) (d : list R) : M unit := fun m =>
  match store (bufs m) b offs d with
  | None => inl MemoryFault
  | Some bs => inr (tt, Memory bs (junk m))
  end.

(** Assignment drops leading axes of length 1 of the value while it has more
    axes than the target. *)
Fixpoint strip_ones (n : nat) (sh : list nat) : list nat :=
  match n, sh with
  | S n', 1 :: sh' => strip_ones n' sh'
  | _, _ => sh
  end.

Definition setitem_value {A} (a : array A) (sh : list nat) : exn + list A :=
  let a' := Arr (strip_ones (length (ashape a) - length sh) (ashape a))
                (adata a) in
  match broadcast_to a' sh with
  | None => inl ValueError
  | Some d => inr d
  end.

(** [v[...] = a]: the value is broadcast to the shape of the view. *)
Definition write (v : ndarray) (a : arr) : M unit :=
  d ← lift (setitem_value a (shape v));
  poke (base v) (offsets (dims v) (offset v)) d.

(** The [out=v] of a ufunc: the result must broadcast to the shape of [v]
    as it is. *)
Definition write_out (v : ndarray) (a : arr) : M unit :=
  match broadcast_to a (shape v) with
  | None => raise ValueError
  | Some d => poke (base v) (offsets (dims v) (offset v)) d
  end.

(** Keep the entries of [l] whose flag is set. *)
Fixpoint select {A} (k : list bool) (l : list A) : list A :=
  match k, l with
  | b :: k', x :: l' => if b then x :: select k' l' else select k' l'
  | _, _ => []
  end.

(** The [out=v, where=k] of a ufunc: only the selected elements are stored. *)
Definition write_where (v : ndarray) (a : arr) (k : mask) : M unit :=
  match broadcast_to a (shape v), broadcast_to k (shape v) with
  | Some d, Some kd =>
      poke (base v) (select kd (offsets (dims v) (offset v))) (select kd d)
  | _, _ => raise ValueError
  end.

Definition alloc (sh : list nat) (d : dtype) (content : nat -> R) : M ndarray :=
  fun m =>
    let b := length (bufs m) in
    inr (NdArray b 0 (zip sh (cstrides sh)) d,
         Memory (bufs m ++ [content <$> seq 0 (np_prod sh)]) (junk m)).

(** [np.empty(sh, dtype=d)]; [dtype=None] is float64.  The content is
    whatever the memory holds there. *)
Definition np_empty (sh : list nat) (d : option dtype) : M ndarray :=
  fun m => alloc sh (default float64 d) (junk m (length (bufs m))) m.

(** [np.empty_like(v, dtype=d)]; [dtype=None] keeps the element type. *)
Definition np_empty_like (v : ndarray) (d : option dtype) : M ndarray :=
  np_empty (shape v) (Some (default (dt v) d)).

Definition np_zeros (sh : list nat) (d : option dtype) : M ndarray :=
  alloc sh (default float64 d) (fun _ => 0%R).

Definition np_zeros_like (v : ndarray) (d : option dtype) : M ndarray :=
  np_zeros (shape v) (Some (default (dt v) d)).

(** A fresh float64 array holding the value [a]: what [np.asarray] makes of
    a float or of a sequence of floats. *)
Definition np_array (a : arr) : M ndarray :=
  alloc (ashape a) float64 (fun i => default 0%R (adata a !! i)).

(** What a caller can pass where the source says "array_like": a Python
    float, a (nested) sequence of floats, or an array object of floats. *)
Inductive array_like : Type :=
  | Num (x : R)
  | Seq (a : arr)
  | Nd (v : ndarray).

(** [np.asarray(x)]: an array object is returned as it is. *)
Definition np_asarray (x : array_like) : M ndarray :=
  match x with
  | Num r => np_array (scalar r)
  | Seq a => np_array a
  | Nd v => ret v
  end.

(** [np.asarray(x, dtype=float)]: an array object is returned as it is when
    its elements are float64 already, and copied otherwise. *)
Definition np_asarray_float (x : array_like) : M ndarray :=
  match x with
  | Num r => np_array (scalar r)
  | Seq a => np_array a
  | Nd v =>
      match dt v with
      | float64 => ret v
      | float32 => a ← read v; np_array a
      end
  end.

(** The array value an argument stands for in a memory: a sequence must be
    rectangular, an array object must lie within its buffer. *)
Definition value_of (x : array_like) (m : memory) : option arr :=
  match x with
  | Num r => Some (scalar r)
  | Seq a =>
      if length (adata a) =? np_prod (ashape a) then Some a else None
  | Nd v =>
      match read v m with
      | inr (a, _) => Some a
      | inl _ => None
      end
  end.

(** *** Basic indexing: every result is a view of the same buffer *)

(** [v[:]] *)
Definition slice_all (v : ndarray) : exn + ndarray :=
  match dims v with
  | [] => inl IndexError
  | _ => inr v
  end.

(** [v[k]] *)
Definition index_first (v : ndarray) (k : nat) : exn + ndarray :=
  match dims v with
  | [] => inl IndexError
  | (d, s) :: ds =>
      if k <? d then inr (NdArray (base v) (offset v + k * s) ds (dt v))
      else inl IndexError
  end.

(** [v[:n]] *)
Definition slice_first (v : ndarray) (n : nat) : exn + ndarray :=
  match dims v with
  | [] => inl IndexError
  | (d, s) :: ds =>
      inr (NdArray (base v) (offset v) ((Nat.min n d, s) :: ds) (dt v))
  end.

(** [v[..., k]] *)
Definition index_last (v : ndarray) (k : nat) : exn + ndarray :=
  match rev (dims v) with
  | [] => inl IndexError
  | (d, s) :: rds =>
      if k <? d then
        inr (NdArray (base v) (offset v + k * s) (rev rds) (dt v))
      else inl IndexError
  end.

(** [v[..., :n]] *)
Definition slice_last (v : ndarray) (n : nat) : exn + ndarray :=
  match rev (dims v) with
  | [] => inl IndexError
  | (d, s) :: rds =>
      inr (NdArray (base v) (offset v) (rev ((Nat.min n d, s) :: rds)) (dt v))
  end.

(** [v[..., i, j]] *)
Definition index_last2 (v : ndarray) (i j : nat) : exn + ndarray :=
  match index_last v j with
  | inl e => inl e
  | inr v' => index_last v' i
  end.

(** [numpy.lib.stride_tricks.as_strided(v, shape=sh, strides=st)] *)
Definition as_strided (v : ndarray) (sh st : list nat) : ndarray :=
  NdArray (base v) (offset v) (zip sh st) (dt v).

(** *** Expressions *)

(** Operands are evaluated from left to right; an operand that is a view is
    read when the operation is carried out. *)
Definition op2 (f : R -> R -> R) (x y : M arr) : M arr :=
  a ← x; b ← y; lift (ufunc2 f a b).

Definition op1 (f : R -> R) (x : M arr) : M arr :=
  a ← x; ret (ufunc1 f a).

Definition num (r : R) : M arr := ret (scalar r).
Definition val (a : arr) : M arr := ret a.

(** A subscripted operand such as [a[3]] or [b[:3]]. *)
Definition item (r : exn + ndarray) : M arr := v ← lift r; read v.

(** [target = e], the target being a subscript of an array. *)
Definition assign (target : exn + ndarray) (e : M arr) : M unit :=
  a ← e; v ← lift target; write v a.

(** [v op= e] for an array [v]: the ufunc [op] with [out=v]. *)
Definition inplace (f : R -> R -> R) (v : ndarray) (e : M arr) : M unit :=
  b ← e; a ← read v; r ← lift (ufunc2 f a b); write_out v r.

(** [target op= e] for a subscript: the view is fetched, updated in place and
    assigned back to the subscript. *)
Definition assign_inplace (f : R -> R -> R) (target : exn + ndarray)
    (e : M arr) : M unit :=
  v ← lift target;
  inplace f v e;;
  a ← read v;
  write v a.

Fixpoint for_ {A} (l : list A) (body : A -> M unit) : M unit :=
  match l with
  | [] => ret tt
  | x :: l' => body x;; for_ l' body
  end.

Declare Scope np_scope.
Delimit Scope np_scope with np.
Notation "x + y" := (op2 Rplus x y) : np_scope.
Notation "x - y" := (op2 Rminus x y) : np_scope.
Notation "x * y" := (op2 Rmult x y) : np_scope.
Notation "x / y" := (op2 Rdiv x y) : np_scope.
Notation "t ::= e" := (assign t e%np) (at level 70, no associativity).
Coercion read : ndarray >-> M.

(** ** The NumPy routines the source calls, on array values *)

(** The [n] rows of length [d] of a C-ordered list of elements. *)
Definition rows {A} (d n : nat) (l : list A) : list (list A) :=
  (fun i => take d (drop (i * d) l)) <$> seq 0 n.

Definition Rsum (l : list R) : R := foldr Rplus 0%R l.

Definition sumsq (l : list R) : R := Rsum ((fun x => x * x)%R <$> l).

(** [np.sum(a, axis=-1)]; a 0-d array is returned as it is. *)
Definition np_sum_last (a : arr) : arr :=
  match rev (ashape a) with
  | [] => a
  | d :: rsh => Arr (rev rsh) (Rsum <$> rows d (np_prod rsh) (adata a))
  end.

(** [np.all(k, axis=-1)]; a 0-d array is returned as it is. *)
Definition np_all_last (k : mask) : mask :=
  match rev (ashape k) with
  | [] => k
  | d :: rsh => Arr (rev rsh) (forallb (fun b => b) <$> rows d (np_prod rsh) (adata k))
  end.

(** [np.any(k)] *)
Definition np_any (k : mask) : bool := existsb (fun b => b) (adata k).

(** [np.linalg.norm(a, axis=-1)]: the root of the sum of the squares. *)
Definition norm_last (a : arr) : exn + arr :=
  match rev (ashape a) with
  | [] => inl AxisError
  | d :: rsh =>
      inr (Arr (rev rsh)
               ((fun r => sqrt (sumsq r)) <$> rows d (np_prod rsh) (adata a)))
  end.

(** [np.linalg.norm(a)]: the 2-norm of all the elements, a scalar. *)
Definition norm_all (a : arr) : arr := scalar (sqrt (sumsq (adata a))).

(** Equality of shapes. *)
Fixpoint shape_eqb (s1 s2 : list nat) : bool :=
  match s1, s2 with
  | [], [] => true
  | d1 :: s1', d2 :: s2' => (d1 =? d2) && shape_eqb s1' s2'
  | _, _ => false
  end.

(** The last dimension is 2 or 3. *)
Definition crossable (sh : list nat) : bool :=
  match last sh with
  | Some 2 | Some 3 => true
  | _ => false
  end.

(** [np.cross(a, b)], for two vectors of three components; other last
    dimensions than 2 and 3 are refused by NumPy. *)
Definition np_cross (a b : arr) : exn + arr :=
  match a, b with
  | Arr [3] [a0; a1; a2], Arr [3] [b0; b1; b2] =>
      inr (Arr [3] [a1 * b2 - a2 * b1; a2 * b0 - a0 * b2; a0 * b1 - a1 * b0]%R)
  | _, _ =>
      if crossable (ashape a) && crossable (ashape b) then inl OutsideModel
      else inl ValueError
  end.

(** [np.dot(a, b)], for scalars and for two vectors. *)
Definition np_dot (a b : arr) : exn + arr :=
  match ashape a, ashape b with
  | [], _ | _, [] => ufunc2 Rmult a b
  | [n], [k] =>
      if n =? k then inr (scalar (Rsum (zip_with Rmult (adata a) (adata b))))
      else inl ValueError
  | _, _ => inl OutsideModel
  end.

(** [a[..., ks]] for a list of indices [ks]: a copy. *)
Definition take_last {A} (a : array A) (ks : list nat) : exn + array A :=
  match rev (ashape a) with
  | [] => inl IndexError
  | d :: rsh =>
      match mapM (fun r => mapM (fun k => r !! k) ks)
                 (rows d (np_prod rsh) (adata a)) with
      | None => inl IndexError
      | Some rs => inr (Arr (rev (length ks :: rsh)) (concat rs))
      end
  end.

(** [a[..., k]] on a value. *)
Definition item_last {A} (a : array A) (k : nat) : exn + array A :=
  match take_last a [k] with
  | inl e => inl e
  | inr r => inr (Arr (removelast (ashape r)) (adata r))
  end.

(** [a[:, None]] *)
Definition colon_newaxis {A} (a : array A) : exn + array A :=
  match ashape a with
  | [] => inl IndexError
  | d :: sh => inr (Arr (d :: 1 :: sh) (adata a))
  end.

(** [np.squeeze(a)] *)
Definition np_squeeze {A} (a : array A) : array A :=
  Arr (List.filter (fun d => negb (d =? 1)) (ashape a)) (adata a).

(** [np.atleast_2d(v)]: a view with axes of length 1 put in front. *)
Definition np_atleast_2d (v : ndarray) : ndarray :=
  match dims v with
  | [] => NdArray (base v) (offset v) [(1, 0); (1, 0)] (dt v)
  | [d] => NdArray (base v) (offset v) [(1, 0); d] (dt v)
  | _ => v
  end.

(** [np.sign] *)
Definition np_sign (x : R) : R :=
  if Rlt_dec x 0 then (-1)%R else if Rlt_dec 0 x then 1%R else 0%R.

(** [np.arctan2(y, x)]: the angle of the point (x, y), in (-pi, pi]. *)
Definition np_arctan2 (y x : R) : R :=
  if Rlt_dec 0 x then atan (y / x)
  else if Rlt_dec x 0 then
    (if Rlt_dec y 0 then atan (y / x) - PI else atan (y / x) + PI)%R
  else if Rlt_dec 0 y then (PI / 2)%R
  else if Rlt_dec y 0 then (- PI / 2)%R
  else 0%R.

(** [a == 0], element by element. *)
Definition eq0 (a : arr) : mask :=
  ufunc1 (fun x => if Req_dec_T x 0 then true else false) a.

(** *** Indexing with boolean masks *)

(** [a[k]], the mask [k] covering the leading axes of [a]: the selected
    sub-arrays, stacked along a new first axis. *)
Definition mask_index (a : arr) (k : mask) : exn + arr :=
  let p := length (ashape k) in
  if shape_eqb (take p (ashape a)) (ashape k) then
    let rest := drop p (ashape a) in
    let sel :=
      select (adata k) (rows (np_prod rest) (np_prod (ashape k)) (adata a)) in
    inr (Arr (length sel :: rest) (concat sel))
  else inl IndexError.

(** [v[k] = a] and [v[k, :] = a], the mask [k] covering the leading axes of
    the view [v]. *)
Definition write_masked (v : ndarray) (k : mask) (a : arr) : M unit :=
  let p := length (ashape k) in
  if shape_eqb (take p (shape v)) (ashape k) then
    let heads := select (adata k) (offsets (take p (dims v)) (offset v)) in
    let rest := drop p (dims v) in
    d ← lift (setitem_value a (length heads :: (fst <$> rest)));
    poke (base v) (flat_map (offsets rest) heads) d
  else raise IndexError.

(** [a[k, js]] for a matrix [a], a mask [k] over its rows and a list of column
    indices [js]: the row indices selected by [k] and the column indices are
    broadcast against each other and paired. *)
Definition mask_fancy (a : arr) (k : mask) (js : list nat) : exn + arr :=
  match ashape a, ashape k with
  | [r; c], [r'] =>
      if r =? r' then
        let is_ := select (adata k) (seq 0 r) in
        match ufunc2 (fun i j => (i, j)) (Arr [length is_] is_)
                     (Arr [length js] js) with
        | inl _ => inl IndexError
        | inr ij =>
            match mapM (fun '(i, j) =>
                          if j <? c then adata a !! (i * c + j)
                          else None) (adata ij) with
            | None => inl IndexError
            | Some d => inr (Arr (ashape ij) d)
            end
        end
      else inl IndexError
  | _, _ => inl OutsideModel
  end.

Definition mapM_ {A B} (f : A -> B) (c : M A) : M B := x ← c; ret (f x).

(** * pylinalg/func/quaternion.py *)

Definition quaternion_to_matrix (quaternion : array_like)
    (out : option ndarray) (dtype : option dtype) : M ndarray :=
  quaternion ← np_asarray quaternion;
  let result_shape := removelast (shape quaternion) ++ [4; 4] in
  out ← match out with
        | None => np_empty result_shape dtype
        | Some o => ret o
        end;
  (* view into the diagonal of the result *)
  let n_matrices := np_prod (removelast (removelast result_shape)) in
  let diagonal := as_strided out [n_matrices; 4] [16; 5] in
  slice_all out ::= num 0;;
  slice_all diagonal ::= num 1;;
  x ← lift (index_last quaternion 0);
  y ← lift (index_last quaternion 1);
  z ← lift (index_last quaternion 2);
  w ← lift (index_last quaternion 3);
  x2 ← (x * num 2)%np;
  y2 ← (y * num 2)%np;
  z2 ← (z * num 2)%np;
  xx ← (x * val x2)%np;
  xy ← (x * val y2)%np;
  xz ← (x * val z2)%np;
  yy ← (y * val y2)%np;
  yz ← (y * val z2)%np;
  zz ← (z * val z2)%np;
  wx ← (w * val x2)%np;
  wy ← (w * val y2)%np;
  wz ← (w * val z2)%np;
  index_last2 out 0 0 ::= num 1 - (val yy + val zz);;
  index_last2 out 1 0 ::= val xy + val wz;;
  index_last2 out 2 0 ::= val xz - val wy;;
  index_last2 out 0 1 ::= val xy - val wz;;
  index_last2 out 1 1 ::= num 1 - (val xx + val zz);;
  index_last2 out 2 1 ::= val yz + val wx;;
  index_last2 out 0 2 ::= val xz + val wy;;
  index_last2 out 1 2 ::= val yz - val wx;;
  index_last2 out 2 2 ::= num 1 - (val xx + val yy);;
  ret out.

Definition quaternion_multiply (a b : array_like)
    (out : option ndarray) (dtype : option dtype) : M ndarray :=
  a ← np_asarray a;
  b ← np_asarray b;
  out ← match out with
        | None => np_empty [4] dtype
        | Some o => ret o
        end;
  xyz ← (item (index_first a 3) * item (slice_first b 3)
         + item (index_first b 3) * item (slice_first a 3)
         + (u ← item (slice_first a 3); v ← item (slice_first b 3);
            lift (np_cross u v)))%np;
  w ← (item (index_first a 3) * item (index_first b 3)
       - (u ← item (slice_first a 3); v ← item (slice_first b 3);
          lift (np_dot u v)))%np;
  slice_first out 3 ::= val xyz;;
  index_first out 3 ::= val w;;
  ret out.

Definition quaternion_inverse (quaternion : array_like)
    (out : option ndarray) (dtype : option dtype) : M ndarray :=
  quaternion ← np_asarray quaternion;
  out ← match out with
        | None => np_empty_like quaternion dtype
        | Some o => ret o
        end;
  slice_all out ::= quaternion;;
  assign_inplace Rmult (slice_last out 3) (num (-1));;
  ret out.

Definition quaternion_make_from_axis_angle (axis angle : array_like)
    (out : option ndarray) (dtype : option dtype) : M ndarray :=
  axis ← np_asarray_float axis;
  angle ← np_asarray_float angle;
  out ← match out with
        | None =>
            match broadcast_shapes (removelast (shape axis)) (shape angle) with
            | None => raise ValueError
            | Some out_shape => np_empty (out_shape ++ [4]) dtype
            end
        | Some o => ret o
        end;
  (* result should be independent of the length of the given axis *)
  inplace Rdiv axis (a ← read axis; lift (norm_last a));;
  slice_last out 3 ::= axis * op1 sin (angle / num 2);;
  index_last out 3 ::= op1 cos (angle / num 2);;
  ret out.

(** The body of [quaternion_make_from_unit_vectors] up to its last
    statement: the output array, and the axis and the angle that are handed
    to [quaternion_make_from_axis_angle]. *)
Definition unit_vectors_axis_angle (source target : array_like)
    (out : option ndarray) (dtype : option dtype)
  : M (ndarray * arr * ndarray) :=
  source ← np_asarray_float source;
  target ← np_asarray_float target;
  out ← match out with
        | None =>
            match broadcast_shapes (shape source) (shape target) with
            | None => raise ValueError
            | Some sh => np_empty (removelast sh ++ [4]) dtype
            end
        | Some o => ret o
        end;
  axis ← (c ← (s ← read source; t ← read target; lift (np_cross s t));
          np_array c);
  angle ← (n ← mapM_ norm_all (read axis);
           d ← (s ← read source; t ← read target; lift (np_dot s t));
           lift (ufunc2 np_arctan2 n d));
  (* if source and target are parallel, axis will be 0. In this case, we
     need to choose a replacement axis, which is any vector that is
     orthogonal to source (and/or target). *)
  use_fallback ← (a ← read axis; n ← lift (norm_last a); ret (eq0 n));
  (if np_any use_fallback then
     fallback ← np_empty (ashape use_fallback ++ [3]) (Some float64);
     let fallback := np_atleast_2d fallback in
     template ← (s ← read source; lift (mask_index s use_fallback));
     y_zero ← mapM_ eq0 (lift (item_last template 1));
     z_zero ← mapM_ eq0 (lift (item_last template 2));
     both_nonzero ← mapM_ (ufunc1 negb) (lift (ufunc2 orb y_zero z_zero));
     (* if any axis is zero, we can use that axis *)
     write_masked fallback y_zero (Arr [3] [0; 1; 0]%R);;
     write_masked fallback z_zero (Arr [3] [0; 0; 1]%R);;
     (* if two axes are non-zero we can use those *)
     (if np_any both_nonzero then
        v ← (val (Arr [3] [0; -1; 1]%R)
             * lift (mask_fancy template both_nonzero [0; 2; 1]))%np;
        write_masked fallback both_nonzero v
      else ret tt);;
     f ← mapM_ np_squeeze (read fallback);
     write_masked axis use_fallback f
   else ret tt);;
  ret (axis, angle, out).

Definition quaternion_make_from_unit_vectors (source target : array_like)
    (out : option ndarray) (dtype : option dtype) : M ndarray :=
  p ← unit_vectors_axis_angle source target out dtype;
  let '(axis, angle, out) := p in
  quaternion_make_from_axis_angle (Nd axis) (Seq angle) (Some out) None.

(** [str.isupper] and [str.upper] on one ASCII character. *)
Definition isupper (c : ascii) : bool :=
  (65 <=? nat_of_ascii c) && (nat_of_ascii c <=? 90).

Definition upper (c : ascii) : ascii :=
  let n := nat_of_ascii c in
  if (97 <=? n) && (n <=? 122) then ascii_of_nat (n - 32) else c.

(** [{"X": 0, "Y": 1, "Z": 2}[c.upper()]] *)
Definition axis_index (c : ascii) : exn + nat :=
  let u := upper c in
  if Ascii.eqb u "X" then inr 0
  else if Ascii.eqb u "Y" then inr 1
  else if Ascii.eqb u "Z" then inr 2
  else inl KeyError.

(** A list comprehension whose element expression may raise. *)
Fixpoint comprehension {A B} (f : A -> exn + B) (l : list A) : exn + list B :=
  match l with
  | [] => inr []
  | x :: l' =>
      match f x with
      | inl e => inl e
      | inr y =>
          match comprehension f l' with
          | inl e => inl e
          | inr ys => inr (y :: ys)
          end
      end
  end.

(** [v[is_, ..., js] = a] for two index lists of the same length: element
    [n] of the target is the sub-array of [v] at first index [is_[n]] and
    last index [js[n]]. *)
Definition write_fancy (v : ndarray) (is_ js : list nat) (a : arr) : M unit :=
  match dims v with
  | (d0, s0) :: ds =>
      match rev ds with
      | (dl, sl) :: rmid =>
          if (length is_ =? length js)
             && forallb (fun i => i <? d0) is_
             && forallb (fun j => j <? dl) js
          then
            d ← lift (setitem_value a (length is_ :: (fst <$> rev rmid)));
            poke (base v)
                 (flat_map (fun '(i, j) =>
                              offsets (rev rmid) (offset v + i * s0 + j * sl))
                           (zip is_ js))
                 d
          else raise IndexError
      | [] => raise IndexError
      end
  | [] => raise IndexError
  end.

Definition quaternion_make_from_euler_angles (angles : array_like)
    (order : string) (out : option ndarray) (dtype : option dtype)
  : M ndarray :=
  angles ← np_asarray_float angles;
  let order := list_ascii_of_string order in
  let batch_shape :=
    if 1 <? length order then removelast (shape angles)
    else shape angles in
  out ← match out with
        | None => np_empty (batch_shape ++ [4]) dtype
        | Some o => ret o
        end;
  (* work out the sequence in which to apply the rotations *)
  let is_extrinsic := map isupper order in
  order ← lift (comprehension axis_index order);
  (* convert each euler matrix into a quaternion *)
  quaternions ← np_zeros (length order :: batch_shape ++ [4]) (Some float64);
  index_last quaternions 3 ::= op1 cos (angles / num 2);;
  (s ← op1 sin (angles / num 2)%np;
   write_fancy quaternions (seq 0 (length order)) order s);;
  (* multiple euler-angle quaternions respecting *)
  slice_all out ::= item (index_first quaternions 0);;
  for_ (seq 1 (length order - 1)) (fun idx =>
    match is_extrinsic !! idx with
    | None => raise IndexError
    | Some true =>
        q ← lift (index_first quaternions idx);
        quaternion_multiply (Nd out) (Nd q) (Some out) None;; ret tt
    | Some false =>
        q ← lift (index_first quaternions idx);
        quaternion_multiply (Nd q) (Nd out) (Some out) None;; ret tt
    end);;
  ret out.

(** * pylinalg/func/vector.py *)

(** A ufunc called with [where=k] and no [out]: the result array is
    allocated with [np.empty], and only the selected elements are computed
    and stored. *)
Definition where_ (e : M arr) (k : mask) : M arr :=
  r ← e;
  match broadcast_shapes (ashape r) (ashape k) with
  | None => raise ValueError
  | Some sh =>
      res ← np_empty sh None;
      write_where res r k;;
      read res
  end.

Definition vector_normalize (vectors : array_like)
    (out : option ndarray) (dtype : option dtype) : M ndarray :=
  vectors ← np_asarray vectors;
  out ← match out with
        | None => np_empty_like vectors dtype
        | Some o => ret o
        end;
  r ← (vectors / (a ← read vectors; n ← lift (norm_last a);
                  lift (colon_newaxis n)))%np;
  write_out out r;;
  ret out.

(** [v[..., -1]] and [v[..., :-1]] *)
Definition index_last_m1 (v : ndarray) : exn + ndarray :=
  index_last v (default 0 (last (shape v)) - 1).

Definition slice_last_m1 (v : ndarray) : exn + ndarray :=
  slice_last v (default 0 (last (shape v)) - 1).

Definition vector_make_homogeneous (vectors : array_like) (w : R)
    (out : option ndarray) (dtype : option dtype) : M ndarray :=
  vectors ← np_asarray vectors;
  shape_ ← match rev (shape vectors) with
           | [] => raise IndexError
           | d :: rsh => ret (rev (S d :: rsh))
           end;
  out ← match out with
        | None => np_empty shape_ (Some (default (dt vectors) dtype))
        | Some o => ret o
        end;
  index_last_m1 out ::= num w;;
  slice_last_m1 out ::= vectors;;
  ret out.

Definition vector_unproject (vector matrix : array_like) (depth : R)
    (out : option ndarray) (dtype : option dtype) : M ndarray :=
  raise NotImplementedError.

Definition vector_apply_quaternion_rotation (vector quaternion : array_like)
    (out : option ndarray) (dtype : option dtype) : M ndarray :=
  raise NotImplementedError.

Definition vector_spherical_to_euclidean (spherical : array_like)
    (out : option ndarray) (dtype : option dtype) : M ndarray :=
  raise NotImplementedError.

Definition vector_distance_between (vector_a vector_b : array_like)
    (out : option ndarray) (dtype : option dtype) : M ndarray :=
  raise NotImplementedError.

Definition vector_from_matrix_position (homogeneous_matrix : array_like)
    (out : option ndarray) (dtype : option dtype) : M ndarray :=
  raise NotImplementedError.

Definition vector_euclidean_to_spherical (euclidean : array_like)
    (out : option ndarray) (dtype : option dtype) : M ndarray :=
  euclidean ← np_asarray_float euclidean;
  out ← match out with
        | None => np_zeros_like euclidean dtype
        | Some o => slice_all o ::= num 0;; ret o
        end;
  index_last out 0 ::=
    op1 sqrt (mapM_ np_sum_last (op1 (fun x => x * x)%R euclidean));;
  (* choose phi = 0 if vector runs along y-axis *)
  len_xz ← mapM_ np_sum_last
             (op1 (fun x => x * x)%R
                  (e ← read euclidean; lift (take_last e [0; 2])));
  let xz_nonzero := ufunc1 negb (np_all_last (eq0 len_xz)) in
  index_last out 1 ::=
    where_ (item (index_last euclidean 2) / op1 sqrt (val len_xz)) xz_nonzero;;
  index_last out 1 ::=
    op1 np_sign (item (index_last euclidean 0))
    * where_ (op1 acos (item (index_last out 1))) xz_nonzero;;
  (* choose psi = 0 at the origin (0, 0, 0) *)
  r_zero ← (o ← read out; t ← lift (take_last o [0]);
            ret (np_all_last (eq0 t)));
  index_last out 2 ::=
    where_ (item (index_last euclidean 2) / item (index_last out 0))
           (ufunc1 negb r_zero);;
  index_last out 2 ::=
    where_ (op1 acos (item (index_last out 2))) (ufunc1 negb r_zero);;
  ret out.

Definition vector_make_spherical_safe (vector : array_like)
    (out : option ndarray) (dtype : option dtype) : M ndarray :=
  raise NotImplementedError.

(** * pylinalg/func/vector.py: [vector_apply_matrix] *)

(** [v[:-1, :]]: the view of all rows but the last; it needs two axes. *)
Definition rows_but_last (v : ndarray) : exn + ndarray :=
  match dims v with
  | (d0, s0) :: (d1, s1) :: ds =>
      inr (NdArray (base v) (offset v) ((d0 - 1, s0) :: (d1, s1) :: ds) (dt v))
  | _ => inl IndexError
  end.

(** [v.T]: the view with the axes in the opposite order. *)
Definition transpose (v : ndarray) : ndarray :=
  NdArray (base v) (offset v) (rev (dims v)) (dt v).

(** The element type of the result of an operation on two float arrays. *)
Definition result_type (d1 d2 : dtype) : dtype :=
  match d1, d2 with
  | float32, float32 => float32
  | _, _ => float64
  end.

Definition dtype_eqb (d1 d2 : dtype) : bool :=
  match d1, d2 with
  | float32, float32 | float64, float64 => true
  | _, _ => false
  end.

(** Column [j] of a C-ordered matrix of [k] rows and [n] columns. *)
Definition column (k n : nat) (l : list R) (j : nat) : list R :=
  (fun i => default 0%R (l !! (i * n + j))) <$> seq 0 k.

(** [np.dot(a, b)] on values, for an array [a] of one or more axes and a
    matrix [b]: the sum product over the last axis of [a] and the first
    axis of [b].  Operands of other ranks are not modelled. *)
Definition np_dot_matrix (a b : arr) : exn + arr :=
  match rev (ashape a), ashape b with
  | k :: rbs, [k'; n] =>
      if k =? k' then
        inr (Arr (rev rbs ++ [n])
                 (concat
                    ((fun r => (fun j => Rsum (zip_with Rmult r
                                                 (column k n (adata b) j)))
                               <$> seq 0 n)
                       <$> rows k (np_prod rbs) (adata a))))
      else inl ValueError
  | _, _ => inl OutsideModel
  end.

(** The C-contiguity flag of an array: the stride of an axis of length 1 is
    free, and an array without elements is contiguous.  Strides count
    elements. *)
Fixpoint c_contiguous_rev (rds : list (nat * nat)) (sd : nat) : bool :=
  match rds with
  | [] => true
  | (d, s) :: rds' =>
      if d =? 1 then c_contiguous_rev rds' sd
      else (s =? sd) && c_contiguous_rev rds' (sd * d)
  end.

Definition is_c_contiguous (v : ndarray) : bool :=
  existsb (fun d => d =? 0) (shape v) || c_contiguous_rev (rev (dims v)) 1.

(** A fresh array of element type [d] holding the value [a]. *)
Definition np_array_of (a : arr) (d : dtype) : M ndarray :=
  alloc (ashape a) d (fun i => default 0%R (adata a !! i)).

(** [np.dot(a, b)]: the result is a fresh array. *)
Definition np_dot_new (a b : ndarray) : M ndarray :=
  x ← read a;
  y ← read b;
  r ← lift (np_dot_matrix x y);
  np_array_of r (result_type (dt a) (dt b)).

(** [np.dot(a, b, out=out)]: [out] is refused with [ValueError] unless it
    has the element type and the shape of the result and is C-contiguous;
    the result is complete before it is stored. *)
Definition np_dot_out (a b out : ndarray) : M ndarray :=
  x ← read a;
  y ← read b;
  r ← lift (np_dot_matrix x y);
  if dtype_eqb (dt out) (result_type (dt a) (dt b))
     && shape_eqb (shape out) (ashape r)
     && is_c_contiguous out
  then write_out out r;; ret out
  else raise ValueError.

(** [try: c  except ValueError: h].  The body [c] of the only use has no
    effect on the memory when it raises. *)
Definition except_ValueError {A} (c h : M A) : M A := fun m =>
  match c m with
  | inl ValueError => h m
  | r => r
  end.

(** [v.astype(d, copy=False)] *)
Definition astype (v : ndarray) (d : dtype) : M ndarray :=
  if dtype_eqb (dt v) d then ret v
  else a ← read v; np_array_of a d.

(** The matrix is an array object: a sequence has no [[:-1, :]]. *)
Definition vector_apply_matrix (vectors : array_like) (matrix : ndarray)
    (w : R) (out : option ndarray) (dtype : option dtype) : M ndarray :=
  vectors ← vector_make_homogeneous vectors w None None;
  (* usually when applying a transformation matrix to a vector the vector
     is a column; here vectors are rows, so the matrix is transposed, and
     its last row is sliced off *)
  transform ← mapM_ transpose (lift (rows_but_last matrix));
  match out with
  | Some out =>
      except_ValueError
        (* if [out] is exactly compatible, that is the most performant *)
        (np_dot_out vectors transform out)
        (* otherwise we need a temporary array and cast *)
        (slice_all out ::= (r ← np_dot_new vectors transform; read r);;
         ret out)
  | None =>
      (* otherwise just return whatever dot computes *)
      out ← np_dot_new vectors transform;
      (* cast if requested *)
      match dtype with
      | Some d => astype out d
      | None => ret out
      end
  end.

(** * The arithmetic in binary64

    The arrays of the program hold binary64 numbers, and NumPy computes every
    element-wise operation on them in binary64, rounding to nearest.  The
    embedding above computes with real numbers.  This section repeats the
    arithmetic of [quaternion_inverse], [quaternion_multiply] and
    [np.linalg.norm] on float64 arrays of shape [4], operation by operation
    and in the order of the source, on binary64 numbers: it measures what
    rounding does to results that are exact over the reals. *)
Module Binary64.
Import Floats.
Local Open Scope float_scope.

Definition zero : float := 0.
Definition one : float := 1.

(** [np.sqrt(2) / 2] *)
Definition half_sqrt2 : float := sqrt 2 / 2.

(** [np.cross(a, b)] on two vectors of three elements: every component is
    the difference of two rounded products. *)
Definition np_cross (a b : list float) : list float :=
  match a, b with
  | [a0; a1; a2], [b0; b1; b2] =>
      [a1 * b2 - a2 * b1; a2 * b0 - a0 * b2; a0 * b1 - a1 * b0]
  | _, _ => []
  end.

(** [a.dot(b)] on two vectors: the sum of the products, here added from left
    to right.  (The library does not fix the order of the additions.  The
    vectors used below have at most two products that are not zero, and
    these are equal: the sum is then the same in every order, with or
    without fused multiply-add.) *)
Definition np_dot (a b : list float) : float :=
  match zip_with mul a b with
  | [] => 0
  | p :: ps => foldl add p ps
  end.

(** [np.linalg.norm(x)] of a vector: [sqrt(x.dot(x))] *)
Definition norm (x : list float) : float := sqrt (np_dot x x).

(** [quaternion_multiply(a, b)] on two quaternions:
    [xyz = a[3] * b[:3] + b[3] * a[:3] + np.cross(a[:3], b[:3])] and
    [w = a[3] * b[3] - a[:3].dot(b[:3])]. *)
Definition quaternion_multiply (a b : list float) : list float :=
  match a, b with
  | [a0; a1; a2; a3], [b0; b1; b2; b3] =>
      let xyz :=
        zip_with add
          (zip_with add (mul a3 <$> [b0; b1; b2]) (mul b3 <$> [a0; a1; a2]))
          (np_cross [a0; a1; a2] [b0; b1; b2]) in
      let w := a3 * b3 - np_dot [a0; a1; a2] [b0; b1; b2] in
      xyz ++ [w]
  | _, _ => []
  end.

(** [quaternion_inverse(q)]: [out[:] = q] and [out[..., :3] *= -1]. *)
Definition quaternion_inverse (q : list float) : list float :=
  match q with
  | [x; y; z; w] => [x * -1; y * -1; z * -1; w]
  | _ => []
  end.

End Binary64.

(** * Specification-side notions *)

(** Every successful run of [c] returns [x]. *)
Definition returns {A} (c : M A) (x : A) : Prop :=
  forall m r m', c m = inr (r, m') -> r = x.

(** The replacement axis of [quaternion_make_from_unit_vectors] for a
    source that is parallel to the target, by the priority found in the code:
    a zero z component first, then a zero y component. *)
Definition fallback_axis (sx sy sz : R) : list R :=
  if Req_dec_T sz 0 then [0; 0; 1]%R
  else if Req_dec_T sy 0 then [0; 1; 0]%R
  else [0; - sz; sy]%R.

(** * Notions used in the statements *)

(** ** Block-wise updates and element-wise evaluation *)

(** The list [b] with the values [vs] stored at the positions [loc]. *)
Definition upd (loc : list nat) (vs b : list R) : list R :=
  foldl (fun b p => <[fst p := snd p]> b) b (zip loc vs).

(** The expression [e] evaluates, without changing the memory, to the array
    of shape [sh] whose element [i] (in C order) is [f i]. *)
Definition evals (e : M arr) (m : memory) (sh : list nat) (f : nat -> R)
  : Prop :=
  e m = inr (Arr sh (map f (seq 0 (np_prod sh))), m).

(** ** Rotation matrices *)

(** The matrix of the quaternion [(x, y, z, w)], row by row. *)
Definition rotation_matrix (x y z w : R) : list R :=
  let x2 := (2 * x)%R in
  let y2 := (2 * y)%R in
  let z2 := (2 * z)%R in
  let xx := (x * x2)%R in
  let xy := (x * y2)%R in
  let xz := (x * z2)%R in
  let yy := (y * y2)%R in
  let yz := (y * z2)%R in
  let zz := (z * z2)%R in
  let wx := (w * x2)%R in
  let wy := (w * y2)%R in
  let wz := (w * z2)%R in
  [ 1 - (yy + zz); xy - wz; xz + wy; 0;
    xy + wz; 1 - (xx + zz); yz - wx; 0;
    xz - wy; yz + wx; 1 - (xx + yy); 0;
    0; 0; 0; 1 ]%R.

(** Component [k] of quaternion [i] of a batch stored in C order. *)
Definition component (qd : list R) (i k : nat) : R := nth (4 * i + k) qd 0%R.

(** The matrices of a batch of quaternions. *)
Definition matrices (bs : list nat) (qd : list R) : arr :=
  Arr (bs ++ [4; 4])
      (flat_map (fun i => rotation_matrix (component qd i 0) (component qd i 1)
                                          (component qd i 2) (component qd i 3))
                (seq 0 (np_prod bs))).

(** ** Quaternion algebra *)

(** The Hamilton product of two quaternions [(x, y, z, w)]. *)
Definition hamilton (a b : list R) : list R :=
  match a, b with
  | [ax; ay; az; aw], [bx; by_; bz; bw] =>
      [ aw * bx + ax * bw + ay * bz - az * by_;
        aw * by_ - ax * bz + ay * bw + az * bx;
        aw * bz + ax * by_ - ay * bx + az * bw;
        aw * bw - ax * bx - ay * by_ - az * bz ]%R
  | _, _ => []
  end.

(** The conjugate of a quaternion. *)
Definition conjugate (q : list R) : list R :=
  match q with
  | [x; y; z; w] => [- x; - y; - z; w]%R
  | _ => []
  end.

(** ** Euler angles *)

(** The quaternion of the rotation by [angle] about the axis that the
    letter [c] names. *)
Definition elementary (c : ascii) (angle : R) : list R :=
  match axis_index c with
  | inr k => <[k := sin (angle / 2)]> [0; 0; 0; cos (angle / 2)]%R
  | inl _ => []
  end.

(** One step of the fold: an upper-case letter multiplies from the right,
    a lower-case letter from the left. *)
Definition euler_step (acc : list R) (p : ascii * R) : list R :=
  if isupper (fst p) then hamilton acc (elementary (fst p) (snd p))
  else hamilton (elementary (fst p) (snd p)) acc.

Definition euler_quaternion (order : list ascii) (angles : list R) : list R :=
  match zip order angles with
  | [] => []
  | (c, t) :: l => foldl euler_step (elementary c t) l
  end.

(** The letters that name an axis. *)
Definition is_axis (c : ascii) : bool :=
  match axis_index c with inr _ => true | inl _ => false end.

(** The index of the axis that a letter names (0 for other characters). *)
Definition axis_of (c : ascii) : nat :=
  match axis_index c with inr k => k | inl _ => 0 end.

(** ** Vectors *)

(** The element type of the array that [np.asarray] makes of an argument. *)
Definition dtype_of (x : array_like) : dtype :=
  match x with
  | Nd v => dt v
  | _ => float64
  end.

(** Row [i] of a C-ordered list of rows of length [d]. *)
Definition row (d : nat) (l : list R) (i : nat) : list R :=
  take d (drop (i * d) l).

(** A vector divided by its Euclidean norm. *)
Definition normalized (v : list R) : list R :=
  map (fun x => (x / sqrt (sumsq v))%R) v.

(** ** Transformations *)

(** The first three components of the product of the 4x4 matrix [md] (in C
    order) with the vector [v] completed by [w]. *)
Definition transform_point (md : list R) (w : R) (v : list R) : list R :=
  (fun j => Rsum (zip_with Rmult (v ++ [w]) (row 4 md j))) <$> seq 0 3.

(** The cross product and the dot product of two vectors of three
    components. *)
Definition cross (s t : list R) : list R :=
  let c (i : nat) (l : list R) := nth i l 0%R in
  [(c 1%nat s * c 2%nat t - c 2%nat s * c 1%nat t)%R;
   (c 2%nat s * c 0%nat t - c 0%nat s * c 2%nat t)%R;
   (c 0%nat s * c 1%nat t - c 1%nat s * c 0%nat t)%R].

Definition dot (s t : list R) : R := Rsum (zip_with Rmult s t).

(** The axis and the angle that [quaternion_make_from_unit_vectors] hands
    to [quaternion_make_from_axis_angle]: the cross product, replaced for
    parallel vectors, and the angle of the point (dot product, norm of the
    cross product). *)
Definition rotation_axis (s t : list R) : list R :=
  if Req_dec_T (sqrt (sumsq (cross s t))) 0
  then fallback_axis (nth 0 s 0%R) (nth 1 s 0%R) (nth 2 s 0%R)
  else cross s t.

Definition rotation_angle (s t : list R) : R :=
  np_arctan2 (sqrt (sumsq (cross s t))) (dot s t).

(** The quaternion of the rotation by [angle] about [axis]. *)
Definition axis_angle_quaternion (axis : list R) (angle : R) : list R :=
  map (fun a => (a * sin (angle / 2))%R) (normalized axis)
  ++ [cos (angle / 2)].

(** * Verification *)

Local Open Scope R_scope.

(** ** Symbolic execution

    Programs are run in a memory [pre ++ L]: [pre] is the caller's memory,
    about which only the facts given by the hypotheses are known, and [L] is
    the list of the buffers allocated since, which is known explicitly. *)

Lemma lookup_fresh {A} (pre L : list A) (k : nat) :
  (pre ++ L) !! (length pre + k)%nat = L !! k.
Proof. rewrite lookup_app_r by lia. f_equal. lia. Qed.

Lemma insert_fresh {A} (pre L : list A) (k : nat) (x : A) :
  <[(length pre + k)%nat := x]> (pre ++ L) = pre ++ <[k := x]> L.
Proof. rewrite insert_app_r. reflexivity. Qed.

Lemma lookup_old {A} (pre L : list A) (b : nat) (x : A) :
  pre !! b = Some x -> (pre ++ L) !! b = Some x.
Proof. apply lookup_app_l_Some. Qed.

Lemma insert_old {A} (pre L : list A) (b : nat) (x y : A) :
  pre !! b = Some x -> <[b := y]> (pre ++ L) = <[b := y]> pre ++ L.
Proof.
  intros H. apply insert_app_l. apply lookup_lt_is_Some. eauto.
Qed.

Lemma alloc_nf sh d c pre L J :
  alloc sh d c (Memory (pre ++ L) J) =
  inr (NdArray (length pre + length L) 0 (zip sh (cstrides sh)) d,
       Memory (pre ++ (L ++ [c <$> seq 0 (np_prod sh)])) J).
Proof. unfold alloc. cbn. rewrite length_app, <- app_assoc. reflexivity. Qed.

Lemma value_of_Nd_inv v m a :
  value_of (Nd v) m = Some a ->
  exists buf, bufs m !! base v = Some buf
    /\ gather buf (offsets (dims v) (offset v)) = Some (adata a)
    /\ fst <$> dims v = ashape a.
Proof.
  unfold value_of, read, load. intros H.
  destruct (bufs m !! base v) as [buf|]; [|discriminate].
  destruct (gather buf _) as [d|] eqn:Hg; [|discriminate].
  injection H as <-. exists buf. auto.
Qed.

Ltac unfold_np :=
  progress unfold bind, ret, raise, lift, op2, op1, num, val, item, assign,
    inplace, assign_inplace, mapM_, write, write_out, write_where, read, poke,
    load, store, where_, np_asarray, np_asarray_float, np_array, np_empty,
    np_empty_like, np_zeros, np_zeros_like, value_of.

Ltac cbn_np :=
  progress cbn -[alloc Rplus Rmult Rminus Rdiv Ropp Rinv sqrt sin cos acos
                 atan PI IZR INR Req_dec_T Rlt_dec np_sign np_arctan2 Rsum
                 sumsq Nat.ltb].

(** A bound check whose outcome is determined is decided by evaluation; one
    on a buffer of the caller follows from a known element of that buffer. *)
Lemma ltb_lookup {A} (l : list A) (o : nat) (x : A) :
  l !! o = Some x -> (o <? length l)%nat = true.
Proof. intros H. apply Nat.ltb_lt. eapply lookup_lt_Some; eauto. Qed.

Lemma lookup_insert_old {A} (pre L : list A) (b : nat) (x y : A) :
  pre !! b = Some x -> (<[b := y]> pre ++ L) !! b = Some y.
Proof.
  intros H. apply lookup_app_l_Some. apply list_lookup_insert_eq.
  eapply lookup_lt_Some; eauto.
Qed.

Lemma lookup_insert_old_ne {A} (pre L : list A) (b b' : nat) (x y : A) :
  b' <> b -> pre !! b' = Some x -> (<[b := y]> pre ++ L) !! b' = Some x.
Proof.
  intros Hne H. apply lookup_app_l_Some.
  rewrite list_lookup_insert_ne by congruence. exact H.
Qed.

Lemma lookup_fresh_ins {A} (pre L : list A) (b k : nat) (y : A) :
  (<[b := y]> pre ++ L) !! (length pre + k)%nat = L !! k.
Proof. rewrite <- (length_insert pre b y). apply lookup_fresh. Qed.

Lemma insert_fresh_ins {A} (pre L : list A) (b k : nat) (x y : A) :
  <[(length pre + k)%nat := x]> (<[b := y]> pre ++ L)
  = <[b := y]> pre ++ <[k := x]> L.
Proof. rewrite <- (length_insert pre b y). apply insert_fresh. Qed.

Ltac ltb_step :=
  match goal with
  | |- context [Nat.ltb ?a ?b] =>
      let r := eval lazy in (Nat.ltb a b) in
      match r with
      | true => change (Nat.ltb a b) with true
      | false => change (Nat.ltb a b) with false
      end
  | H : ?l !! ?o = Some _ |- context [Nat.ltb ?o (length ?l)] =>
      rewrite (ltb_lookup l o _ H)
  end.

Ltac exec_step :=
  first
  [ unfold_np
  | rewrite alloc_nf
  | rewrite lookup_fresh
  | rewrite insert_fresh
  | match goal with
    | H : ?pre !! ?b = Some _ |- context [(?pre ++ _) !! ?b] =>
        rewrite (lookup_old pre _ b _ H)
    | H : ?pre !! ?b = Some _ |- context [<[?b := _]> (?pre ++ _)] =>
        rewrite (insert_old pre _ b _ _ H)
    | H : ?l !! ?o = Some _ |- context [?l !! ?o] => rewrite H
    end
  | ltb_step
  | rewrite lookup_fresh_ins
  | rewrite insert_fresh_ins
  | rewrite length_insert
  | match goal with
    | H : ?pre !! ?b = Some _ |- context [(<[?b := _]> ?pre ++ _) !! ?b] =>
        rewrite (lookup_insert_old pre _ b _ _ H)
    | Hne : ?b' <> ?b, H : ?pre !! ?b' = Some _
      |- context [(<[?b := _]> ?pre ++ _) !! ?b'] =>
        rewrite (lookup_insert_old_ne pre _ b b' _ _ Hne H)
    end
  | cbn_np ].

Ltac exec := repeat exec_step.

(** Turning [value_of x m = Some a], for an [a] of known shape, into facts
    about the buffer of [x]. *)
Ltac subst_lhs :=
  repeat match goal with
         | H : ?a = ?b |- _ => is_var a; subst a
         | H : ?a = ?b |- _ => is_var b; subst b
         end.

Ltac inv_lookups H :=
  cbn in H;
  repeat match type of H with
  | context [?l !! ?o] =>
      let E := fresh "E" in
      destruct (l !! o) eqn:E; cbn in H; [|discriminate H]
  end;
  injection H as; intros; subst_lhs.

Ltac inv_value H :=
  match type of H with
  | value_of (Num _) _ = _ => try discriminate H; injection H as; intros; subst_lhs
  | value_of (Seq ?a) _ = _ =>
      destruct a; cbn in H; destruct (Nat.eqb _ _); [|discriminate H];
      injection H as; intros; subst_lhs
  | value_of (Nd ?v) _ = _ =>
      let buf := fresh "buf" in let Hb := fresh "Hb" in
      let Hg := fresh "Hg" in let Hs := fresh "Hs" in
      apply value_of_Nd_inv in H; destruct H as (buf & Hb & Hg & Hs);
      try (is_var v; destruct v as [? ? ? ?]); cbn in Hb, Hg, Hs;
      repeat match type of Hs with
             | context [fst <$> ?d] =>
                 is_var d; destruct d as [|[? ?] ?]; cbn in Hs;
                 try discriminate Hs
             end;
      first [injection Hs as; intros; subst_lhs | clear Hs]; inv_lookups Hg
  end.

(** The Euclidean norm, as [np.linalg.norm] computes it. *)
Lemma sumsq_nonneg l : 0 <= sumsq l.
Proof.
  unfold sumsq. induction l as [|x l IH]; cbn; [lra|].
  pose proof (Rle_0_sqr x) as Hx. unfold Rsqr in Hx.
  apply Rplus_le_le_0_compat; assumption.
Qed.

Lemma norm_one l : sqrt (sumsq l) = 1 -> sumsq l = 1.
Proof.
  intros H. rewrite <- (sqrt_sqrt (sumsq l)) by apply sumsq_nonneg.
  rewrite H. lra.
Qed.

(** ** Quaternions of norm 1 *)

Lemma nonzero_norm (x y z : R) :
  [x; y; z] <> [0; 0; 0] -> sqrt (sumsq [x; y; z]) <> 0.
Proof.
  intros Hnz H0. apply sqrt_eq_0 in H0; [|apply sumsq_nonneg].
  unfold sumsq in H0. cbn in H0. apply Hnz.
  assert (x = 0 /\ y = 0 /\ z = 0) as (-> & -> & ->) by nra. reflexivity.
Qed.

Lemma axis_angle_norm (x y z s c n : R) :
  n * n = sumsq [x; y; z] -> n <> 0 -> s * s + c * c = 1 ->
  sumsq [x / n * s; y / n * s; z / n * s; c] = 1.
Proof.
  intros Hn Hn0 Hsc. unfold sumsq in *. cbn in *.
  replace (x / n * s * (x / n * s)
           + (y / n * s * (y / n * s)
              + (z / n * s * (z / n * s) + (c * c + 0))))
    with (s * s * ((x * x + (y * y + (z * z + 0))) / (n * n)) + c * c)
    by (field; assumption).
  rewrite <- Hn. replace (n * n / (n * n)) with 1 by (field; assumption). lra.
Qed.

Lemma axis_angle_unit (x y z t : R) :
  [x; y; z] <> [0; 0; 0] ->
  sqrt (sumsq [x / sqrt (sumsq [x; y; z]) * sin (t / 2);
               y / sqrt (sumsq [x; y; z]) * sin (t / 2);
               z / sqrt (sumsq [x; y; z]) * sin (t / 2);
               cos (t / 2)]) = 1.
Proof.
  intros Hnz. apply nonzero_norm in Hnz.
  pose proof (sin2_cos2 (t / 2)) as Hsc. unfold Rsqr in Hsc.
  rewrite (axis_angle_norm x y z _ _ _ (sqrt_sqrt _ (sumsq_nonneg _)) Hnz Hsc).
  apply sqrt_1.
Qed.

Lemma multiply_unit (ax ay az aw bx by_ bz bw : R) :
  sqrt (sumsq [ax; ay; az; aw]) = 1 ->
  sqrt (sumsq [bx; by_; bz; bw]) = 1 ->
  sqrt (sumsq [aw * bx + bw * ax + (ay * bz - az * by_);
               aw * by_ + bw * ay + (az * bx - ax * bz);
               aw * bz + bw * az + (ax * by_ - ay * bx);
               aw * bw - Rsum [ax * bx; ay * by_; az * bz]]) = 1.
Proof.
  intros Ha Hb. apply norm_one in Ha, Hb.
  match goal with |- sqrt ?s = 1 =>
    replace s with (sumsq [ax; ay; az; aw] * sumsq [bx; by_; bz; bw])
      by (unfold sumsq; cbn; ring)
  end.
  rewrite Ha, Hb, Rmult_1_r. apply sqrt_1.
Qed.

Lemma inverse_unit (x y z w : R) :
  sqrt (sumsq [x; y; z; w]) = 1 ->
  sqrt (sumsq [x * -1; y * -1; z * -1; w]) = 1.
Proof.
  intros H. rewrite <- H. f_equal. unfold sumsq. cbn. ring.
Qed.

(** In-place update of the three elements of a vector that lies in a buffer
    of the caller, whatever its stride (with stride 0 the three elements are
    one and the same). *)
Lemma inplace3 (buf : list R) (o s : nat) (x y z : R) (f : R -> R) :
  buf !! (o + 0)%nat = Some x ->
  buf !! (o + (s + 0))%nat = Some y ->
  buf !! (o + (s + (s + 0)))%nat = Some z ->
  let buf' := <[(o + (s + (s + 0)))%nat := f z]>
                (<[(o + (s + 0))%nat := f y]> (<[(o + 0)%nat := f x]> buf)) in
  buf' !! (o + 0)%nat = Some (f x)
  /\ buf' !! (o + (s + 0))%nat = Some (f y)
  /\ buf' !! (o + (s + (s + 0)))%nat = Some (f z).
Proof.
  intros H0 H1 H2. apply lookup_lt_Some in H0 as L0.
  apply lookup_lt_Some in H1 as L1. apply lookup_lt_Some in H2 as L2.
  destruct s as [|s]; cbn in *.
  - assert (y = x) by congruence. assert (z = x) by congruence. subst.
    rewrite !list_lookup_insert_eq by (rewrite ?length_insert; lia). auto.
  - repeat split.
    + rewrite !list_lookup_insert_ne by lia.
      apply list_lookup_insert_eq. lia.
    + rewrite list_lookup_insert_ne by lia.
      apply list_lookup_insert_eq. rewrite length_insert. lia.
    + apply list_lookup_insert_eq. rewrite !length_insert. lia.
Qed.

Ltac mutated_axis :=
  match goal with
  | E0 : ?buf !! (?o + 0)%nat = Some ?x,
    E1 : ?buf !! (?o + (?s + 0))%nat = Some ?y,
    E2 : ?buf !! (?o + (?s + (?s + 0)))%nat = Some ?z |- _ =>
      let F0 := fresh "F" in let F1 := fresh "F" in let F2 := fresh "F" in
      destruct (inplace3 buf o s x y z (fun v => v / sqrt (sumsq [x; y; z]))
                  E0 E1 E2) as (F0 & F1 & F2);
      cbv beta in F0, F1, F2;
      pose proof (lookup_lt_Some _ _ _ E0);
      remember (<[(o + (s + (s + 0)))%nat := z / sqrt (sumsq [x; y; z])]>
                  (<[(o + (s + 0))%nat := y / sqrt (sumsq [x; y; z])]>
                     (<[(o + 0)%nat := x / sqrt (sumsq [x; y; z])]> buf)))
  end.

(** Running [quaternion_make_from_axis_angle] when [axis] is a float64 array
    of the caller: the array is normalised in place. *)
Ltac exec_axis_angle :=
  unfold quaternion_make_from_axis_angle; exec;
  match goal with H : _ = <[_ := _]> _ |- _ => rewrite <- H end;
  exec; subst; reflexivity.

Lemma axis_angle_result_unit (m : memory) (axis angle : array_like)
    (dtype : option dtype) (x y z t : R) :
  value_of axis m = Some (Arr [3%nat] [x; y; z]) ->
  value_of angle m = Some (Arr [] [t]) ->
  [x; y; z] <> [0; 0; 0] ->
  exists r m' q,
    quaternion_make_from_axis_angle axis angle None dtype m = inr (r, m')
    /\ value_of (Nd r) m' = Some (Arr [4%nat] q)
    /\ sqrt (sumsq q) = 1.
Proof.
  intros Ha Ht Hnz.
  destruct m as [pre J]. rewrite <- (app_nil_r pre).
  destruct axis as [r|a|[b o ds [|]]]; inv_value Ha.
  1-2: destruct angle as [r|a|[b' o' ds' [|]]]; inv_value Ht.
  1-8: eexists _, _, _;
    (split; [unfold quaternion_make_from_axis_angle; exec; reflexivity|]);
    (split; [exec; reflexivity|]); apply axis_angle_unit; assumption.
  destruct angle as [r|a|[b' o' ds' [|]]]; inv_value Ht.
  all: mutated_axis.
  1-3: eexists _, _, _; (split; [exec_axis_angle|]);
    (split; [exec; reflexivity|]); apply axis_angle_unit; assumption.
  (* the angle is a float64 array of the caller too, and may share the
     buffer of the axis: it is read after the axis has been overwritten *)
  match goal with
  | Hb : pre !! b = Some ?buf, Hb' : pre !! b' = Some ?buf' |- _ =>
      destruct (decide (b' = b)) as [->|Hne];
      [ rewrite Hb in Hb'; injection Hb' as <- | ]
  end.
  - match goal with
    | Hl : ?l = <[_ := _]> _, Ht : ?buf !! o' = Some t |- _ =>
        destruct (l !! o') as [t'|] eqn:Et;
        [| apply lookup_ge_None_1 in Et; apply lookup_lt_Some in Ht;
           rewrite Hl, !length_insert in Et; lia ]
    end.
    eexists _, _, _; (split; [exec_axis_angle|]);
      (split; [exec; reflexivity|]); apply axis_angle_unit; assumption.
  - eexists _, _, _; (split; [exec_axis_angle|]);
      (split; [exec; reflexivity|]); apply axis_angle_unit; assumption.
Qed.

(** ** C7: the inverse of a unit quaternion times the quaternion *)

(** The claim as stated fails on binary64 arrays: the quaternion
    [(0, 0, sqrt(2)/2, sqrt(2)/2)] has norm 1 as [np.linalg.norm] computes
    it, and the scalar part of [quaternion_inverse(q)] times [q] is the
    binary64 number next above 1, 1.0000000000000002. *)
Lemma inverse_times_unit_in_binary64 :
  let s := Binary64.half_sqrt2 in
  let q := [Binary64.zero; Binary64.zero; s; s] in
  Binary64.norm q = Binary64.one
  /\ Binary64.quaternion_multiply (Binary64.quaternion_inverse q) q
     = [Binary64.zero; Binary64.zero; Binary64.zero;
        PrimFloat.next_up Binary64.one]
  /\ Binary64.quaternion_multiply (Binary64.quaternion_inverse q) q
     <> [Binary64.zero; Binary64.zero; Binary64.zero; Binary64.one].
Proof.
  split; [vm_compute; reflexivity|]. split; [vm_compute; reflexivity|].
  vm_compute. discriminate.
Qed.

(** C7, amended.  In exact (real) arithmetic, for every unit quaternion
    [q = (x, y, z, w)] (of Euclidean norm 1), however it is passed (a
    sequence or an array object, of any stride), the call
    [quaternion_multiply(quaternion_inverse(q), q)] returns an array holding
    the identity quaternion [(0, 0, 0, 1)].  On binary64 arrays the result is
    the identity only up to rounding. *)
Theorem quaternion_inverse_multiply_identity
    (m : memory) (q : array_like) (d1 d2 : option dtype) (x y z w : R) :
  value_of q m = Some (Arr [4%nat] [x; y; z; w]) ->
  sqrt (sumsq [x; y; z; w]) = 1 ->
  exists r m',
    (qi ← quaternion_inverse q None d1;
     quaternion_multiply (Nd qi) q None d2) m = inr (r, m')
    /\ value_of (Nd r) m' = Some (Arr [4%nat] [0; 0; 0; 1]).
Proof.
  intros Hq Hn. apply norm_one in Hn. unfold sumsq in Hn. cbn in Hn.
  destruct m as [pre J]. rewrite <- (app_nil_r pre).
  destruct q; inv_value Hq.
  all: eexists _, _; split;
    [unfold quaternion_inverse, quaternion_multiply; exec; reflexivity|].
  all: exec.
  all: repeat f_equal; cbn; nra.
Qed.

Lemma quaternion_inverse_multiply_identity_witness :
  let m := Memory [] (fun _ _ => 0) in
  let q := Seq (Arr [4%nat] [3 / 5; 0; 4 / 5; 0]) in
  value_of q m = Some (Arr [4%nat] [3 / 5; 0; 4 / 5; 0])
  /\ sqrt (sumsq [3 / 5; 0; 4 / 5; 0]) = 1
  /\ exists r m',
       (qi ← quaternion_inverse q None None;
        quaternion_multiply (Nd qi) q None None) m = inr (r, m')
       /\ value_of (Nd r) m' = Some (Arr [4%nat] [0; 0; 0; 1]).
Proof.
  assert (H : sqrt (sumsq [3 / 5; 0; 4 / 5; 0]) = 1).
  { replace (sumsq [3 / 5; 0; 4 / 5; 0]) with 1
      by (unfold sumsq; cbn; field).
    apply sqrt_1. }
  split; [reflexivity|]. split; [exact H|].
  apply (quaternion_inverse_multiply_identity
           (Memory [] (fun _ _ => 0)) (Seq (Arr [4%nat] [3 / 5; 0; 4 / 5; 0]))
           None None (3 / 5) 0 (4 / 5) 0); [reflexivity | exact H].
Defined.

(** ** C10: the quaternion operations keep the norm at 1 *)

(** The claim as stated fails on binary64 arrays: the quaternion
    [q = (0, 0, sqrt(2)/2, sqrt(2)/2)] has norm 1 as [np.linalg.norm]
    computes it, and [quaternion_multiply(q, q)] has the norm
    1.0000000000000002, the binary64 number next above 1. *)
Lemma product_of_units_in_binary64 :
  let s := Binary64.half_sqrt2 in
  let q := [Binary64.zero; Binary64.zero; s; s] in
  Binary64.norm q = Binary64.one
  /\ Binary64.quaternion_multiply q q
     = [Binary64.zero; Binary64.zero; PrimFloat.next_up Binary64.one;
        Binary64.zero]
  /\ Binary64.norm (Binary64.quaternion_multiply q q)
     = PrimFloat.next_up Binary64.one
  /\ Binary64.norm (Binary64.quaternion_multiply q q) <> Binary64.one.
Proof.
  split; [vm_compute; reflexivity|]. split; [vm_compute; reflexivity|].
  split; [vm_compute; reflexivity|]. vm_compute. discriminate.
Qed.

(** C10, amended.  In exact (real) arithmetic: for every non-zero axis, of
    any length, and every angle, [quaternion_make_from_axis_angle] returns a
    quaternion of Euclidean norm 1; and for all unit quaternions [a] and
    [b], [quaternion_multiply(a, b)] and [quaternion_inverse(a)] return
    quaternions of norm 1.  On binary64 arrays the norms are 1 only up to
    rounding. *)
Theorem unit_quaternion_invariant
    (m : memory) (axis angle a b : array_like) (dtype : option dtype)
    (x y z t ax ay az aw bx by_ bz bw : R) :
  value_of axis m = Some (Arr [3%nat] [x; y; z]) ->
  value_of angle m = Some (Arr [] [t]) ->
  [x; y; z] <> [0; 0; 0] ->
  value_of a m = Some (Arr [4%nat] [ax; ay; az; aw]) ->
  value_of b m = Some (Arr [4%nat] [bx; by_; bz; bw]) ->
  sqrt (sumsq [ax; ay; az; aw]) = 1 ->
  sqrt (sumsq [bx; by_; bz; bw]) = 1 ->
  (exists r m' q,
     quaternion_make_from_axis_angle axis angle None dtype m = inr (r, m')
     /\ value_of (Nd r) m' = Some (Arr [4%nat] q) /\ sqrt (sumsq q) = 1)
  /\ (exists r m' q,
        quaternion_multiply a b None dtype m = inr (r, m')
        /\ value_of (Nd r) m' = Some (Arr [4%nat] q) /\ sqrt (sumsq q) = 1)
  /\ (exists r m' q,
        quaternion_inverse a None dtype m = inr (r, m')
        /\ value_of (Nd r) m' = Some (Arr [4%nat] q) /\ sqrt (sumsq q) = 1).
Proof.
  intros Haxis Hangle Hnz Ha Hb Na Nb.
  split; [eapply axis_angle_result_unit; eassumption|].
  clear Haxis Hangle Hnz.
  destruct m as [pre J]. rewrite <- (app_nil_r pre).
  split.
  - destruct a, b; inv_value Ha; inv_value Hb.
    all: eexists _, _, _;
      (split; [unfold quaternion_multiply; exec; reflexivity|]);
      (split; [exec; reflexivity|]); apply multiply_unit; assumption.
  - clear Hb Nb. destruct a; inv_value Ha.
    all: eexists _, _, _;
      (split; [unfold quaternion_inverse; exec; reflexivity|]);
      (split; [exec; reflexivity|]); apply inverse_unit; assumption.
Qed.

Lemma unit_quaternion_invariant_witness :
  let m := Memory [] (fun _ _ => 0) in
  let axis := Seq (Arr [3%nat] [3; 1; 2]) in
  let angle := Num (3 / 10) in
  let a := Seq (Arr [4%nat] [3 / 5; 0; 4 / 5; 0]) in
  let b := Seq (Arr [4%nat] [0; 5 / 13; 0; 12 / 13]) in
  [3; 1; 2] <> [0; 0; 0]
  /\ sqrt (sumsq [3 / 5; 0; 4 / 5; 0]) = 1
  /\ sqrt (sumsq [0; 5 / 13; 0; 12 / 13]) = 1
  /\ (exists r m' l,
        quaternion_make_from_axis_angle axis angle None None m = inr (r, m')
        /\ value_of (Nd r) m' = Some (Arr [4%nat] l) /\ sqrt (sumsq l) = 1)
  /\ (exists r m' l,
        quaternion_multiply a b None None m = inr (r, m')
        /\ value_of (Nd r) m' = Some (Arr [4%nat] l) /\ sqrt (sumsq l) = 1)
  /\ (exists r m' l,
        quaternion_inverse a None None m = inr (r, m')
        /\ value_of (Nd r) m' = Some (Arr [4%nat] l) /\ sqrt (sumsq l) = 1).
Proof.
  assert (Hz : [3; 1; 2] <> [0; 0; 0])
    by (intros E; injection E as E; lra).
  assert (Ha : sqrt (sumsq [3 / 5; 0; 4 / 5; 0]) = 1).
  { replace (sumsq [3 / 5; 0; 4 / 5; 0]) with 1
      by (unfold sumsq; cbn; field).
    apply sqrt_1. }
  assert (Hb : sqrt (sumsq [0; 5 / 13; 0; 12 / 13]) = 1).
  { replace (sumsq [0; 5 / 13; 0; 12 / 13]) with 1
      by (unfold sumsq; cbn; field).
    apply sqrt_1. }
  split; [exact Hz|]. split; [exact Ha|]. split; [exact Hb|].
  apply (unit_quaternion_invariant
           (Memory [] (fun _ _ => 0)) (Seq (Arr [3%nat] [3; 1; 2]))
           (Num (3 / 10))
           (Seq (Arr [4%nat] [3 / 5; 0; 4 / 5; 0]))
           (Seq (Arr [4%nat] [0; 5 / 13; 0; 12 / 13]))
           None 3 1 2 (3 / 10) (3 / 5) 0 (4 / 5) 0 0 (5 / 13) 0 (12 / 13));
    try reflexivity; assumption.
Defined.

(** ** C9: the operations that are declared but not implemented *)

(** C9.  Whatever the arguments and the memory, each of [vector_unproject],
    [vector_apply_quaternion_rotation], [vector_spherical_to_euclidean],
    [vector_distance_between], [vector_from_matrix_position] and
    [vector_make_spherical_safe] raises [NotImplementedError], which is not
    one of the arithmetic errors; none of them returns a result. *)
Theorem unimplemented_operations_raise
    (x y : array_like) (depth : R) (out : option ndarray)
    (dtype : option dtype) (m : memory) :
  vector_unproject x y depth out dtype m = inl NotImplementedError
  /\ vector_apply_quaternion_rotation x y out dtype m
     = inl NotImplementedError
  /\ vector_spherical_to_euclidean x out dtype m = inl NotImplementedError
  /\ vector_distance_between x y out dtype m = inl NotImplementedError
  /\ vector_from_matrix_position x out dtype m = inl NotImplementedError
  /\ vector_make_spherical_safe x out dtype m = inl NotImplementedError
  /\ is_numeric_error NotImplementedError = false.
Proof. repeat split. Qed.

(** ** C8: an output buffer together with a dtype override *)

Lemma returns_ret {A} (x : A) : returns (ret x) x.
Proof. intros m r m' H. injection H as <- _. reflexivity. Qed.

Lemma returns_bind {A B} (c : M A) (f : A -> M B) (x : B) :
  (forall y, returns (f y) x) -> returns (bind c f) x.
Proof.
  intros Hf m r m' H. unfold bind in H.
  destruct (c m) as [e|[y m1]]; [discriminate|]. eapply Hf; eauto.
Qed.

Lemma returns_bind_ret {A B} (y : A) (f : A -> M B) (x : B) :
  returns (f y) x -> returns (bind (ret y) f) x.
Proof. intros Hf m r m' H. eapply Hf. exact H. Qed.

Lemma returns_bind_bind {A B C} (c : M A) (g : A -> M B) (f : B -> M C)
    (x : C) :
  (forall y, returns (bind (g y) f) x) -> returns (bind (bind c g) f) x.
Proof.
  intros Hf m r m' H. unfold bind in H.
  destruct (c m) as [e|[y m1]]; [discriminate|].
  eapply Hf. unfold bind. exact H.
Qed.

Lemma returns_bind_bind_ret {A B C} (y : A) (g : A -> M B) (f : B -> M C)
    (x : C) :
  returns (bind (g y) f) x -> returns (bind (bind (ret y) g) f) x.
Proof. intros Hf m r m' H. eapply Hf. exact H. Qed.

Ltac returns_tac :=
  repeat
    (cbv beta iota;
     match goal with
     | |- returns (ret _) _ => apply returns_ret
     | |- returns (bind (ret _) _) _ => apply returns_bind_ret
     | |- returns (bind (bind (ret _) _) _) _ => apply returns_bind_bind_ret
     | |- returns (bind (bind _ _) _) _ => apply returns_bind_bind; intros
     | |- returns (bind _ _) _ => apply returns_bind; intros
     | |- returns (quaternion_make_from_axis_angle _ _ _ _) _ =>
         unfold quaternion_make_from_axis_angle
     end).

Lemma returns_raise {A} (e : exn) (x : A) : returns (raise e) x.
Proof. intros m r m' H. discriminate H. Qed.

Lemma returns_except {A} (c h : M A) (x : A) :
  returns c x -> returns h x -> returns (except_ValueError c h) x.
Proof.
  intros Hc Hh m r m' H. unfold except_ValueError in H.
  destruct (c m) as [e|[y m1]] eqn:E.
  - destruct e; try discriminate H; eapply Hh; exact H.
  - injection H as <- <-. eapply Hc. exact E.
Qed.

(** The claim as stated fails: a float32 output buffer together with
    [dtype=float64] is accepted, and the buffer is returned. *)
Lemma dtype_mismatch_is_accepted :
  let m := Memory [[0; 0; 0; 1]; repeat 0 16; [3; 0; 4]; [0; 0; 0]]
                  (fun _ _ => 0) in
  let q := NdArray 0 0 [(4, 1)%nat] float64 in
  let out := NdArray 1 0 [(4, 4); (4, 1)]%nat float32 in
  let v := NdArray 2 0 [(1, 3); (3, 1)]%nat float64 in
  let out' := NdArray 3 0 [(1, 3); (3, 1)]%nat float32 in
  dt out <> float64 /\ dt out' <> float64
  /\ (exists m',
        quaternion_to_matrix (Nd q) (Some out) (Some float64) m
        = inr (out, m'))
  /\ (exists m',
        vector_normalize (Nd v) (Some out') (Some float64) m = inr (out', m')).
Proof.
  split; [discriminate|]. split; [discriminate|]. split.
  - eexists. unfold quaternion_to_matrix. exec. reflexivity.
  - eexists. unfold vector_normalize. exec. reflexivity.
Qed.

(** C8, amended.  When a call supplies both [out] and [dtype], the [dtype]
    is ignored: the call is the same computation as the call without
    [dtype], and when it succeeds it returns the supplied buffer itself,
    whose element type is therefore the buffer's own.  This holds for
    [quaternion_to_matrix], [quaternion_multiply], [quaternion_inverse],
    [quaternion_make_from_axis_angle], [quaternion_make_from_unit_vectors],
    [quaternion_make_from_euler_angles], [vector_normalize],
    [vector_make_homogeneous], [vector_apply_matrix] and
    [vector_euclidean_to_spherical]. *)
Theorem dtype_ignored_when_out_given
    (o matrix : ndarray) (d : option dtype) (x y : array_like) (w : R)
    (order : string) :
  (quaternion_to_matrix x (Some o) d = quaternion_to_matrix x (Some o) None
   /\ returns (quaternion_to_matrix x (Some o) d) o)
  /\ (quaternion_multiply x y (Some o) d = quaternion_multiply x y (Some o) None
      /\ returns (quaternion_multiply x y (Some o) d) o)
  /\ (quaternion_inverse x (Some o) d = quaternion_inverse x (Some o) None
      /\ returns (quaternion_inverse x (Some o) d) o)
  /\ (quaternion_make_from_axis_angle x y (Some o) d
      = quaternion_make_from_axis_angle x y (Some o) None
      /\ returns (quaternion_make_from_axis_angle x y (Some o) d) o)
  /\ (quaternion_make_from_unit_vectors x y (Some o) d
      = quaternion_make_from_unit_vectors x y (Some o) None
      /\ returns (quaternion_make_from_unit_vectors x y (Some o) d) o)
  /\ (quaternion_make_from_euler_angles x order (Some o) d
      = quaternion_make_from_euler_angles x order (Some o) None
      /\ returns (quaternion_make_from_euler_angles x order (Some o) d) o)
  /\ (vector_normalize x (Some o) d = vector_normalize x (Some o) None
      /\ returns (vector_normalize x (Some o) d) o)
  /\ (vector_make_homogeneous x w (Some o) d
      = vector_make_homogeneous x w (Some o) None
      /\ returns (vector_make_homogeneous x w (Some o) d) o)
  /\ (vector_apply_matrix x matrix w (Some o) d
      = vector_apply_matrix x matrix w (Some o) None
      /\ returns (vector_apply_matrix x matrix w (Some o) d) o)
  /\ (vector_euclidean_to_spherical x (Some o) d
      = vector_euclidean_to_spherical x (Some o) None
      /\ returns (vector_euclidean_to_spherical x (Some o) d) o).
Proof.
  repeat split; try reflexivity.
  - unfold quaternion_to_matrix. returns_tac.
  - unfold quaternion_multiply. returns_tac.
  - unfold quaternion_inverse. returns_tac.
  - unfold quaternion_make_from_axis_angle. returns_tac.
  - unfold quaternion_make_from_unit_vectors, unit_vectors_axis_angle.
    returns_tac.
  - unfold quaternion_make_from_euler_angles. returns_tac.
  - unfold vector_normalize. returns_tac.
  - unfold vector_make_homogeneous. returns_tac.
  - unfold vector_apply_matrix. do 2 (apply returns_bind; intros).
    apply returns_except.
    + unfold np_dot_out. do 3 (apply returns_bind; intros).
      destruct (_ && _); [returns_tac|apply returns_raise].
    + returns_tac.
  - unfold vector_euclidean_to_spherical. returns_tac.
Qed.

(** ** C6: the caller's arrays after a call *)

Lemma norm_002 : sqrt (sumsq [0; 0; 2]) = 2.
Proof.
  replace (sumsq [0; 0; 2]) with (2 * 2) by (unfold sumsq; cbn; ring).
  apply sqrt_square. lra.
Qed.

Lemma norm_304 : sqrt (sumsq [3; 0; 4]) = 5.
Proof.
  replace (sumsq [3; 0; 4]) with (5 * 5) by (unfold sumsq; cbn; ring).
  apply sqrt_square. lra.
Qed.

Lemma norm_050 : sqrt (sumsq [0; 5; 0]) = 5.
Proof.
  replace (sumsq [0; 5; 0]) with (5 * 5) by (unfold sumsq; cbn; ring).
  apply sqrt_square. lra.
Qed.

(** C6.  The claim asks that [quaternion_make_from_axis_angle] leave the
    caller's [axis] array as it was.  Called with the float64 array
    [(0, 0, 2)] and the angle 0, the code returns normally and the caller's
    array holds [(0, 0, 1)] afterwards: [np.asarray(axis, dtype=float)] gave
    back the caller's own array and [axis /= ...] divided it in place. *)
Theorem axis_angle_overwrites_axis :
  let m := Memory [[0; 0; 2]] (fun _ _ => 0) in
  let axis := NdArray 0 0 [(3, 1)%nat] float64 in
  exists out m',
    quaternion_make_from_axis_angle (Nd axis) (Num 0) None None m
    = inr (out, m')
    /\ value_of (Nd axis) m = Some (Arr [3%nat] [0; 0; 2])
    /\ value_of (Nd axis) m' = Some (Arr [3%nat] [0; 0; 1]).
Proof.
  eexists _, _.
  split; [unfold quaternion_make_from_axis_angle; exec; reflexivity|].
  split; [reflexivity|]. exec. rewrite norm_002.
  repeat f_equal; field.
Qed.

(** The same call on a float32 array or on a sequence works on a copy, and
    the caller's data are untouched. *)
Lemma axis_angle_keeps_float32_axis :
  let m := Memory [[0; 0; 2]] (fun _ _ => 0) in
  let axis := NdArray 0 0 [(3, 1)%nat] float32 in
  exists out m',
    quaternion_make_from_axis_angle (Nd axis) (Num 0) None None m
    = inr (out, m')
    /\ value_of (Nd axis) m' = Some (Arr [3%nat] [0; 0; 2]).
Proof.
  eexists _, _.
  split; [unfold quaternion_make_from_axis_angle; exec; reflexivity|].
  reflexivity.
Qed.

(** ** C5: [vector_normalize] *)

(** C5.  The claim includes a single vector of shape [3]; on every such
    input the code raises [IndexError]: the norm along the last axis is then
    a scalar, which [[:, None]] cannot index. *)
Theorem vector_normalize_single_vector_raises
    (m : memory) (vectors : array_like) (dtype : option dtype) (x y z : R) :
  value_of vectors m = Some (Arr [3%nat] [x; y; z]) ->
  vector_normalize vectors None dtype m = inl IndexError.
Proof.
  intros Hv. destruct m as [pre J]. rewrite <- (app_nil_r pre).
  destruct vectors; inv_value Hv.
  all: unfold vector_normalize; exec; reflexivity.
Qed.

Lemma vector_normalize_single_vector_raises_witness :
  let m := Memory [] (fun _ _ => 0) in
  let v := Seq (Arr [3%nat] [3; 0; 4]) in
  value_of v m = Some (Arr [3%nat] [3; 0; 4])
  /\ vector_normalize v None None m = inl IndexError.
Proof.
  split; [reflexivity|].
  apply (vector_normalize_single_vector_raises
           (Memory [] (fun _ _ => 0)) (Seq (Arr [3%nat] [3; 0; 4])) None
           3 0 4).
  reflexivity.
Defined.

(** With exactly one leading dimension the rows are normalised one by one:
    the example of the specification. *)
Lemma vector_normalize_batch_example (m : memory) :
  exists out m',
    vector_normalize (Seq (Arr [2; 3]%nat [3; 0; 4; 0; 5; 0])) None None m
    = inr (out, m')
    /\ value_of (Nd out) m'
       = Some (Arr [2; 3]%nat [3 / 5; 0; 4 / 5; 0; 1; 0]).
Proof.
  destruct m as [pre J]. rewrite <- (app_nil_r pre).
  eexists _, _. split; [unfold vector_normalize; exec; reflexivity|].
  exec. rewrite norm_304, norm_050. repeat f_equal; field.
Qed.

(** With two leading dimensions the norms are paired with the wrong axis:
    shape [1, 3, 3] goes through and component [k] of every vector is divided
    by the norm of vector [k]; shape [2, 2, 3] raises [ValueError]. *)
Lemma vector_normalize_nested_batch_wrong (m : memory) :
  exists out m',
    vector_normalize
      (Seq (Arr [1; 3; 3]%nat [3; 0; 4; 0; 5; 0; 0; 0; 2])) None None m
    = inr (out, m')
    /\ value_of (Nd out) m'
       = Some (Arr [1; 3; 3]%nat [3 / 5; 0; 2; 0; 1; 0; 0; 0; 1]).
Proof.
  destruct m as [pre J]. rewrite <- (app_nil_r pre).
  eexists _, _. split; [unfold vector_normalize; exec; reflexivity|].
  exec. rewrite norm_304, norm_050, norm_002. repeat f_equal; field.
Qed.

Lemma vector_normalize_nested_batch_raises (m : memory) :
  vector_normalize
    (Seq (Arr [2; 2; 3]%nat [1; 0; 0; 0; 1; 0; 0; 0; 1; 1; 0; 0])) None None m
  = inl ValueError.
Proof.
  destruct m as [pre J]. rewrite <- (app_nil_r pre).
  unfold vector_normalize. exec. reflexivity.
Qed.

(** ** C3: the replacement axis for parallel vectors *)

Ltac decide_R :=
  match goal with
  | |- context [Req_dec_T ?a ?b] =>
      destruct (Req_dec_T a b);
      [ try (exfalso; (contradiction || lra))
      | try (exfalso; (contradiction || lra)) ]
  | |- context [Rlt_dec ?a ?b] =>
      destruct (Rlt_dec a b);
      [ try (exfalso; (contradiction || lra))
      | try (exfalso; (contradiction || lra)) ]
  end.

Ltac exec_R := repeat first [ exec_step | decide_R ].

Lemma unit_vectors_fallback_axis
    (m : memory) (source target : array_like) (dtype : option dtype)
    (sx sy sz tx ty tz : R) :
  value_of source m = Some (Arr [3%nat] [sx; sy; sz]) ->
  value_of target m = Some (Arr [3%nat] [tx; ty; tz]) ->
  sqrt (sumsq [sy * tz - sz * ty; sz * tx - sx * tz; sx * ty - sy * tx]) = 0 ->
  exists axis angle out m',
    unit_vectors_axis_angle source target None dtype m
    = inr ((axis, angle, out), m')
    /\ value_of (Nd axis) m' = Some (Arr [3%nat] (fallback_axis sx sy sz)).
Proof.
  intros Hs Ht Hp.
  destruct m as [pre J]. rewrite <- (app_nil_r pre).
  unfold fallback_axis.
  destruct (Req_dec_T sz 0) as [Hz|Hz];
    [|destruct (Req_dec_T sy 0) as [Hy|Hy]].
  all: destruct source as [r|a|[b o ds [|]]]; inv_value Hs.
  all: destruct target as [r|a|[b' o' ds' [|]]]; inv_value Ht.
  all: eexists _, _, _, _.
  all: (split; [unfold unit_vectors_axis_angle; exec; rewrite Hp; exec_R;
                reflexivity|]).
  all: exec.
  all: repeat f_equal; ring.
Qed.

Lemma norm_000 : sqrt (sumsq [0 * 0 - 0 * 0; 0 * 1 - 1 * 0; 1 * 0 - 0 * 1]) = 0.
Proof.
  replace (sumsq _) with 0 by (unfold sumsq; cbn; ring). apply sqrt_0.
Qed.

(** The claim as stated fails: for the source [(1, 0, 0)], whose y and z
    components are both zero, and a parallel target, the axis chosen is
    [(0, 0, 1)] and not [(0, 1, 0)]. *)
Lemma fallback_axis_prefers_z :
  let m := Memory [] (fun _ _ => 0) in
  let v := Seq (Arr [3%nat] [1; 0; 0]) in
  exists axis angle out m',
    unit_vectors_axis_angle v v None None m = inr ((axis, angle, out), m')
    /\ value_of (Nd axis) m' = Some (Arr [3%nat] [0; 0; 1])
    /\ value_of (Nd axis) m' <> Some (Arr [3%nat] [0; 1; 0]).
Proof.
  destruct (unit_vectors_fallback_axis
              (Memory [] (fun _ _ => 0)) (Seq (Arr [3%nat] [1; 0; 0]))
              (Seq (Arr [3%nat] [1; 0; 0])) None 1 0 0 1 0 0
              eq_refl eq_refl norm_000)
    as (axis & angle & out & m' & Hrun & Haxis).
  exists axis, angle, out, m'. split; [exact Hrun|].
  unfold fallback_axis in Haxis.
  destruct (Req_dec_T 0 0) as [_|Hne]; [|exfalso; apply Hne; reflexivity].
  split; [exact Haxis|]. rewrite Haxis. intros E.
  injection E as E. lra.
Qed.

(** C3, amended.  For parallel source and target vectors (cross product of
    norm 0), the axis that [quaternion_make_from_unit_vectors] hands to
    [quaternion_make_from_axis_angle] is: [(0, 0, 1)] if [source.z == 0];
    else [(0, 1, 0)] if [source.y == 0]; else [(0, -source.z, source.y)].
    In particular it is [(0, 0, 1)] when both components are zero. *)
Theorem unit_vectors_replacement_axis
    (m : memory) (source target : array_like) (dtype : option dtype)
    (sx sy sz tx ty tz : R) :
  value_of source m = Some (Arr [3%nat] [sx; sy; sz]) ->
  value_of target m = Some (Arr [3%nat] [tx; ty; tz]) ->
  sqrt (sumsq [sy * tz - sz * ty; sz * tx - sx * tz; sx * ty - sy * tx]) = 0 ->
  exists axis angle out m',
    unit_vectors_axis_angle source target None dtype m
    = inr ((axis, angle, out), m')
    /\ value_of (Nd axis) m' = Some (Arr [3%nat] (fallback_axis sx sy sz)).
Proof. apply unit_vectors_fallback_axis. Qed.

Lemma unit_vectors_replacement_axis_witness :
  let m := Memory [] (fun _ _ => 0) in
  let v := Seq (Arr [3%nat] [1; 0; 0]) in
  value_of v m = Some (Arr [3%nat] [1; 0; 0])
  /\ sqrt (sumsq [0 * 0 - 0 * 0; 0 * 1 - 1 * 0; 1 * 0 - 0 * 1]) = 0
  /\ exists axis angle out m',
       unit_vectors_axis_angle v v None None m = inr ((axis, angle, out), m')
       /\ value_of (Nd axis) m' = Some (Arr [3%nat] (fallback_axis 1 0 0)).
Proof.
  split; [reflexivity|]. split; [exact norm_000|].
  apply (unit_vectors_replacement_axis
           (Memory [] (fun _ _ => 0)) (Seq (Arr [3%nat] [1; 0; 0]))
           (Seq (Arr [3%nat] [1; 0; 0])) None 1 0 0 1 0 0);
    [reflexivity | reflexivity | exact norm_000].
Defined.

(** ** C4: the spherical coordinates of the y axis *)

Lemma Rsum_010 : Rsum [0 * 0; 1 * 1; 0 * 0] = 1.
Proof. unfold Rsum. cbn. ring. Qed.

Lemma Rsum_00 : Rsum [0 * 0; 0 * 0] = 0.
Proof. unfold Rsum. cbn. ring. Qed.

Ltac exec_spherical :=
  repeat first
    [ exec_step
    | rewrite Rsum_010 | rewrite Rsum_00 | rewrite sqrt_1 | rewrite sqrt_0
    | progress unfold np_sign
    | decide_R ].

(** On [(0, 1, 0)] the mask [xz_nonzero] is false, so both masked ufuncs
    return their uninitialised result arrays untouched; the second component
    is [sign(0)] times such an element, that is 0 in real arithmetic.  The
    third component is [arccos(z / r) = arccos(0 / 1)]. *)
Lemma spherical_of_y_axis
    (m : memory) (euclidean : array_like) (dtype : option dtype) :
  value_of euclidean m = Some (Arr [3%nat] [0; 1; 0]) ->
  exists out m',
    vector_euclidean_to_spherical euclidean None dtype m = inr (out, m')
    /\ value_of (Nd out) m' = Some (Arr [3%nat] [1; 0; PI / 2]).
Proof.
  intros He. destruct m as [pre J]. rewrite <- (app_nil_r pre).
  destruct euclidean as [r|a|[b o ds [|]]]; inv_value He.
  all: eexists _, _.
  all: (split; [unfold vector_euclidean_to_spherical; exec_spherical;
                reflexivity|]).
  all: exec.
  all: replace (0 / 1) with 0 by field; rewrite acos_0, Rmult_0_l.
  all: reflexivity.
Qed.

(** The claim as stated fails: the third component is [pi / 2], not 0. *)
Lemma spherical_of_y_axis_is_not_1_0_0 :
  let m := Memory [] (fun _ _ => 0) in
  let v := Seq (Arr [3%nat] [0; 1; 0]) in
  exists out m',
    vector_euclidean_to_spherical v None None m = inr (out, m')
    /\ value_of (Nd out) m' <> Some (Arr [3%nat] [1; 0; 0]).
Proof.
  destruct (spherical_of_y_axis
              (Memory [] (fun _ _ => 0)) (Seq (Arr [3%nat] [0; 1; 0])) None
              eq_refl) as (out & m' & Hrun & Hout).
  exists out, m'. split; [exact Hrun|]. rewrite Hout. intros E.
  injection E as E. pose proof PI_RGT_0. lra.
Qed.

(** C4, amended.  [vector_euclidean_to_spherical] applied to [(0, 1, 0)]
    returns [(1, 0, pi / 2)]: radius 1, second component 0 by the y-axis
    special case, third component [arccos(z / r) = arccos(0) = pi / 2]. *)
Theorem spherical_of_unit_y
    (m : memory) (euclidean : array_like) (dtype : option dtype) :
  value_of euclidean m = Some (Arr [3%nat] [0; 1; 0]) ->
  exists out m',
    vector_euclidean_to_spherical euclidean None dtype m = inr (out, m')
    /\ value_of (Nd out) m' = Some (Arr [3%nat] [1; 0; PI / 2]).
Proof. apply spherical_of_y_axis. Qed.

Lemma spherical_of_unit_y_witness :
  let m := Memory [] (fun _ _ => 0) in
  let v := Seq (Arr [3%nat] [0; 1; 0]) in
  value_of v m = Some (Arr [3%nat] [0; 1; 0])
  /\ exists out m',
       vector_euclidean_to_spherical v None None m = inr (out, m')
       /\ value_of (Nd out) m' = Some (Arr [3%nat] [1; 0; PI / 2]).
Proof.
  split; [reflexivity|].
  apply (spherical_of_unit_y
           (Memory [] (fun _ _ => 0)) (Seq (Arr [3%nat] [0; 1; 0])) None).
  reflexivity.
Defined.

(** * Further properties of the code *)

(** ** Arrays of any size: offsets, gathering and scattering *)

Lemma flat_map_singleton {A B} (f : A -> B) (l : list A) :
  flat_map (fun i => [f i]) l = map f l.
Proof. induction l as [|x l IH]; cbn; [|rewrite IH]; reflexivity. Qed.

Lemma flat_map_flat_map {A B C} (f : A -> list B) (g : B -> list C) l :
  flat_map g (flat_map f l) = flat_map (fun x => flat_map g (f x)) l.
Proof.
  induction l as [|x l IH]; cbn; [reflexivity|].
  rewrite flat_map_app, IH. reflexivity.
Qed.

Lemma offsets_app ds1 ds2 off :
  offsets (ds1 ++ ds2) off = flat_map (offsets ds2) (offsets ds1 off).
Proof.
  revert off. induction ds1 as [|[d s] ds1 IH]; intros off; cbn.
  - rewrite app_nil_r. reflexivity.
  - rewrite flat_map_flat_map. apply flat_map_ext. intros i. apply IH.
Qed.

Lemma seq_blocks {B} (f : nat -> B) (P d a : nat) :
  map f (seq (a * P) (d * P))
  = flat_map (fun i => map (fun j => f (i * P + j)%nat) (seq 0 P)) (seq a d).
Proof.
  revert a. induction d as [|d IH]; intros a; cbn [Nat.mul seq flat_map].
  - reflexivity.
  - rewrite seq_app, map_app. f_equal.
    + rewrite <- (Nat.add_0_r (a * P)) at 1. rewrite <- fmap_add_seq.
      change (map f ((fun x => (a * P + x)%nat) <$> seq 0 P)) with
        (map f (map (fun x => (a * P + x)%nat) (seq 0 P))).
      rewrite map_map. reflexivity.
    + replace (a * P + P)%nat with (S a * P)%nat by lia. apply IH.
Qed.

Lemma seq_blocks0 {B} (f : nat -> B) (P d : nat) :
  map f (seq 0 (d * P))
  = flat_map (fun i => map (fun j => f (i * P + j)%nat) (seq 0 P)) (seq 0 d).
Proof. apply (seq_blocks f P d 0). Qed.

Lemma offsets_contig sh K off :
  offsets (zip sh (map (Nat.mul K) (cstrides sh))) off
  = map (fun i => (off + i * K)%nat) (seq 0 (np_prod sh)).
Proof.
  revert off. induction sh as [|d sh IH]; intros off; cbn.
  - f_equal. lia.
  - change (foldr Nat.mul 1%nat sh) with (np_prod sh).
    rewrite (seq_blocks0 (fun i => (off + i * K)%nat) (np_prod sh) d).
    apply flat_map_ext. intros i. rewrite IH. apply map_ext. intros j. lia.
Qed.

Lemma map_id' {A} (f : A -> A) l : (forall x, f x = x) -> map f l = l.
Proof. intros H. induction l; cbn; [|rewrite H, IHl]; reflexivity. Qed.

Lemma offsets_cstrides sh :
  offsets (zip sh (cstrides sh)) 0 = seq 0 (np_prod sh).
Proof.
  rewrite <- (map_id' (Nat.mul 1) (cstrides sh)) by (intros; lia).
  rewrite offsets_contig. apply map_id'. intros; lia.
Qed.

Lemma length_offsets ds off :
  length (offsets ds off) = np_prod (fst <$> ds).
Proof.
  revert off. induction ds as [|[d s] ds IH]; intros off; cbn; [reflexivity|].
  change (foldr Nat.mul 1%nat (fst <$> ds)) with (np_prod (fst <$> ds)).
  rewrite flat_map_constant_length with (c := np_prod (fst <$> ds)).
  - rewrite length_seq. reflexivity.
  - intros; apply IH.
Qed.

Lemma gather_all {A} (buf : list A) : gather buf (seq 0 (length buf)) = Some buf.
Proof.
  unfold gather. apply mapM_Some. 
  induction buf as [|x buf IH] using rev_ind; cbn; [constructor|].
  rewrite length_app. cbn [length]. rewrite Nat.add_1_r, seq_S. cbn [Nat.add].
  apply Forall2_app.
  - eapply Forall2_impl; [exact IH|]. intros o v H. cbn in H.
    apply lookup_app_l_Some. exact H.
  - constructor; [|constructor]. apply list_lookup_middle. reflexivity.
Qed.

Lemma length_upd loc vs b : length (upd loc vs b) = length b.
Proof.
  unfold upd. revert vs b. induction loc as [|c loc IH]; intros [|v vs] b;
    cbn; try reflexivity.
  rewrite IH, length_insert. reflexivity.
Qed.

Lemma scatter_app o1 v1 o2 v2 buf :
  length o1 = length v1 ->
  scatter (o1 ++ o2) (v1 ++ v2) buf
  = match scatter o1 v1 buf with
    | Some b => scatter o2 v2 b
    | None => None
    end.
Proof.
  revert v1 buf. induction o1 as [|o o1 IH]; intros [|v v1] buf Hl;
    try discriminate; cbn -[Nat.ltb].
  - reflexivity.
  - destruct (o <? length buf)%nat; [|reflexivity].
    apply IH. cbn in Hl. lia.
Qed.

Lemma scatter_local loc vs pre b post :
  Forall (fun c => c < length b)%nat loc ->
  scatter (map (fun c => length pre + c)%nat loc) vs (pre ++ b ++ post)
  = Some (pre ++ upd loc vs b ++ post).
Proof.
  revert vs b. induction loc as [|c loc IH]; intros [|v vs] b Hc;
    cbn -[Nat.ltb]; try reflexivity.
  inversion Hc as [|? ? Hlt Hc']; subst.
  replace (length pre + c <? length (pre ++ b ++ post))%nat with true
    by (symmetry; apply Nat.ltb_lt; rewrite !length_app; lia).
  rewrite insert_app_r, insert_app_l by exact Hlt.
  rewrite IH.
  - reflexivity.
  - rewrite length_insert. exact Hc'.
Qed.

(** A buffer made of [n] blocks of [k] elements; block [i] receives the
    values [vals i] at its local offsets [locs i]. *)
Lemma scatter_blocks (k : nat) (locs : nat -> list nat)
    (vals blk : nat -> list R) (n s : nat) (pre post : list R) :
  length pre = (s * k)%nat ->
  (forall i, (s <= i < s + n)%nat ->
     length (blk i) = k /\ length (vals i) = length (locs i)
     /\ Forall (fun c => c < k)%nat (locs i)) ->
  scatter (flat_map (fun i => map (fun c => i * k + c)%nat (locs i)) (seq s n))
          (flat_map vals (seq s n))
          (pre ++ flat_map blk (seq s n) ++ post)
  = Some (pre ++ flat_map (fun i => upd (locs i) (vals i) (blk i)) (seq s n)
              ++ post).
Proof.
  revert s pre. induction n as [|n IH]; intros s pre Hpre Hb; cbn.
  - reflexivity.
  - destruct (Hb s ltac:(lia)) as (Hk & Hv & Hc).
    rewrite scatter_app by (rewrite length_map; lia).
    rewrite <- app_assoc.
    rewrite <- Hpre.
    rewrite (scatter_local (locs s) (vals s) pre (blk s))
      by (rewrite Hk; exact Hc).
    rewrite (app_assoc pre).
    rewrite (IH (S s) (pre ++ upd (locs s) (vals s) (blk s))).
    + rewrite <- !app_assoc. reflexivity.
    + rewrite length_app, length_upd. lia.
    + intros i Hi. apply Hb. lia.
Qed.

(** ** Broadcasting *)

Lemma broadcast_rev_nil_r r : broadcast_rev r [] = Some r.
Proof. destruct r; reflexivity. Qed.

Lemma broadcast_shapes_scalar_r sh : broadcast_shapes sh [] = Some sh.
Proof.
  unfold broadcast_shapes. cbn [rev]. rewrite broadcast_rev_nil_r. cbn.
  rewrite rev_involutive. reflexivity.
Qed.

Lemma broadcast_shapes_scalar_l sh : broadcast_shapes [] sh = Some sh.
Proof.
  unfold broadcast_shapes. cbn. rewrite rev_involutive. reflexivity.
Qed.

Lemma broadcast_rev_same r : broadcast_rev r r = Some r.
Proof.
  induction r as [|d r IH]; cbn; [reflexivity|].
  rewrite IH, Nat.eqb_refl. reflexivity.
Qed.

Lemma broadcast_shapes_same sh : broadcast_shapes sh sh = Some sh.
Proof.
  unfold broadcast_shapes. rewrite broadcast_rev_same. cbn.
  rewrite rev_involutive. reflexivity.
Qed.

Lemma bstrides_rev_same rs rst :
  length rst = length rs -> bstrides_rev rs rst rs = Some rst.
Proof.
  revert rst. induction rs as [|d rs IH]; intros [|t rst] Hl;
    try discriminate; cbn; [reflexivity|].
  rewrite Nat.eqb_refl, IH by (cbn in Hl; lia). reflexivity.
Qed.

Lemma bstrides_rev_scalar rsh :
  bstrides_rev [] [] rsh = Some (repeat 0%nat (length rsh)).
Proof.
  induction rsh as [|d rsh IH]; cbn; [reflexivity|]. rewrite IH. reflexivity.
Qed.

Lemma length_cstrides sh : length (cstrides sh) = length sh.
Proof. induction sh; cbn; [|rewrite IHsh]; reflexivity. Qed.

Lemma offsets_zero_strides sh off :
  offsets (zip sh (repeat 0%nat (length sh))) off = repeat off (np_prod sh).
Proof.
  induction sh as [|d sh IH]; cbn; [reflexivity|].
  change (foldr Nat.mul 1%nat sh) with (np_prod sh).
  erewrite flat_map_ext
    by (intros i; rewrite Nat.mul_0_r, Nat.add_0_r; apply IH).
  generalize (np_prod sh) as p. intros p.
  generalize 0%nat. induction d as [|d IHd]; intros a; cbn; [reflexivity|].
  rewrite IHd, repeat_app. reflexivity.
Qed.

Lemma rev_repeat' {A} (x : A) n : rev (repeat x n) = repeat x n.
Proof.
  induction n as [|n IH]; cbn; [reflexivity|].
  rewrite IH. symmetry. apply repeat_cons.
Qed.

Lemma gather_repeat {A} (x : A) l n : gather (x :: l) (repeat 0%nat n) = Some (repeat x n).
Proof.
  unfold gather. induction n as [|n IH]; cbn; [reflexivity|].
  rewrite IH. reflexivity.
Qed.

Lemma broadcast_to_same {A} (sh : list nat) (d : list A) :
  length d = np_prod sh -> broadcast_to (Arr sh d) sh = Some d.
Proof.
  intros Hl. unfold broadcast_to, bstrides. cbn.
  rewrite bstrides_rev_same by (rewrite !length_rev; apply length_cstrides).
  cbn. rewrite rev_involutive, offsets_cstrides, <- Hl. apply gather_all.
Qed.

Lemma broadcast_to_scalar {A} (x : A) (sh : list nat) :
  broadcast_to (Arr [] [x]) sh = Some (repeat x (np_prod sh)).
Proof.
  unfold broadcast_to, bstrides. cbn. rewrite bstrides_rev_scalar. cbn.
  rewrite rev_repeat', length_rev, offsets_zero_strides.
  apply gather_repeat.
Qed.

Lemma ufunc2_same {A B C} (f : A -> B -> C) sh da db :
  length da = np_prod sh -> length db = np_prod sh ->
  ufunc2 f (Arr sh da) (Arr sh db) = inr (Arr sh (zip_with f da db)).
Proof.
  intros Ha Hb. unfold ufunc2. cbn [ashape adata]. rewrite broadcast_shapes_same.
  rewrite !broadcast_to_same by assumption. reflexivity.
Qed.

Lemma zip_with_repeat_r {A B C} (f : A -> B -> C) l y :
  zip_with f l (repeat y (length l)) = map (fun x => f x y) l.
Proof. induction l; cbn; [|rewrite IHl]; reflexivity. Qed.

Lemma zip_with_repeat_l {A B C} (f : A -> B -> C) x l :
  zip_with f (repeat x (length l)) l = map (f x) l.
Proof. induction l; cbn; [|rewrite IHl]; reflexivity. Qed.

Lemma ufunc2_scalar_r {A B C} (f : A -> B -> C) sh da y :
  length da = np_prod sh ->
  ufunc2 f (Arr sh da) (Arr [] [y]) = inr (Arr sh (map (fun x => f x y) da)).
Proof.
  intros Ha. unfold ufunc2. cbn [ashape adata]. rewrite broadcast_shapes_scalar_r.
  rewrite broadcast_to_same, broadcast_to_scalar by assumption.
  rewrite <- Ha, zip_with_repeat_r. reflexivity.
Qed.

Lemma ufunc2_scalar_l {A B C} (f : A -> B -> C) sh x db :
  length db = np_prod sh ->
  ufunc2 f (Arr [] [x]) (Arr sh db) = inr (Arr sh (map (f x) db)).
Proof.
  intros Hb. unfold ufunc2. cbn [ashape adata]. rewrite broadcast_shapes_scalar_l.
  rewrite broadcast_to_same, broadcast_to_scalar by assumption.
  rewrite <- Hb, zip_with_repeat_l. reflexivity.
Qed.

Lemma setitem_value_same {A} (sh : list nat) (d : list A) :
  length d = np_prod sh -> setitem_value (Arr sh d) sh = inr d.
Proof.
  intros Hl. unfold setitem_value. cbn [ashape adata].
  rewrite Nat.sub_diag. cbn [strip_ones].
  rewrite broadcast_to_same by assumption. reflexivity.
Qed.

Lemma setitem_value_scalar {A} (x : A) (sh : list nat) :
  setitem_value (Arr [] [x]) sh = inr (repeat x (np_prod sh)).
Proof.
  unfold setitem_value. cbn [ashape adata length Nat.sub strip_ones].
  rewrite broadcast_to_scalar. reflexivity.
Qed.

(** ** Expressions over arrays of any size *)

(** The expression [e] evaluates, without changing the memory, to the array
    of shape [sh] whose element [i] (in C order) is [f i]. *)
Lemma zip_with_map {A B C D} (F : B -> C -> D) (f : A -> B) (g : A -> C) l :
  zip_with F (map f l) (map g l) = map (fun i => F (f i) (g i)) l.
Proof. induction l; cbn; [|rewrite IHl]; reflexivity. Qed.

Lemma evals_val m sh f : evals (val (Arr sh (map f (seq 0 (np_prod sh))))) m sh f.
Proof. reflexivity. Qed.

Lemma evals_op2 F x y m sh f g :
  evals x m sh f -> evals y m sh g ->
  evals (op2 F x y) m sh (fun i => F (f i) (g i)).
Proof.
  unfold evals, op2, bind. intros -> ->.
  rewrite ufunc2_same by (rewrite length_map, length_seq; reflexivity).
  rewrite zip_with_map. reflexivity.
Qed.

Lemma evals_op2_num_r F x c m sh f :
  evals x m sh f -> evals (op2 F x (num c)) m sh (fun i => F (f i) c).
Proof.
  unfold evals, op2, bind, num, ret. intros ->. unfold scalar.
  rewrite ufunc2_scalar_r by (rewrite length_map, length_seq; reflexivity).
  rewrite map_map. reflexivity.
Qed.

Lemma evals_op2_num_l F c y m sh g :
  evals y m sh g -> evals (op2 F (num c) y) m sh (fun i => F c (g i)).
Proof.
  unfold evals, op2, bind, num, ret. intros ->. unfold scalar.
  rewrite ufunc2_scalar_l by (rewrite length_map, length_seq; reflexivity).
  rewrite map_map. reflexivity.
Qed.

Lemma evals_op1 F x m sh f :
  evals x m sh f -> evals (op1 F x) m sh (fun i => F (f i)).
Proof.
  unfold evals, op1, bind, ret, ufunc1. intros ->. cbn.
  change (F <$> map f (seq 0 (np_prod sh))) with (map F (map f (seq 0 (np_prod sh)))).
  rewrite map_map. reflexivity.
Qed.

Lemma bind_evals {B} e m sh f (k : arr -> M B) :
  evals e m sh f ->
  bind e k m = k (Arr sh (map f (seq 0 (np_prod sh)))) m.
Proof. unfold evals, bind. intros ->. reflexivity. Qed.

Lemma bind_inr {A B} (c : M A) (k : A -> M B) m x m' :
  c m = inr (x, m') -> bind c k m = k x m'.
Proof. unfold bind. intros ->. reflexivity. Qed.

Create HintDb evals.
#[export] Hint Resolve evals_val evals_op2 evals_op2_num_r evals_op2_num_l evals_op1 : evals.

(** ** A buffer among the others *)

Lemma lookup_mid {A} (pre post : list A) x :
  (pre ++ [x] ++ post) !! length pre = Some x.
Proof. apply list_lookup_middle. reflexivity. Qed.

Lemma insert_mid {A} (pre post : list A) x y :
  <[length pre := y]> (pre ++ [x] ++ post) = pre ++ [y] ++ post.
Proof.
  rewrite insert_app_r_alt by lia. rewrite Nat.sub_diag. reflexivity.
Qed.

Lemma lookup_mid_ne {A} (pre post : list A) x y b :
  b <> length pre -> (pre ++ [x] ++ post) !! b = (pre ++ [y] ++ post) !! b.
Proof.
  intros Hb. destruct (decide (b < length pre)%nat).
  - rewrite !lookup_app_l by assumption. reflexivity.
  - rewrite (lookup_app_r pre ([x] ++ post)) by lia.
    rewrite (lookup_app_r pre ([y] ++ post)) by lia.
    destruct (b - length pre)%nat eqn:E; [lia|]. reflexivity.
Qed.

Lemma poke_blocks (k : nat) (locs : nat -> list nat) (vals blk : nat -> list R)
    (n : nat) (pre post : list (list R)) J :
  (forall i, (i < n)%nat ->
     length (blk i) = k /\ length (vals i) = length (locs i)
     /\ Forall (fun c => c < k)%nat (locs i)) ->
  poke (length pre)
       (flat_map (fun i => map (fun c => i * k + c)%nat (locs i)) (seq 0 n))
       (flat_map vals (seq 0 n))
       (Memory (pre ++ [flat_map blk (seq 0 n)] ++ post) J)
  = inr (tt, Memory (pre ++ [flat_map (fun i => upd (locs i) (vals i) (blk i))
                                      (seq 0 n)] ++ post) J).
Proof.
  intros Hb. unfold poke, store. cbn [bufs junk]. rewrite lookup_mid.
  pose proof (scatter_blocks k locs vals blk n 0 [] []) as H.
  cbn [app length] in H. rewrite !app_nil_r in H.
  rewrite H; [|reflexivity|intros i Hi; apply Hb; lia].
  rewrite insert_mid. reflexivity.
Qed.

Ltac msimpl := repeat (progress (unfold bind, lift, ret, raise; cbv beta iota)).

Lemma np_prod_app a b : np_prod (a ++ b) = (np_prod a * np_prod b)%nat.
Proof.
  unfold np_prod. induction a as [|d a IH]; cbn [app foldr].
  - symmetry. apply Nat.mul_1_l.
  - rewrite IH. apply Nat.mul_assoc.
Qed.

Lemma dims_split bs t :
  zip (bs ++ t) (cstrides (bs ++ t))
  = zip bs (map (Nat.mul (np_prod t)) (cstrides bs)) ++ zip t (cstrides t).
Proof.
  induction bs as [|d bs IH]; cbn [app cstrides zip_with map];
    [reflexivity|].
  rewrite IH, np_prod_app, (Nat.mul_comm (np_prod bs)). reflexivity.
Qed.

Lemma index_last_snoc v ds d s k :
  dims v = ds ++ [(d, s)] -> (k < d)%nat ->
  index_last v k = inr (NdArray (base v) (offset v + k * s) ds (dt v)).
Proof.
  intros Hd Hk. unfold index_last. rewrite Hd, rev_app_distr. cbn [rev app].
  apply Nat.ltb_lt in Hk. rewrite Hk, rev_involutive. reflexivity.
Qed.

Lemma index_last2_snoc v ds d1 s1 d2 s2 i j :
  dims v = ds ++ [(d1, s1); (d2, s2)] -> (i < d1)%nat -> (j < d2)%nat ->
  index_last2 v i j
  = inr (NdArray (base v) (offset v + j * s2 + i * s1) ds (dt v)).
Proof.
  intros Hd Hi Hj. unfold index_last2.
  rewrite (index_last_snoc v (ds ++ [(d1, s1)]) d2 s2 j)
    by (rewrite ?Hd, <- ?app_assoc; auto).
  rewrite (index_last_snoc _ ds d1 s1 i) by auto. reflexivity.
Qed.

Lemma slice_all_snoc v ds x : dims v = ds ++ [x] -> slice_all v = inr v.
Proof.
  intros Hd. unfold slice_all. rewrite Hd. destruct ds; reflexivity.
Qed.

Lemma length_blocks {A} (blk : nat -> list A) k n s :
  (forall i, length (blk i) = k) ->
  length (flat_map blk (seq s n)) = (n * k)%nat.
Proof.
  intros H. rewrite flat_map_constant_length with (c := k) by (intros; apply H).
  rewrite length_seq. reflexivity.
Qed.

Lemma repeat_blocks {A} (x : A) k n :
  repeat x (n * k) = flat_map (fun _ => repeat x k) (seq 0 n).
Proof.
  generalize 0%nat. induction n as [|n IH]; intros s; cbn; [reflexivity|].
  rewrite repeat_app, (IH (S s)). reflexivity.
Qed.

(** Assignment of a number to a view of the block-structured buffer at
    [length pre], every block receiving it at the same local offsets. *)
Lemma assign_fill (v : ndarray) (c : R) (k n : nat) (loc : list nat)
    (blk : nat -> list R) (pre post : list (list R)) J :
  base v = length pre ->
  dims v <> [] ->
  offsets (dims v) (offset v)
  = flat_map (fun i => map (fun j => i * k + j)%nat loc) (seq 0 n) ->
  np_prod (shape v) = (n * length loc)%nat ->
  (forall i, length (blk i) = k) ->
  Forall (fun j => j < k)%nat loc ->
  assign (slice_all v) (num c)
         (Memory (pre ++ [flat_map blk (seq 0 n)] ++ post) J)
  = inr (tt, Memory (pre ++ [flat_map (fun i => upd loc (repeat c (length loc))
                                                    (blk i)) (seq 0 n)]
                          ++ post) J).
Proof.
  intros Hb Hd Ho Hn Hk Hl.
  unfold assign, num, slice_all, write, scalar.
  destruct (dims v) eqn:E; [contradiction|]. rewrite <- E in *. clear E.
  msimpl. rewrite setitem_value_scalar. msimpl.
  rewrite Ho, Hb, Hn, repeat_blocks.
  apply (poke_blocks k (fun _ => loc) (fun _ => repeat c (length loc)) blk).
  intros i _. rewrite repeat_length. auto.
Qed.

(** Assignment of an array to a view that has one element, at local offset
    [c], in every block. *)
Lemma assign_column (t : exn + ndarray) (v : ndarray) (e : M arr)
    (f : nat -> R) (k c : nat) (blk : nat -> list R)
    (pre post : list (list R)) J :
  t = inr v ->
  base v = length pre ->
  offsets (dims v) (offset v)
  = map (fun i => c + i * k)%nat (seq 0 (np_prod (shape v))) ->
  (forall i, length (blk i) = k) ->
  (c < k)%nat ->
  evals e (Memory (pre ++ [flat_map blk (seq 0 (np_prod (shape v)))] ++ post) J)
        (shape v) f ->
  assign t e (Memory (pre ++ [flat_map blk (seq 0 (np_prod (shape v)))]
                          ++ post) J)
  = inr (tt, Memory (pre ++ [flat_map (fun i => <[c := f i]> (blk i))
                                      (seq 0 (np_prod (shape v)))]
                          ++ post) J).
Proof.
  intros -> Hb Ho Hk Hc He.
  unfold assign. rewrite (bind_evals _ _ _ _ _ He).
  unfold write. msimpl.
  rewrite setitem_value_same by (rewrite length_map, length_seq; reflexivity).
  msimpl. rewrite Ho, Hb.
  rewrite <- (flat_map_singleton f), <- (flat_map_singleton (fun i => (c + i * k)%nat)).
  erewrite (flat_map_ext (fun i => [(c + i * k)%nat]))
    by (intros i; rewrite Nat.add_comm; reflexivity).
  apply (poke_blocks k (fun _ => [c]) (fun i => [f i]) blk).
  intros i _. repeat split; auto.
Qed.

Lemma offsets_shift ds off x :
  offsets ds (off + x) = map (fun o => (o + x)%nat) (offsets ds off).
Proof.
  revert off. induction ds as [|[d s] ds IH]; intros off; cbn; [reflexivity|].
  induction (seq 0 d) as [|i l IHl]; [reflexivity|].
  cbn [flat_map]. rewrite map_app, <- IHl. f_equal.
  replace (off + x + i * s)%nat with (off + i * s + x)%nat by lia. apply IH.
Qed.

Lemma gather_app_inv {A} (buf : list A) o1 o2 d :
  gather buf (o1 ++ o2) = Some d ->
  exists d1 d2, d = d1 ++ d2 /\ gather buf o1 = Some d1
                /\ gather buf o2 = Some d2.
Proof.
  unfold gather. intros H. apply mapM_Some in H.
  apply Forall2_app_inv_l in H as (d1 & d2 & H1 & H2 & ->).
  exists d1, d2. repeat split; apply mapM_Some; assumption.
Qed.

(** The elements of a view whose last axis has length 4, and those of the
    view obtained by fixing the last index. *)
Lemma gather_component (buf : list R) (s k : nat) (os : list nat) (qd : list R) :
  gather buf (flat_map (offsets [(4%nat, s)]) os) = Some qd ->
  (k < 4)%nat ->
  gather buf (map (fun o => (o + k * s)%nat) os)
  = Some (map (fun i => nth (4 * i + k) qd 0%R) (seq 0 (length os))).
Proof.
  revert qd. induction os as [|o os IH]; intros qd H Hk.
  - reflexivity.
  - cbn [flat_map] in H. apply gather_app_inv in H as (d1 & d2 & -> & H1 & H2).
    specialize (IH d2 H2 Hk).
    cbn [offsets flat_map seq app] in H1. unfold gather in H1. cbn in H1.
    destruct (buf !! (o + 0)%nat) as [x0|] eqn:E0; [|discriminate].
    destruct (buf !! (o + (s + 0))%nat) as [x1|] eqn:E1; [|discriminate].
    destruct (buf !! (o + (s + (s + 0)))%nat) as [x2|] eqn:E2; [|discriminate].
    destruct (buf !! (o + (s + (s + (s + 0))))%nat) as [x3|] eqn:E3;
      [|discriminate].
    cbn in H1. injection H1 as <-.
    cbn [length seq map]. rewrite <- seq_shift, map_map.
    unfold gather in *. cbn [mapM map].
    assert (Hx : buf !! (o + k * s)%nat = Some (nth (4 * 0 + k) ([x0; x1; x2; x3] ++ d2) 0%R)).
    { destruct k as [|[|[|[|k]]]]; cbn; try lia; assumption. }
    rewrite Hx. cbn [mbind option_bind].
    erewrite (map_ext (fun x => nth (4 * S x + k) _ _)).
    + rewrite IH. reflexivity.
    + intros i. replace (4 * S i + k)%nat with (4 + (4 * i + k))%nat by lia.
      reflexivity.
Qed.

Lemma fmap_snoc_inv {A B} (f : A -> B) (l : list A) (bs : list B) (y : B) :
  f <$> l = bs ++ [y] ->
  exists l' x, l = l' ++ [x] /\ f <$> l' = bs /\ f x = y.
Proof.
  intros H. apply fmap_app_inv in H as (l' & lx & H1 & H2 & ->).
  destruct lx as [|x [|? ?]]; try discriminate. injection H2 as H2.
  exists l', x. auto.
Qed.

Lemma read_component (qv : ndarray) (M0 M1 : memory) (bs : list nat)
    (qd : list R) (k : nat) :
  value_of (Nd qv) M0 = Some (Arr (bs ++ [4%nat]) qd) ->
  bufs M1 !! base qv = bufs M0 !! base qv ->
  (k < 4)%nat ->
  exists x, index_last qv k = inr x
    /\ evals (read x) M1 bs (fun i => nth (4 * i + k) qd 0%R).
Proof.
  intros Hq Hb Hk. apply value_of_Nd_inv in Hq as (buf & Hbuf & Hg & Hs).
  cbn [ashape adata] in Hg, Hs.
  apply fmap_snoc_inv in Hs as (ds & [d s] & Hd & Hbs & Hd4).
  cbn in Hd4. subst d.
  eexists. split; [apply (index_last_snoc qv ds 4 s k Hd Hk)|].
  unfold evals, read, load. cbn [base dims offset shape].
  rewrite Hb, Hbuf. rewrite Hd, offsets_app in Hg.
  rewrite offsets_shift, (gather_component buf s k _ qd Hg Hk).
  rewrite length_offsets. unfold shape. cbn [dims]. rewrite Hbs. reflexivity.
Qed.

Lemma fst_zip_cstrides bs K :
  fst <$> zip bs (map (Nat.mul K) (cstrides bs)) = bs.
Proof.
  apply fst_zip. rewrite length_map, length_cstrides. reflexivity.
Qed.

Lemma out_dims bs :
  zip (bs ++ [4; 4]%nat) (cstrides (bs ++ [4; 4]%nat))
  = zip bs (map (Nat.mul 16) (cstrides bs)) ++ [(4, 4); (4, 1)]%nat.
Proof. apply (dims_split bs [4; 4]%nat). Qed.

(** [out[..., r, c] = e] on the freshly allocated result. *)
Lemma assign_entry bs d (r c : nat) e f (blk : nat -> list R) pre J :
  (r < 4)%nat -> (c < 4)%nat ->
  (forall i, length (blk i) = 16%nat) ->
  evals e (Memory (pre ++ [flat_map blk (seq 0 (np_prod bs))] ++ []) J) bs f ->
  assign (index_last2 (NdArray (length pre) 0
                         (zip (bs ++ [4; 4]%nat) (cstrides (bs ++ [4; 4]%nat))) d)
                      r c) e
         (Memory (pre ++ [flat_map blk (seq 0 (np_prod bs))] ++ []) J)
  = inr (tt, Memory (pre ++ [flat_map (fun i => <[(4 * r + c)%nat := f i]> (blk i))
                                      (seq 0 (np_prod bs))] ++ []) J).
Proof.
  intros Hr Hc Hk He.
  pose (v := NdArray (length pre) (0 + c * 1 + r * 4)
                     (zip bs (map (Nat.mul 16) (cstrides bs))) d).
  assert (Hsh : shape v = bs) by apply fst_zip_cstrides.
  pose proof (assign_column (index_last2 (NdArray (length pre) 0
                (zip (bs ++ [4; 4]%nat) (cstrides (bs ++ [4; 4]%nat))) d) r c)
              v e f 16 (4 * r + c) blk pre [] J) as H.
  rewrite Hsh in H. apply H; auto.
  - apply index_last2_snoc with (d1 := 4%nat) (d2 := 4%nat); auto.
    apply out_dims.
  - cbn [dims offset v]. rewrite offsets_contig.
    apply map_ext. intros i. lia.
  - lia.
Qed.

Lemma flat_map_map' {A B C} (f : B -> list C) (g : A -> B) l :
  flat_map f (map g l) = flat_map (fun x => f (g x)) l.
Proof. induction l as [|x l IH]; cbn; [reflexivity|]. rewrite IH. reflexivity. Qed.

Lemma shape_contig sh : fst <$> zip sh (cstrides sh) = sh.
Proof. apply fst_zip. rewrite length_cstrides. reflexivity. Qed.

Lemma np_empty_matrices bs d pre J :
  np_empty (bs ++ [4; 4]%nat) d (Memory pre J)
  = inr (NdArray (length pre) 0
           (zip (bs ++ [4; 4]%nat) (cstrides (bs ++ [4; 4]%nat)))
           (default float64 d),
         Memory (pre ++ [flat_map (fun i => map (fun j => J (length pre) (i * 16 + j)%nat)
                                               (seq 0 16))
                                  (seq 0 (np_prod bs))] ++ []) J).
Proof.
  unfold np_empty, alloc. cbn [bufs junk app].
  rewrite np_prod_app. change (np_prod [4; 4]%nat) with 16%nat.
  rewrite <- seq_blocks0. reflexivity.
Qed.

Lemma removelast2 {A} (l : list A) x y : removelast (removelast (l ++ [x; y])) = l.
Proof.
  change (l ++ [x; y]) with (l ++ [x] ++ [y]).
  rewrite app_assoc, !removelast_last. reflexivity.
Qed.

Lemma out_offsets bs :
  offsets (zip (bs ++ [4; 4]%nat) (cstrides (bs ++ [4; 4]%nat))) 0
  = flat_map (fun i => map (fun j => i * 16 + j)%nat (seq 0 16))
             (seq 0 (np_prod bs)).
Proof.
  rewrite out_dims, offsets_app, offsets_contig, flat_map_map'.
  apply flat_map_ext. intros i. cbn. repeat (f_equal; try lia).
Qed.

Lemma diagonal_offsets n :
  offsets (zip [n; 4%nat] [16; 5]%nat) 0
  = flat_map (fun i => map (fun j => i * 16 + j)%nat [0; 5; 10; 15]%nat)
             (seq 0 n).
Proof.
  cbn [zip zip_with offsets]. apply flat_map_ext. intros i. cbn.
  repeat (f_equal; try lia).
Qed.

Lemma bind_lift_inr {A B} (x : A) (k : A -> M B) m :
  bind (lift (inr x)) k m = k x m.
Proof. reflexivity. Qed.

#[export] Hint Extern 1 (evals (val _) _ _ _) => apply evals_val : evals.

Ltac eval_step :=
  match goal with
  | |- bind ?e _ ?m = _ =>
      let H := fresh in
      eassert (H : evals e m _ _) by eauto with evals;
      rewrite (bind_evals _ _ _ _ _ H); clear H; cbv beta
  end.

Ltac entry_step :=
  match goal with
  | |- bind (assign (index_last2 _ ?r ?c) ?e) _
            (Memory (?pre ++ [flat_map ?blk _] ++ []) ?J) = _ =>
      let H := fresh in
      let L := fresh in
      eassert (H : evals e (Memory (pre ++ [flat_map blk _] ++ []) J) _ _)
        by eauto with evals;
      assert (L : forall i, length (blk i) = 16%nat)
        by (intros; rewrite ?length_insert; auto);
      rewrite (bind_inr _ _ _ _ _
                 (assign_entry _ _ r c e _ blk pre J ltac:(lia) ltac:(lia) L H));
      clear H L; cbv beta
  end.

Ltac step H := rewrite (bind_inr _ _ _ _ _ H); cbv beta zeta.

Lemma to_matrix_fresh (qv : ndarray) (pre : list (list R)) J bs qd d :
  value_of (Nd qv) (Memory pre J) = Some (Arr (bs ++ [4%nat]) qd) ->
  exists out L,
    quaternion_to_matrix (Nd qv) None d (Memory pre J)
    = inr (out, Memory (pre ++ L) J)
    /\ value_of (Nd out) (Memory (pre ++ L) J) = Some (matrices bs qd)
    /\ dt out = default float64 d.
Proof.
  intros Hq.
  assert (Hsh : shape qv = bs ++ [4%nat]).
  { apply value_of_Nd_inv in Hq as (buf & _ & _ & Hs). exact Hs. }
  assert (Hlk : forall X, (pre ++ [X] ++ []) !! base qv = pre !! base qv).
  { intros X. apply value_of_Nd_inv in Hq as (buf & Hb & _). cbn [bufs] in Hb.
    rewrite Hb. apply lookup_app_l_Some. exact Hb. }
  assert (Hcomp : forall k, (k < 4)%nat -> exists x, index_last qv k = inr x
            /\ forall X, evals (read x) (Memory (pre ++ [X] ++ []) J) bs
                               (fun i => nth (4 * i + k) qd 0)).
  { intros k Hk.
    destruct (read_component qv _ (Memory pre J) bs qd k Hq eq_refl Hk)
      as (x & Hx & _).
    exists x. split; [exact Hx|]. intros X.
    destruct (read_component qv (Memory pre J) (Memory (pre ++ [X] ++ []) J)
                bs qd k Hq (Hlk X) Hk) as (x' & Hx' & He).
    congruence. }
  destruct (Hcomp 0%nat ltac:(lia)) as (x & Hx & Ex).
  destruct (Hcomp 1%nat ltac:(lia)) as (y & Hy & Ey).
  destruct (Hcomp 2%nat ltac:(lia)) as (z & Hz & Ez).
  destruct (Hcomp 3%nat ltac:(lia)) as (w & Hw & Ew).
  clear Hcomp.
  unfold quaternion_to_matrix, np_asarray.
  step (eq_refl : ret qv (Memory pre J) = inr (qv, Memory pre J)).
  rewrite Hsh, removelast_last.
  step (np_empty_matrices bs d pre J).
  rewrite removelast2.
  set (out := NdArray (length pre) 0 _ _).
  set (b0 := fun i : nat => map _ (seq 0 16)).
  assert (F0 := assign_fill out 0 16 (np_prod bs) (seq 0 16) b0 pre [] J).
  rewrite bind_inr with (1 := F0 eq_refl ltac:(unfold out; cbn [dims]; rewrite out_dims; intros E; apply app_eq_nil in E as [_ E]; discriminate) (out_offsets bs)
     ltac:(unfold shape, out; cbn [dims]; rewrite shape_contig, np_prod_app; reflexivity)
     ltac:(intros i; reflexivity)
     ltac:(apply Forall_forall; intros j Hj; apply elem_of_seq in Hj; lia)).
  clear F0. cbv beta.
  set (b1 := fun i : nat => upd (seq 0 16) _ (b0 i)).
  assert (F1 := assign_fill (as_strided out [np_prod bs; 4%nat] [16; 5]%nat)
                  1 16 (np_prod bs) [0; 5; 10; 15]%nat b1 pre [] J).
  rewrite bind_inr with (1 := F1 eq_refl ltac:(discriminate)
     (diagonal_offsets (np_prod bs))
     ltac:(cbn; lia)
     ltac:(intros i; unfold b1; rewrite length_upd; reflexivity)
     ltac:(repeat constructor; lia)).
  clear F1. cbv beta.
  set (b2 := fun i : nat => upd _ _ (b1 i)).
  rewrite Hx, Hy, Hz, Hw.
  rewrite !bind_lift_inr.
  assert (L2 : forall i, length (b2 i) = 16%nat).
  { intros i. unfold b2, b1. rewrite !length_upd. reflexivity. }
  eexists _, _. split.
  - do 12 eval_step.
    unfold out.
    do 9 entry_step.
    reflexivity.
  - split; [|reflexivity].
    unfold value_of, read, load, out. cbn [bufs base dims offset].
    rewrite lookup_mid, offsets_cstrides.
    match goal with |- context [gather ?b _] =>
      replace (np_prod (bs ++ [4; 4]%nat)) with (length b)
    end.
    2: { rewrite (length_blocks _ 16) by (intros; rewrite ?length_insert; auto).
         rewrite np_prod_app. reflexivity. }
    rewrite gather_all. unfold shape. cbn [dims]. rewrite shape_contig.
    unfold matrices. do 2 f_equal. apply flat_map_ext. intros i.
    unfold b2, b1, b0, upd, rotation_matrix, component.
    generalize (nth (4 * i + 0) qd 0) (nth (4 * i + 1) qd 0)
               (nth (4 * i + 2) qd 0) (nth (4 * i + 3) qd 0).
    intros x0 y0 z0 w0. cbn.
    repeat match goal with
           | |- ?a :: _ = ?b :: _ =>
               replace a with b; [apply (f_equal (cons b))|ring]
           end.
    reflexivity.
Qed.

(** ** Arguments as arrays *)

Lemma lookup_default_seq (l : list R) :
  (fun i => default 0 (l !! i)) <$> seq 0 (length l) = l.
Proof.
  induction l as [|x l IH] using rev_ind; [reflexivity|].
  rewrite length_app. cbn [length]. rewrite Nat.add_1_r, seq_S, fmap_app.
  cbn [fmap list_fmap plus]. rewrite lookup_app_r, Nat.sub_diag by lia.
  cbn. f_equal. rewrite <- IH at 2. apply map_ext_in. intros i Hi.
  apply in_seq in Hi. rewrite lookup_app_l by lia. reflexivity.
Qed.

Lemma read_contig (pre L : list (list R)) J sh l d :
  length l = np_prod sh ->
  read (NdArray (length pre) 0 (zip sh (cstrides sh)) d)
       (Memory (pre ++ [l] ++ L) J)
  = inr (Arr sh l, Memory (pre ++ [l] ++ L) J).
Proof.
  intros Hl. unfold read, load. cbn [bufs base dims offset].
  rewrite lookup_mid, offsets_cstrides, <- Hl, gather_all.
  unfold shape. cbn [dims]. rewrite shape_contig. reflexivity.
Qed.

Lemma np_array_value (a : arr) (pre : list (list R)) J :
  length (adata a) = np_prod (ashape a) ->
  exists v,
    np_array a (Memory pre J) = inr (v, Memory (pre ++ [adata a]) J)
    /\ value_of (Nd v) (Memory (pre ++ [adata a]) J) = Some a
    /\ dt v = float64.
Proof.
  intros Hl. eexists. split; [|split].
  - unfold np_array, alloc. cbn [bufs junk]. rewrite <- Hl, lookup_default_seq.
    reflexivity.
  - unfold value_of. change (pre ++ [adata a]) with (pre ++ [adata a] ++ []).
    rewrite read_contig by auto. destruct a; reflexivity.
  - reflexivity.
Qed.

Lemma value_of_Seq_inv (a a' : arr) m :
  value_of (Seq a) m = Some a' ->
  a' = a /\ length (adata a) = np_prod (ashape a).
Proof.
  cbn. destruct (Nat.eqb _ _) eqn:E; [|discriminate].
  intros [= <-]. apply Nat.eqb_eq in E. auto.
Qed.

(** [np.asarray] gives an array that stands for the same value; only fresh
    buffers are added to the memory. *)
Lemma np_asarray_value (x : array_like) (pre : list (list R)) J (a : arr) :
  value_of x (Memory pre J) = Some a ->
  exists v L,
    np_asarray x (Memory pre J) = inr (v, Memory (pre ++ L) J)
    /\ value_of (Nd v) (Memory (pre ++ L) J) = Some a.
Proof.
  intros Hx. destruct x as [r|s|v].
  - injection Hx as <-.
    destruct (np_array_value (scalar r) pre J eq_refl) as (v & Hv & Ha & _).
    exists v, [adata (scalar r)]. auto.
  - apply value_of_Seq_inv in Hx as [-> Hl].
    destruct (np_array_value s pre J Hl) as (v & Hv & Ha & _).
    exists v, [adata s]. auto.
  - exists v, []. rewrite app_nil_r. auto.
Qed.

Lemma value_of_length (x : array_like) (m : memory) (a : arr) :
  value_of x m = Some a -> length (adata a) = np_prod (ashape a).
Proof.
  destruct x as [r|s|v]; intros H.
  - injection H as <-. reflexivity.
  - apply value_of_Seq_inv in H as [-> Hl]. exact Hl.
  - apply value_of_Nd_inv in H as (buf & _ & Hg & Hs).
    apply length_mapM in Hg. rewrite <- Hg, <- Hs. apply length_offsets.
Qed.

Lemma value_of_read (v : ndarray) (m : memory) (a : arr) :
  value_of (Nd v) m = Some a -> read v m = inr (a, m).
Proof.
  unfold value_of, read. destruct (load _ _ _); [|discriminate].
  intros [= <-]. reflexivity.
Qed.

(** [np.asarray(x, dtype=float)] likewise, and the array is float64. *)
Lemma np_asarray_float_value (x : array_like) (pre : list (list R)) J
    (a : arr) :
  value_of x (Memory pre J) = Some a ->
  exists v L,
    np_asarray_float x (Memory pre J) = inr (v, Memory (pre ++ L) J)
    /\ value_of (Nd v) (Memory (pre ++ L) J) = Some a
    /\ dt v = float64.
Proof.
  intros Hx. pose proof (value_of_length _ _ _ Hx) as Hl.
  destruct x as [r|s|v].
  - injection Hx as <-.
    destruct (np_array_value (scalar r) pre J eq_refl) as (v & Hv & Ha & Hd).
    exists v, [adata (scalar r)]. auto.
  - apply value_of_Seq_inv in Hx as [-> _].
    destruct (np_array_value s pre J Hl) as (v & Hv & Ha & Hd).
    exists v, [adata s]. auto.
  - unfold np_asarray_float. destruct (dt v) eqn:E.
    + destruct (np_array_value a pre J Hl) as (v' & Hv & Ha & Hd).
      exists v', [adata a]. rewrite (bind_inr _ _ _ _ _ (value_of_read _ _ _ Hx)).
      auto.
    + exists v, []. rewrite app_nil_r. auto.
Qed.

Lemma value_of_extend (x : array_like) (pre L : list (list R)) J (a : arr) :
  value_of x (Memory pre J) = Some a ->
  value_of x (Memory (pre ++ L) J) = Some a.
Proof.
  destruct x as [r|s|v]; cbn; auto.
  unfold read, load. cbn. intros H.
  destruct (pre !! base v) as [buf|] eqn:E; [|discriminate].
  rewrite (lookup_app_l_Some _ _ _ _ E).
  destruct (gather buf _); [exact H|discriminate].
Qed.

(** X1.  For a batch of quaternions of any shape [bs ++ [4]],
    [quaternion_to_matrix] returns a fresh array of shape [bs ++ [4; 4]]
    that holds, for every quaternion of the batch, its rotation matrix
    completed by the row and the column [(0, 0, 0, 1)]; the argument is left
    as it was. *)
Theorem quaternion_to_matrix_batch (m : memory) (q : array_like)
    (dtype : option dtype) (bs : list nat) (qd : list R) :
  value_of q m = Some (Arr (bs ++ [4%nat]) qd) ->
  exists out m',
    quaternion_to_matrix q None dtype m = inr (out, m')
    /\ value_of (Nd out) m' = Some (matrices bs qd)
    /\ value_of q m' = Some (Arr (bs ++ [4%nat]) qd).
Proof.
  intros Hq. destruct m as [pre J].
  destruct (np_asarray_value q pre J _ Hq) as (v & L & Hv & Ha).
  destruct (to_matrix_fresh v (pre ++ L) J bs qd dtype Ha)
    as (out & L' & Hrun & Hout & _).
  exists out, (Memory ((pre ++ L) ++ L') J). split; [|split].
  - rewrite <- Hrun. unfold quaternion_to_matrix at 1.
    rewrite (bind_inr _ _ _ _ _ Hv). reflexivity.
  - exact Hout.
  - rewrite <- app_assoc. apply value_of_extend. exact Hq.
Qed.

Lemma quaternion_to_matrix_batch_witness :
  let m := Memory [] (fun _ _ => 0) in
  let q := Seq (Arr [2; 4]%nat [0; 0; 0; 1; 1; 0; 0; 0]) in
  value_of q m = Some (Arr ([2%nat] ++ [4%nat]) [0; 0; 0; 1; 1; 0; 0; 0])
  /\ exists out m',
       quaternion_to_matrix q None None m = inr (out, m')
       /\ value_of (Nd out) m'
          = Some (matrices [2%nat] [0; 0; 0; 1; 1; 0; 0; 0])
       /\ value_of q m'
          = Some (Arr ([2%nat] ++ [4%nat]) [0; 0; 0; 1; 1; 0; 0; 0]).
Proof.
  split; [reflexivity|].
  apply (quaternion_to_matrix_batch
           (Memory [] (fun _ _ => 0))
           (Seq (Arr [2; 4]%nat [0; 0; 0; 1; 1; 0; 0; 0])) None
           [2%nat] [0; 0; 0; 1; 1; 0; 0; 0]).
  reflexivity.
Defined.

(** ** Quaternion algebra *)

(** Equality of two arrays of the same shape, element by element. *)
Ltac arr_eq tac :=
  apply (f_equal Some); apply (f_equal (Arr _));
  repeat match goal with
         | |- ?x :: _ = ?y :: _ =>
             replace x with y; [apply (f_equal (cons y))|tac]
         end;
  reflexivity.

Ltac arr_ring := arr_eq ltac:(ring).
Ltac arr_field := arr_eq ltac:(field).

Lemma multiply_fresh (pre : list (list R)) J (a b : array_like)
    (d : option dtype) (ax ay az aw bx by_ bz bw : R) :
  value_of a (Memory pre J) = Some (Arr [4%nat] [ax; ay; az; aw]) ->
  value_of b (Memory pre J) = Some (Arr [4%nat] [bx; by_; bz; bw]) ->
  exists r L,
    quaternion_multiply a b None d (Memory pre J)
    = inr (r, Memory (pre ++ L) J)
    /\ value_of (Nd r) (Memory (pre ++ L) J)
       = Some (Arr [4%nat] (hamilton [ax; ay; az; aw] [bx; by_; bz; bw])).
Proof.
  intros Ha Hb.
  destruct a, b; inv_value Ha; inv_value Hb.
  all: eexists _, _;
    (split; [rewrite <- (app_nil_r pre) at 1;
             unfold quaternion_multiply; exec; reflexivity|]).
  all: exec; cbn; arr_ring.
Qed.

Lemma inverse_fresh (pre : list (list R)) J (q : array_like)
    (d : option dtype) (x y z w : R) :
  value_of q (Memory pre J) = Some (Arr [4%nat] [x; y; z; w]) ->
  exists r L,
    quaternion_inverse q None d (Memory pre J) = inr (r, Memory (pre ++ L) J)
    /\ value_of (Nd r) (Memory (pre ++ L) J)
       = Some (Arr [4%nat] (conjugate [x; y; z; w])).
Proof.
  intros Hq. destruct q; inv_value Hq.
  all: eexists _, _;
    (split; [rewrite <- (app_nil_r pre) at 1;
             unfold quaternion_inverse; exec; reflexivity|]).
  all: exec; cbn; arr_ring.
Qed.

(** Running two calls one after the other. *)
Lemma bind_run {A B} (c : M A) (k : A -> M B) m x m' r :
  c m = inr (x, m') -> k x m' = r -> bind c k m = r.
Proof. intros H <-. apply bind_inr. exact H. Qed.

(** X2.  [quaternion_multiply(a, b)] returns a fresh array holding the Hamilton
    product of [a] and [b], and leaves both arguments as they were. *)
Theorem quaternion_multiply_hamilton (m : memory) (a b : array_like)
    (dtype : option dtype) (ax ay az aw bx by_ bz bw : R) :
  value_of a m = Some (Arr [4%nat] [ax; ay; az; aw]) ->
  value_of b m = Some (Arr [4%nat] [bx; by_; bz; bw]) ->
  exists r m',
    quaternion_multiply a b None dtype m = inr (r, m')
    /\ value_of (Nd r) m'
       = Some (Arr [4%nat] (hamilton [ax; ay; az; aw] [bx; by_; bz; bw]))
    /\ value_of a m' = Some (Arr [4%nat] [ax; ay; az; aw])
    /\ value_of b m' = Some (Arr [4%nat] [bx; by_; bz; bw]).
Proof.
  intros Ha Hb. destruct m as [pre J].
  destruct (multiply_fresh pre J a b dtype _ _ _ _ _ _ _ _ Ha Hb)
    as (r & L & Hrun & Hr).
  exists r, (Memory (pre ++ L) J).
  repeat split; auto using value_of_extend.
Qed.

Lemma quaternion_multiply_hamilton_witness :
  let m := Memory [] (fun _ _ => 0) in
  let i := Seq (Arr [4%nat] [1; 0; 0; 0]) in
  let j := Seq (Arr [4%nat] [0; 1; 0; 0]) in
  value_of i m = Some (Arr [4%nat] [1; 0; 0; 0])
  /\ value_of j m = Some (Arr [4%nat] [0; 1; 0; 0])
  /\ exists r m',
       quaternion_multiply i j None None m = inr (r, m')
       /\ value_of (Nd r) m'
          = Some (Arr [4%nat] (hamilton [1; 0; 0; 0] [0; 1; 0; 0]))
       /\ value_of i m' = Some (Arr [4%nat] [1; 0; 0; 0])
       /\ value_of j m' = Some (Arr [4%nat] [0; 1; 0; 0]).
Proof.
  split; [reflexivity|]. split; [reflexivity|].
  apply (quaternion_multiply_hamilton
           (Memory [] (fun _ _ => 0)) (Seq (Arr [4%nat] [1; 0; 0; 0]))
           (Seq (Arr [4%nat] [0; 1; 0; 0])) None 1 0 0 0 0 1 0 0);
    reflexivity.
Defined.

(** X4.  The product is associative: [(a b) c] and [a (b c)], each computed by
    two calls, are the same quaternion. *)
Theorem quaternion_multiply_assoc (m : memory) (a b c : array_like)
    (dtype : option dtype) (ax ay az aw bx by_ bz bw cx cy cz cw : R) :
  value_of a m = Some (Arr [4%nat] [ax; ay; az; aw]) ->
  value_of b m = Some (Arr [4%nat] [bx; by_; bz; bw]) ->
  value_of c m = Some (Arr [4%nat] [cx; cy; cz; cw]) ->
  exists r1 m1 r2 m2 v,
    (ab ← quaternion_multiply a b None dtype;
     quaternion_multiply (Nd ab) c None dtype) m = inr (r1, m1)
    /\ (bc ← quaternion_multiply b c None dtype;
        quaternion_multiply a (Nd bc) None dtype) m = inr (r2, m2)
    /\ value_of (Nd r1) m1 = Some (Arr [4%nat] v)
    /\ value_of (Nd r2) m2 = Some (Arr [4%nat] v).
Proof.
  intros Ha Hb Hc. destruct m as [pre J].
  destruct (multiply_fresh pre J a b dtype _ _ _ _ _ _ _ _ Ha Hb)
    as (ab & L1 & Hab & Vab).
  destruct (multiply_fresh (pre ++ L1) J (Nd ab) c dtype _ _ _ _ _ _ _ _ Vab
              (value_of_extend _ _ _ _ _ Hc)) as (r1 & L1' & Hr1 & V1).
  destruct (multiply_fresh pre J b c dtype _ _ _ _ _ _ _ _ Hb Hc)
    as (bc & L2 & Hbc & Vbc).
  destruct (multiply_fresh (pre ++ L2) J a (Nd bc) dtype _ _ _ _ _ _ _ _
              (value_of_extend _ _ _ _ _ Ha) Vbc) as (r2 & L2' & Hr2 & V2).
  eexists r1, _, r2, _, _. split; [|split; [|split]].
  - eapply bind_run; eauto.
  - eapply bind_run; eauto.
  - exact V1.
  - rewrite V2. cbn. arr_ring.
Qed.

Lemma quaternion_multiply_assoc_witness :
  let m := Memory [] (fun _ _ => 0) in
  let i := Seq (Arr [4%nat] [1; 0; 0; 0]) in
  let j := Seq (Arr [4%nat] [0; 1; 0; 0]) in
  let k := Seq (Arr [4%nat] [0; 0; 1; 0]) in
  value_of i m = Some (Arr [4%nat] [1; 0; 0; 0])
  /\ value_of j m = Some (Arr [4%nat] [0; 1; 0; 0])
  /\ value_of k m = Some (Arr [4%nat] [0; 0; 1; 0])
  /\ exists r1 m1 r2 m2 v,
       (ab ← quaternion_multiply i j None None;
        quaternion_multiply (Nd ab) k None None) m = inr (r1, m1)
       /\ (bc ← quaternion_multiply j k None None;
           quaternion_multiply i (Nd bc) None None) m = inr (r2, m2)
       /\ value_of (Nd r1) m1 = Some (Arr [4%nat] v)
       /\ value_of (Nd r2) m2 = Some (Arr [4%nat] v).
Proof.
  split; [reflexivity|]. split; [reflexivity|]. split; [reflexivity|].
  apply (quaternion_multiply_assoc
           (Memory [] (fun _ _ => 0)) (Seq (Arr [4%nat] [1; 0; 0; 0]))
           (Seq (Arr [4%nat] [0; 1; 0; 0])) (Seq (Arr [4%nat] [0; 0; 1; 0]))
           None 1 0 0 0 0 1 0 0 0 0 1 0);
    reflexivity.
Defined.

(** Four elements stored at the offsets of a vector of stride [s <> 0] are
    read back as they were stored. *)
Lemma gather_insert4 (buf : list R) (o s : nat) (x y z w : R) :
  (o + (s + (s + (s + 0))) < length buf)%nat -> s <> 0%nat ->
  gather (<[(o + (s + (s + (s + 0))))%nat := w]>
            (<[(o + (s + (s + 0)))%nat := z]>
               (<[(o + (s + 0))%nat := y]> (<[(o + 0)%nat := x]> buf))))
         [(o + 0)%nat; (o + (s + 0))%nat; (o + (s + (s + 0)))%nat;
          (o + (s + (s + (s + 0))))%nat]
  = Some [x; y; z; w].
Proof.
  intros Hl Hs.
  set (buf' := <[(o + (s + (s + (s + 0))))%nat := w]> _).
  assert (F0 : buf' !! (o + 0)%nat = Some x).
  { unfold buf'. do 3 rewrite list_lookup_insert_ne by lia.
    apply list_lookup_insert_eq. lia. }
  assert (F1 : buf' !! (o + (s + 0))%nat = Some y).
  { unfold buf'. do 2 rewrite list_lookup_insert_ne by lia.
    apply list_lookup_insert_eq. rewrite ?length_insert. lia. }
  assert (F2 : buf' !! (o + (s + (s + 0)))%nat = Some z).
  { unfold buf'. rewrite list_lookup_insert_ne by lia.
    apply list_lookup_insert_eq. rewrite ?length_insert. lia. }
  assert (F3 : buf' !! (o + (s + (s + (s + 0))))%nat = Some w).
  { unfold buf'. apply list_lookup_insert_eq. rewrite ?length_insert. lia. }
  unfold gather. cbn [mapM]. rewrite F0, F1, F2, F3. reflexivity.
Qed.

Lemma insert_insert_old {A} (pre L : list A) (b : nat) (x y z : A) :
  pre !! b = Some z ->
  <[b := y]> (<[b := x]> pre ++ L) = <[b := y]> pre ++ L.
Proof.
  intros H. apply lookup_lt_Some in H.
  rewrite insert_app_l by (rewrite length_insert; exact H).
  rewrite list_insert_insert_eq. reflexivity.
Qed.

(** Symbolic execution of code that stores more than once into a buffer of
    the caller. *)
Ltac exec_out_step :=
  first
  [ exec_step
  | match goal with
    | H : ?pre !! ?b = Some _ |- context [<[?b := _]> (<[?b := _]> ?pre ++ _)] =>
        rewrite (insert_insert_old pre _ b _ _ _ H)
    end ].

Ltac exec_out := repeat exec_out_step.

Lemma value_of_insert4 (pre L : list (list R)) J (bo oo s : nat) (dto : dtype)
    (buf : list R) (x y z w r : R) :
  pre !! bo = Some buf ->
  buf !! (oo + (s + (s + (s + 0))))%nat = Some r -> s <> 0%nat ->
  value_of (Nd (NdArray bo oo [(4%nat, s)] dto))
    (Memory (<[bo := <[(oo + (s + (s + (s + 0))))%nat := w]>
                       (<[(oo + (s + (s + 0)))%nat := z]>
                          (<[(oo + (s + 0))%nat := y]>
                             (<[(oo + 0)%nat := x]> buf)))]> pre ++ L) J)
  = Some (Arr [4%nat] [x; y; z; w]).
Proof.
  intros Hb Hr Hs. apply lookup_lt_Some in Hr.
  unfold value_of, read, load. cbn [bufs base dims offset].
  rewrite (lookup_insert_old pre L bo _ _ Hb).
  cbn [offsets seq flat_map app Nat.mul].
  rewrite gather_insert4 by assumption. reflexivity.
Qed.

Lemma multiply_out (pre : list (list R)) J (a b : array_like)
    (bo oo s : nat) (dto : dtype) (d : option dtype)
    (ax ay az aw bx by_ bz bw : R) (vo : list R) :
  value_of a (Memory pre J) = Some (Arr [4%nat] [ax; ay; az; aw]) ->
  value_of b (Memory pre J) = Some (Arr [4%nat] [bx; by_; bz; bw]) ->
  value_of (Nd (NdArray bo oo [(4%nat, s)] dto)) (Memory pre J)
  = Some (Arr [4%nat] vo) ->
  s <> 0%nat ->
  exists buf' L,
    quaternion_multiply a b (Some (NdArray bo oo [(4%nat, s)] dto)) d
      (Memory pre J)
    = inr (NdArray bo oo [(4%nat, s)] dto, Memory (<[bo := buf']> pre ++ L) J)
    /\ value_of (Nd (NdArray bo oo [(4%nat, s)] dto))
                (Memory (<[bo := buf']> pre ++ L) J)
       = Some (Arr [4%nat] (hamilton [ax; ay; az; aw] [bx; by_; bz; bw])).
Proof.
  intros Ha Hb Ho Hs.
  inv_value Ho.
  destruct a, b; inv_value Ha; inv_value Hb.
  all: eexists _, _;
    (split; [rewrite <- (app_nil_r pre) at 1;
             unfold quaternion_multiply; exec_out; reflexivity|]).
  all: erewrite value_of_insert4 by eassumption.
  all: cbn; arr_ring.
Qed.



(** X5.  The identity quaternion [(0, 0, 0, 1)] is neutral on both sides. *)
Theorem quaternion_multiply_identity (m : memory) (q : array_like)
    (dtype : option dtype) (x y z w : R) :
  value_of q m = Some (Arr [4%nat] [x; y; z; w]) ->
  let e := Seq (Arr [4%nat] [0; 0; 0; 1]) in
  (exists r m',
     quaternion_multiply q e None dtype m = inr (r, m')
     /\ value_of (Nd r) m' = Some (Arr [4%nat] [x; y; z; w]))
  /\ (exists r m',
        quaternion_multiply e q None dtype m = inr (r, m')
        /\ value_of (Nd r) m' = Some (Arr [4%nat] [x; y; z; w])).
Proof.
  intros Hq e. destruct m as [pre J]. split.
  - destruct (multiply_fresh pre J q e dtype _ _ _ _ _ _ _ _ Hq eq_refl)
      as (r & L & Hrun & Hr).
    eexists _, _. split; [exact Hrun|]. rewrite Hr. cbn. arr_ring.
  - destruct (multiply_fresh pre J e q dtype _ _ _ _ _ _ _ _ eq_refl Hq)
      as (r & L & Hrun & Hr).
    eexists _, _. split; [exact Hrun|]. rewrite Hr. cbn. arr_ring.
Qed.

Lemma quaternion_multiply_identity_witness :
  let m := Memory [] (fun _ _ => 0) in
  let q := Seq (Arr [4%nat] [1; 2; 3; 4]) in
  let e := Seq (Arr [4%nat] [0; 0; 0; 1]) in
  value_of q m = Some (Arr [4%nat] [1; 2; 3; 4])
  /\ (exists r m',
        quaternion_multiply q e None None m = inr (r, m')
        /\ value_of (Nd r) m' = Some (Arr [4%nat] [1; 2; 3; 4]))
  /\ (exists r m',
        quaternion_multiply e q None None m = inr (r, m')
        /\ value_of (Nd r) m' = Some (Arr [4%nat] [1; 2; 3; 4])).
Proof.
  split; [reflexivity|].
  apply (quaternion_multiply_identity
           (Memory [] (fun _ _ => 0)) (Seq (Arr [4%nat] [1; 2; 3; 4])) None
           1 2 3 4).
  reflexivity.
Defined.

(** X6.  [quaternion_inverse] conjugates: applied twice it gives the quaternion
    back, and the argument is left as it was. *)
Theorem quaternion_inverse_involution (m : memory) (q : array_like)
    (dtype : option dtype) (x y z w : R) :
  value_of q m = Some (Arr [4%nat] [x; y; z; w]) ->
  exists r m',
    (qi ← quaternion_inverse q None dtype;
     quaternion_inverse (Nd qi) None dtype) m = inr (r, m')
    /\ value_of (Nd r) m' = Some (Arr [4%nat] [x; y; z; w])
    /\ value_of q m' = Some (Arr [4%nat] [x; y; z; w]).
Proof.
  intros Hq. destruct m as [pre J].
  destruct (inverse_fresh pre J q dtype _ _ _ _ Hq) as (qi & L & Hqi & Vqi).
  destruct (inverse_fresh (pre ++ L) J (Nd qi) dtype _ _ _ _ Vqi)
    as (r & L' & Hr & Vr).
  eexists r, _. split; [eapply bind_run; eauto|]. split.
  - rewrite Vr. cbn. arr_ring.
  - rewrite <- app_assoc. apply value_of_extend. exact Hq.
Qed.

Lemma quaternion_inverse_involution_witness :
  let m := Memory [] (fun _ _ => 0) in
  let q := Seq (Arr [4%nat] [1; 2; 3; 4]) in
  value_of q m = Some (Arr [4%nat] [1; 2; 3; 4])
  /\ exists r m',
       (qi ← quaternion_inverse q None None;
        quaternion_inverse (Nd qi) None None) m = inr (r, m')
       /\ value_of (Nd r) m' = Some (Arr [4%nat] [1; 2; 3; 4])
       /\ value_of q m' = Some (Arr [4%nat] [1; 2; 3; 4]).
Proof.
  split; [reflexivity|].
  apply (quaternion_inverse_involution
           (Memory [] (fun _ _ => 0)) (Seq (Arr [4%nat] [1; 2; 3; 4])) None
           1 2 3 4).
  reflexivity.
Defined.



(** X8.  The inverse of a product is the product of the inverses in the
    opposite order. *)
Theorem quaternion_inverse_of_product (m : memory) (a b : array_like)
    (dtype : option dtype) (ax ay az aw bx by_ bz bw : R) :
  value_of a m = Some (Arr [4%nat] [ax; ay; az; aw]) ->
  value_of b m = Some (Arr [4%nat] [bx; by_; bz; bw]) ->
  exists r1 m1 r2 m2 v,
    (ab ← quaternion_multiply a b None dtype;
     quaternion_inverse (Nd ab) None dtype) m = inr (r1, m1)
    /\ (bi ← quaternion_inverse b None dtype;
        ai ← quaternion_inverse a None dtype;
        quaternion_multiply (Nd bi) (Nd ai) None dtype) m = inr (r2, m2)
    /\ value_of (Nd r1) m1 = Some (Arr [4%nat] v)
    /\ value_of (Nd r2) m2 = Some (Arr [4%nat] v).
Proof.
  intros Ha Hb. destruct m as [pre J].
  destruct (multiply_fresh pre J a b dtype _ _ _ _ _ _ _ _ Ha Hb)
    as (ab & L1 & Hab & Vab).
  cbn [hamilton] in Vab.
  destruct (inverse_fresh (pre ++ L1) J (Nd ab) dtype _ _ _ _ Vab)
    as (r1 & L1' & Hr1 & V1).
  destruct (inverse_fresh pre J b dtype _ _ _ _ Hb) as (bi & L2 & Hbi & Vbi).
  destruct (inverse_fresh (pre ++ L2) J a dtype _ _ _ _
              (value_of_extend _ _ _ _ _ Ha)) as (ai & L3 & Hai & Vai).
  cbn [conjugate] in Vbi, Vai.
  destruct (multiply_fresh ((pre ++ L2) ++ L3) J (Nd bi) (Nd ai) dtype
              _ _ _ _ _ _ _ _ (value_of_extend _ _ _ _ _ Vbi) Vai)
    as (r2 & L4 & Hr2 & V2).
  eexists r1, _, r2, _, _. split; [|split; [|split]].
  - eapply bind_run; eauto.
  - eapply bind_run; [eauto|]. eapply bind_run; eauto.
  - exact V1.
  - rewrite V2. cbn. arr_ring.
Qed.

Lemma quaternion_inverse_of_product_witness :
  let m := Memory [] (fun _ _ => 0) in
  let i := Seq (Arr [4%nat] [1; 0; 0; 0]) in
  let j := Seq (Arr [4%nat] [0; 1; 0; 0]) in
  value_of i m = Some (Arr [4%nat] [1; 0; 0; 0])
  /\ value_of j m = Some (Arr [4%nat] [0; 1; 0; 0])
  /\ exists r1 m1 r2 m2 v,
       (ab ← quaternion_multiply i j None None;
        quaternion_inverse (Nd ab) None None) m = inr (r1, m1)
       /\ (bi ← quaternion_inverse j None None;
           ai ← quaternion_inverse i None None;
           quaternion_multiply (Nd bi) (Nd ai) None None) m = inr (r2, m2)
       /\ value_of (Nd r1) m1 = Some (Arr [4%nat] v)
       /\ value_of (Nd r2) m2 = Some (Arr [4%nat] v).
Proof.
  split; [reflexivity|]. split; [reflexivity|].
  apply (quaternion_inverse_of_product
           (Memory [] (fun _ _ => 0)) (Seq (Arr [4%nat] [1; 0; 0; 0]))
           (Seq (Arr [4%nat] [0; 1; 0; 0])) None 1 0 0 0 0 1 0 0);
    reflexivity.
Defined.

(** ** Views of one block of a buffer *)

Lemma lookup_blocks_from {A} (blk : nat -> list A) (k n s i j : nat) :
  (forall i, length (blk i) = k) -> (i < n)%nat -> (j < k)%nat ->
  flat_map blk (seq s n) !! (i * k + j)%nat = blk (s + i)%nat !! j.
Proof.
  intros Hk. revert s i. induction n as [|n IH]; intros s i Hi Hj; [lia|].
  cbn [seq flat_map]. destruct i as [|i].
  - rewrite lookup_app_l by (rewrite Hk; lia).
    rewrite Nat.add_0_r. reflexivity.
  - rewrite lookup_app_r by (rewrite Hk; lia). rewrite Hk.
    replace (S i * k + j - k)%nat with (i * k + j)%nat by lia.
    rewrite IH by lia. f_equal. f_equal. lia.
Qed.

Lemma lookup_blocks {A} (blk : nat -> list A) (k n i j : nat) :
  (forall i, length (blk i) = k) -> (i < n)%nat -> (j < k)%nat ->
  flat_map blk (seq 0 n) !! (i * k + j)%nat = blk i !! j.
Proof. intros. rewrite (lookup_blocks_from blk k n 0 i j); auto. Qed.

Lemma gather_run {A} (buf b : list A) (o : nat) :
  (forall j, (j < length b)%nat -> buf !! (o + j)%nat = b !! j) ->
  gather buf (map (fun j => (o + j)%nat) (seq 0 (length b))) = Some b.
Proof.
  intros H. apply mapM_Some_2. apply Forall2_same_length_lookup_2.
  - rewrite length_map, length_seq. reflexivity.
  - intros i o' y Ho Hy. apply list_lookup_fmap_Some in Ho as (j & -> & Hj).
    apply lookup_seq in Hj as [-> Hj]. cbn [plus]. rewrite H by lia.
    exact Hy.
Qed.

Lemma offsets_vector (k o : nat) :
  offsets [(k, 1%nat)] o = map (fun j => (o + j)%nat) (seq 0 k).
Proof.
  cbn [offsets]. rewrite flat_map_singleton. apply map_ext. intros j. lia.
Qed.

(** Row [i] of a C-contiguous matrix, as a view, holds block [i]. *)
Lemma value_of_row (bufs_ : list (list R)) J (b n k i : nat) (d : dtype)
    (blk : nat -> list R) :
  bufs_ !! b = Some (flat_map blk (seq 0 n)) ->
  (forall i, length (blk i) = k) -> (i < n)%nat ->
  value_of (Nd (NdArray b (0 + i * k) [(k, 1%nat)] d)) (Memory bufs_ J)
  = Some (Arr [k] (blk i)).
Proof.
  intros Hb Hk Hi. unfold value_of, read, load.
  cbn [bufs base dims offset]. rewrite Hb, offsets_vector.
  rewrite <- (Hk i) at 1. rewrite gather_run; [reflexivity|].
  intros j Hj. rewrite Hk in Hj. cbn [plus]. apply lookup_blocks; auto.
Qed.

Lemma nth_seq_map (d : list R) :
  map (fun i => nth i d 0) (seq 0 (length d)) = d.
Proof.
  induction d as [|x d IH] using rev_ind; [reflexivity|].
  rewrite length_app. cbn [length]. rewrite Nat.add_1_r, seq_S, map_app.
  cbn [map plus]. rewrite app_nth2, Nat.sub_diag by lia. cbn [nth].
  f_equal. rewrite <- IH at 2. apply map_ext_in. intros i Hi.
  apply in_seq in Hi. apply app_nth1. lia.
Qed.

(** An array argument, read as an operand. *)
Lemma evals_read (v : ndarray) (m : memory) (sh : list nat) (d : list R) :
  value_of (Nd v) m = Some (Arr sh d) ->
  evals (read v) m sh (fun i => nth i d 0).
Proof.
  intros H. unfold evals. rewrite (value_of_read _ _ _ H).
  apply value_of_length in H. cbn [ashape adata] in H.
  rewrite <- H, nth_seq_map. reflexivity.
Qed.

Lemma assign_column_n (t : exn + ndarray) (v : ndarray) (e : M arr)
    (f : nat -> R) (k c n : nat) (blk : nat -> list R)
    (pre post : list (list R)) J :
  t = inr v ->
  base v = length pre ->
  np_prod (shape v) = n ->
  offsets (dims v) (offset v) = map (fun i => c + i * k)%nat (seq 0 n) ->
  (forall i, length (blk i) = k) ->
  (c < k)%nat ->
  evals e (Memory (pre ++ [flat_map blk (seq 0 n)] ++ post) J) (shape v) f ->
  assign t e (Memory (pre ++ [flat_map blk (seq 0 n)] ++ post) J)
  = inr (tt, Memory (pre ++ [flat_map (fun i => <[c := f i]> (blk i))
                                      (seq 0 n)] ++ post) J).
Proof. intros Ht Hb <-. apply assign_column; assumption. Qed.

Lemma zip_seq_nth (n : nat) (ks : list nat) :
  length ks = n ->
  zip (seq 0 n) ks = map (fun i => (i, nth i ks 0%nat)) (seq 0 n).
Proof.
  revert n. induction ks as [|k ks IH] using rev_ind; intros n Hn.
  - subst n. reflexivity.
  - rewrite length_app in Hn. cbn [length] in Hn. subst n.
    rewrite Nat.add_1_r, seq_S, map_app. cbn [map plus].
    rewrite zip_with_app by (rewrite length_seq; reflexivity).
    rewrite IH by reflexivity. cbn [zip_with].
    rewrite app_nth2, Nat.sub_diag by lia. cbn [nth]. f_equal.
    apply map_ext_in. intros i Hi. apply in_seq in Hi.
    rewrite app_nth1 by lia. reflexivity.
Qed.

Lemma forallb_ltb_seq (n : nat) : forallb (fun i => i <? n)%nat (seq 0 n) = true.
Proof.
  apply forallb_forall. intros i Hi. apply in_seq in Hi.
  apply Nat.ltb_lt. lia.
Qed.

Lemma forallb_ltb (k : nat) (ks : list nat) :
  Forall (fun j => j < k)%nat ks -> forallb (fun j => j <? k)%nat ks = true.
Proof.
  intros H. apply forallb_forall. intros j Hj.
  apply Nat.ltb_lt. rewrite Forall_forall in H. apply H.
  apply list_elem_of_In. exact Hj.
Qed.

(** [quaternions[np.arange(n), ..., order] = s]: row [i] receives [s[i]] at
    the column [order[i]]. *)
Lemma write_fancy_rows (P : list (list R)) J (n : nat) (ks : list nat)
    (blk : nat -> list R) (g : nat -> R) (dq : dtype) :
  length ks = n -> Forall (fun j => j < 4)%nat ks ->
  (forall i, length (blk i) = 4%nat) ->
  write_fancy (NdArray (length P) 0 [(n, 4%nat); (4%nat, 1%nat)] dq)
              (seq 0 n) ks (Arr [n] (map g (seq 0 (np_prod [n]))))
              (Memory (P ++ [flat_map blk (seq 0 n)] ++ []) J)
  = inr (tt, Memory (P ++ [flat_map (fun i => <[nth i ks 0%nat := g i]> (blk i))
                                    (seq 0 n)] ++ []) J).
Proof.
  intros Hn Hks Hblk. unfold write_fancy. cbn [dims rev app].
  rewrite length_seq, Hn, Nat.eqb_refl, forallb_ltb_seq, forallb_ltb by auto.
  cbn [andb fmap list_fmap base offset].
  rewrite setitem_value_same by (rewrite length_map, length_seq; reflexivity).
  msimpl. rewrite zip_seq_nth by auto. rewrite flat_map_map'.
  cbn [offsets]. replace (np_prod [n]) with n by (cbn; lia).
  rewrite <- (flat_map_singleton g).
  erewrite (flat_map_ext (fun i => [(0 + i * 4 + nth i ks 0 * 1)%nat])).
  - apply (poke_blocks 4 (fun i => [nth i ks 0%nat]) (fun i => [g i]) blk).
    intros i Hi. repeat split; auto. constructor; [|constructor].
    rewrite Forall_forall in Hks. apply Hks. apply list_elem_of_In.
    apply nth_In. lia.
  - intros i. cbn [map]. f_equal. lia.
Qed.

(** [out[:] = a] for a contiguous vector [out] of four elements. *)
Lemma write_vector4 (pre post : list (list R)) J (d : dtype) (old b : list R) :
  length old = 4%nat -> length b = 4%nat ->
  write (NdArray (length pre) 0 [(4%nat, 1%nat)] d) (Arr [4%nat] b)
        (Memory (pre ++ [old] ++ post) J)
  = inr (tt, Memory (pre ++ [b] ++ post) J).
Proof.
  intros Ho Hb.
  destruct old as [|o0 [|o1 [|o2 [|o3 [|]]]]]; try discriminate.
  destruct b as [|b0 [|b1 [|b2 [|b3 [|]]]]]; try discriminate.
  unfold write. cbn [shape dims fmap list_fmap fst].
  rewrite setitem_value_same by reflexivity. msimpl.
  unfold poke, store. cbn [bufs junk base dims offset].
  rewrite lookup_mid.
  change (scatter _ _ _) with (Some [b0; b1; b2; b3]).
  cbv beta iota. rewrite insert_mid. reflexivity.
Qed.

Lemma multiply_out_values (pre : list (list R)) J (a b : array_like)
    (out : ndarray) (d : option dtype) (va vb vo : list R) :
  value_of a (Memory pre J) = Some (Arr [4%nat] va) ->
  value_of b (Memory pre J) = Some (Arr [4%nat] vb) ->
  value_of (Nd out) (Memory pre J) = Some (Arr [4%nat] vo) ->
  strides out <> [0%nat] ->
  exists buf' L,
    quaternion_multiply a b (Some out) d (Memory pre J)
    = inr (out, Memory (<[base out := buf']> pre ++ L) J)
    /\ value_of (Nd out) (Memory (<[base out := buf']> pre ++ L) J)
       = Some (Arr [4%nat] (hamilton va vb)).
Proof.
  intros Ha Hb Ho Hs.
  pose proof (value_of_length _ _ _ Ha) as La.
  pose proof (value_of_length _ _ _ Hb) as Lb.
  cbn in La, Lb.
  destruct va as [|ax [|ay [|az [|aw [|]]]]]; try discriminate.
  destruct vb as [|bx [|by_ [|bz [|bw [|]]]]]; try discriminate.
  destruct out as [bo oo ds dto].
  assert (exists s, ds = [(4%nat, s)]) as [s ->].
  { apply value_of_Nd_inv in Ho as (_ & _ & _ & Hsh). cbn in Hsh.
    destruct ds as [|[n s] [|? ?]]; try discriminate.
    injection Hsh as ->. eauto. }
  assert (s <> 0%nat) by (intros ->; apply Hs; reflexivity).
  apply (multiply_out pre J a b bo oo s dto d _ _ _ _ _ _ _ _ vo Ha Hb Ho).
  assumption.
Qed.

Lemma length_hamilton (a b : list R) :
  length a = 4%nat -> length b = 4%nat -> length (hamilton a b) = 4%nat.
Proof.
  intros Ha Hb.
  destruct a as [|ax [|ay [|az [|aw [|]]]]]; try discriminate.
  destruct b as [|bx [|by_ [|bz [|bw [|]]]]]; try discriminate.
  reflexivity.
Qed.

(** The loop of [quaternion_make_from_euler_angles]: the accumulator [out]
    is multiplied in place by the rows of [quaternions]. *)
Lemma euler_loop (out : ndarray) (bq n : nat) (dq : dtype)
    (blk : nat -> list R) (ex : list bool) J :
  base out <> bq -> strides out <> [0%nat] ->
  (forall i, length (blk i) = 4%nat) ->
  forall (idxs : list nat) (B : list (list R)) (acc : list R),
    Forall (fun i => (i < n)%nat /\ (i < length ex)%nat) idxs ->
    B !! bq = Some (flat_map blk (seq 0 n)) ->
    value_of (Nd out) (Memory B J) = Some (Arr [4%nat] acc) ->
    exists B',
      for_ idxs (fun idx =>
        match ex !! idx with
        | None => raise IndexError
        | Some true =>
            q ← lift (index_first
                        (NdArray bq 0 [(n, 4%nat); (4%nat, 1%nat)] dq) idx);
            quaternion_multiply (Nd out) (Nd q) (Some out) None;; ret tt
        | Some false =>
            q ← lift (index_first
                        (NdArray bq 0 [(n, 4%nat); (4%nat, 1%nat)] dq) idx);
            quaternion_multiply (Nd q) (Nd out) (Some out) None;; ret tt
        end) (Memory B J) = inr (tt, Memory B' J)
      /\ B' !! bq = Some (flat_map blk (seq 0 n))
      /\ value_of (Nd out) (Memory B' J)
         = Some (Arr [4%nat]
                   (foldl (fun acc i =>
                             if nth i ex false then hamilton acc (blk i)
                             else hamilton (blk i) acc) acc idxs)).
Proof.
  intros Hne Hs Hblk. induction idxs as [|idx idxs IH]; intros B acc Hi HQ Hacc.
  - exists B. auto.
  - apply Forall_cons in Hi as [[Hin Hie] Hi]. cbn [for_ foldl].
    assert (Hex : ex !! idx = Some (nth idx ex false)).
    { destruct (ex !! idx) as [x|] eqn:E; [|apply lookup_ge_None in E; lia].
      f_equal. symmetry. apply nth_lookup_Some with (d := false) in E.
      exact E. }
    assert (Hq : value_of (Nd (NdArray bq (0 + idx * 4) [(4%nat, 1%nat)] dq))
                          (Memory B J) = Some (Arr [4%nat] (blk idx)))
      by (apply value_of_row with (n := n); auto).
    assert (Hidx : index_first (NdArray bq 0 [(n, 4%nat); (4%nat, 1%nat)] dq) idx
                   = inr (NdArray bq (0 + idx * 4) [(4%nat, 1%nat)] dq)).
    { unfold index_first. cbn [dims base offset dt].
      apply Nat.ltb_lt in Hin. rewrite Hin. reflexivity. }
    rewrite Hex, Hidx.
    destruct (nth idx ex false).
    + destruct (multiply_out_values B J (Nd out) _ out None _ _ acc Hacc Hq Hacc Hs)
        as (buf' & L & Hrun & Hval).
      destruct (IH (<[base out := buf']> B ++ L) (hamilton acc (blk idx)))
        as (B' & Hfor & HQ' & Hout'); auto.
      { apply lookup_app_l_Some. rewrite list_lookup_insert_ne by auto.
        exact HQ. }
      exists B'. split; [|auto].
      unfold bind at 1. rewrite bind_lift_inr.
      rewrite (bind_inr _ _ _ _ _ Hrun). exact Hfor.
    + destruct (multiply_out_values B J _ (Nd out) out None _ _ acc Hq Hacc Hacc Hs)
        as (buf' & L & Hrun & Hval).
      destruct (IH (<[base out := buf']> B ++ L) (hamilton (blk idx) acc))
        as (B' & Hfor & HQ' & Hout'); auto.
      { apply lookup_app_l_Some. rewrite list_lookup_insert_ne by auto.
        exact HQ. }
      exists B'. split; [|auto].
      unfold bind at 1. rewrite bind_lift_inr.
      rewrite (bind_inr _ _ _ _ _ Hrun). exact Hfor.
Qed.

Lemma comprehension_axis (l : list ascii) :
  forallb is_axis l = true ->
  comprehension axis_index l = inr (map axis_of l).
Proof.
  induction l as [|c l IH]; cbn [forallb comprehension map]; [reflexivity|].
  intros H. apply andb_true_iff in H as [Hc Hl].
  unfold is_axis in Hc. unfold axis_of.
  destruct (axis_index c); [discriminate|]. rewrite (IH Hl). reflexivity.
Qed.

Lemma axis_of_lt (c : ascii) : (axis_of c < 3)%nat.
Proof.
  unfold axis_of, axis_index.
  repeat match goal with |- context [if ?b then _ else _] => destruct b end;
    lia.
Qed.

Lemma bind_bind {A B C} (c : M A) (f : A -> M B) (k : B -> M C) m :
  bind (bind c f) k m = bind c (fun x => bind (f x) k) m.
Proof. unfold bind. destruct (c m) as [e|[x m']]; reflexivity. Qed.

Lemma np_zeros_rows (P : list (list R)) J (n : nat) :
  np_zeros [n; 4%nat] (Some float64) (Memory P J)
  = inr (NdArray (length P) 0 [(n, 4%nat); (4%nat, 1%nat)] float64,
         Memory (P ++ [flat_map (fun _ => [0; 0; 0; 0]) (seq 0 n)] ++ []) J).
Proof.
  unfold np_zeros, alloc. cbn [bufs junk default zip zip_with cstrides].
  change (np_prod [4%nat]) with 4%nat. change (np_prod []) with 1%nat.
  replace (np_prod [n; 4%nat]) with (n * 4)%nat by (cbn; lia).
  pose proof (seq_blocks0 (fun _ : nat => 0) 4 n) as E.
  change (map (fun _ : nat => 0) (seq 0 (n * 4)))
    with ((fun _ : nat => 0) <$> seq 0 (n * 4)) in E.
  rewrite E. reflexivity.
Qed.

Lemma foldl_ext_in {A B} (f g : A -> B -> A) (a : A) (l : list B) :
  (forall a x, In x l -> f a x = g a x) -> foldl f a l = foldl g a l.
Proof.
  revert a. induction l as [|x l IH]; intros a H; [reflexivity|].
  cbn [foldl]. rewrite H by (left; reflexivity).
  apply IH. intros a' y Hy. apply H. right. exact Hy.
Qed.

Lemma zip_nth {A B} (l : list A) (k : list B) (a : A) (b : B) :
  length k = length l ->
  zip l k = map (fun i => (nth i l a, nth i k b)) (seq 0 (length l)).
Proof.
  revert k. induction l as [|x l IH]; intros [|y k] Hl; try discriminate;
    [reflexivity|].
  cbn [length zip_with seq map nth]. f_equal.
  rewrite <- seq_shift, map_map. apply IH. cbn in Hl. lia.
Qed.

(** The row that the code builds for a letter and an angle. *)
Lemma elementary_row (c : ascii) (t : R) :
  is_axis c = true ->
  <[axis_of c := sin (t / 2)]> (<[3%nat := cos (t / 2)]> [0; 0; 0; 0])
  = elementary c t.
Proof.
  unfold is_axis, axis_of, elementary.
  destruct (axis_index c); [discriminate|]. reflexivity.
Qed.

Lemma euler_fold_indices (l : list ascii) (ad : list R)
    (blk : nat -> list R) :
  length ad = length l -> (0 < length l)%nat ->
  (forall i, (i < length l)%nat ->
     blk i = elementary (nth i l Ascii.zero) (nth i ad 0)) ->
  foldl (fun acc i =>
           if nth i (map isupper l) false then hamilton acc (blk i)
           else hamilton (blk i) acc) (blk 0%nat) (seq 1 (length l - 1))
  = euler_quaternion l ad.
Proof.
  intros Hl Hn Hblk. unfold euler_quaternion.
  rewrite (zip_nth l ad Ascii.zero 0 Hl).
  destruct (length l) as [|n] eqn:E; [lia|].
  cbn [seq map]. replace (S n - 1)%nat with n by lia.
  change (foldl euler_step ?a (map ?f ?l)) with (foldl euler_step a (f <$> l)).
  rewrite foldl_fmap. rewrite Hblk by lia.
  apply foldl_ext_in. intros acc i Hi. apply in_seq in Hi.
  unfold euler_step. cbn [fst snd].
  change false with (isupper Ascii.zero). rewrite map_nth.
  rewrite Hblk by lia. reflexivity.
Qed.

(** [out[:] = quaternions[0]] *)
Lemma assign_row0 (pre : list (list R)) J (d dq : dtype) (old : list R)
    (n : nat) (blk : nat -> list R) :
  length old = 4%nat -> (forall i, length (blk i) = 4%nat) -> (0 < n)%nat ->
  assign (slice_all (NdArray (length pre) 0 [(4%nat, 1%nat)] d))
         (item (index_first
                  (NdArray (length (pre ++ [old])) 0
                           [(n, 4%nat); (4%nat, 1%nat)] dq) 0))
         (Memory ((pre ++ [old]) ++ [flat_map blk (seq 0 n)] ++ []) J)
  = inr (tt, Memory (pre ++ [blk 0%nat] ++ [flat_map blk (seq 0 n)]) J).
Proof.
  intros Ho Hblk Hn. unfold assign, item, index_first, slice_all.
  cbn [dims base offset dt].
  replace (0 <? n)%nat with true by (symmetry; apply Nat.ltb_lt; lia).
  rewrite bind_bind, bind_lift_inr.
  erewrite bind_inr; cycle 1.
  { apply value_of_read. apply value_of_row with (n := n); auto.
    apply lookup_mid. }
  rewrite bind_lift_inr, <- app_assoc. cbn [app].
  apply (write_vector4 pre [flat_map blk (seq 0 n)] J d old (blk 0%nat));
    auto.
Qed.

Lemma euler_core (av : ndarray) (pre : list (list R)) J (order : string)
    (d : option dtype) (ad : list R) :
  dt av = float64 ->
  value_of (Nd av) (Memory pre J)
  = Some (Arr [length (list_ascii_of_string order)] ad) ->
  (2 <= length (list_ascii_of_string order))%nat ->
  forallb is_axis (list_ascii_of_string order) = true ->
  exists out m',
    quaternion_make_from_euler_angles (Nd av) order None d (Memory pre J)
    = inr (out, m')
    /\ value_of (Nd out) m'
       = Some (Arr [4%nat] (euler_quaternion (list_ascii_of_string order) ad)).
Proof.
  intros Hdt Ha Hn Hax.
  unfold quaternion_make_from_euler_angles, np_asarray_float.
  rewrite Hdt. set (l := list_ascii_of_string order) in *.
  rewrite bind_inr with (1 := eq_refl (ret av (Memory pre J))). cbv beta zeta.
  assert (Hsh : shape av = [length l]).
  { apply value_of_Nd_inv in Ha as (_ & _ & _ & Hs). exact Hs. }
  rewrite Hsh.
  replace (1 <? length l)%nat with true by (symmetry; apply Nat.ltb_lt; lia).
  cbn [removelast app].
  rewrite bind_inr with
    (1 := eq_refl : np_empty [4%nat] d (Memory pre J)
                    = inr (NdArray (length pre) 0 [(4%nat, 1%nat)]
                                   (default float64 d),
                           Memory (pre ++ [J (length pre) <$> seq 0 4]) J)).
  cbv beta.
  rewrite comprehension_axis by assumption. rewrite bind_lift_inr.
  rewrite length_map.
  set (n := length l) in *. set (P := pre ++ [J (length pre) <$> seq 0 4]).
  rewrite (bind_inr _ _ _ _ _ (np_zeros_rows P J n)).
  set (qv := NdArray (length P) 0 [(n, 4%nat); (4%nat, 1%nat)] float64).
  assert (Hav : forall X, evals (read av) (Memory (P ++ X) J) [n]
                            (fun i => nth i ad 0)).
  { intros X. apply evals_read. unfold P. rewrite <- app_assoc.
    apply value_of_extend. exact Ha. }
  set (out := NdArray (length pre) 0 [(4%nat, 1%nat)] _).
  set (blk := fun i : nat =>
                <[nth i (map axis_of l) 0%nat := sin (nth i ad 0 / 2)]>
                  (<[3%nat := cos (nth i ad 0 / 2)]> [0; 0; 0; 0])).
  assert (Lblk : forall i, length (blk i) = 4%nat)
    by (intros i; unfold blk; rewrite !length_insert; reflexivity).
  assert (Hblk : forall i, (i < length l)%nat ->
                   blk i = elementary (nth i l Ascii.zero) (nth i ad 0)).
  { intros i Hi. unfold blk. change 0%nat with (axis_of Ascii.zero) at 1.
    rewrite map_nth. apply elementary_row.
    rewrite forallb_forall in Hax. apply Hax. apply nth_In. exact Hi. }
  assert (H1 : base out <> length P).
  { unfold out, P. cbn [base]. rewrite length_app. cbn. lia. }
  assert (H2 : strides out <> [0%nat]) by (unfold out; cbn; discriminate).
  assert (H3 : Forall (fun i => (i < n)%nat /\ (i < length (map isupper l))%nat)
                      (seq 1 (n - 1))).
  { apply Forall_forall. intros i Hi. apply elem_of_seq in Hi.
    rewrite length_map. fold n. lia. }
  assert (H4 : (pre ++ [blk 0%nat] ++ [flat_map blk (seq 0 n)]) !! length P
               = Some (flat_map blk (seq 0 n))).
  { unfold P. rewrite app_assoc.
    replace (length (pre ++ [J (length pre) <$> seq 0 4]))
      with (length (pre ++ [blk 0%nat])) by (rewrite !length_app; reflexivity).
    change [flat_map blk (seq 0 n)] with ([flat_map blk (seq 0 n)] ++ []).
    apply lookup_mid. }
  assert (H5 : value_of (Nd out)
                 (Memory (pre ++ [blk 0%nat] ++ [flat_map blk (seq 0 n)]) J)
               = Some (Arr [4%nat] (blk 0%nat))).
  { unfold value_of, out.
    rewrite (read_contig pre [flat_map blk (seq 0 n)] J [4%nat] (blk 0%nat))
      by apply Lblk.
    reflexivity. }
  destruct (euler_loop out (length P) n float64 blk (map isupper l) J
              H1 H2 Lblk (seq 1 (n - 1)) _ _ H3 H4 H5)
    as (B' & Hfor & _ & Hout).
  exists out, (Memory B' J). split.
  - erewrite bind_inr; cycle 1.
    { apply (assign_column_n _ (NdArray (length P) (0 + 3 * 1) [(n, 4%nat)]
                                        float64)
               _ (fun i => cos (nth i ad 0 / 2)) 4 3 n).
      - reflexivity.
      - reflexivity.
      - cbn. lia.
      - cbn [offsets dims offset]. rewrite flat_map_singleton.
        apply map_ext. intros i. lia.
      - intros i. reflexivity.
      - lia.
      - change (shape _) with [n]. apply evals_op1, evals_op2_num_r, Hav. }
    rewrite bind_bind. erewrite bind_evals; cycle 1.
    { apply evals_op1, evals_op2_num_r, Hav. }
    cbv beta.
    erewrite bind_inr; cycle 1.
    { apply (write_fancy_rows P J n (map axis_of l)).
      - apply length_map.
      - apply Forall_forall. intros k Hk.
        apply list_elem_of_fmap in Hk as (c & -> & _).
        pose proof (axis_of_lt c). lia.
      - intros i. rewrite length_insert. reflexivity. }
    fold blk.
    erewrite bind_inr; cycle 1.
    { unfold P, out. apply (assign_row0 pre J); auto.
      unfold n in *. lia. }
    rewrite (bind_inr _ _ _ _ _ Hfor). reflexivity.
  - rewrite Hout. do 2 f_equal.
    apply euler_fold_indices; auto.
    + apply value_of_length in Ha. cbn in Ha. fold n. lia.
    + fold n. lia.
Qed.

(** A function that begins with [np.asarray(x, dtype=float)] runs on [x] as
    it runs on the array that [np.asarray] returns. *)
Lemma euler_angles_as_array (angles : array_like) (v : ndarray)
    (order : string) (out : option ndarray) (d : option dtype) (m m1 : memory) :
  np_asarray_float angles m = inr (v, m1) -> dt v = float64 ->
  quaternion_make_from_euler_angles angles order out d m
  = quaternion_make_from_euler_angles (Nd v) order out d m1.
Proof.
  intros Hv Hdt. unfold quaternion_make_from_euler_angles.
  rewrite (bind_inr _ _ _ _ _ Hv). unfold np_asarray_float. rewrite Hdt.
  reflexivity.
Qed.

(** X9.  For an order of two or more letters and as many angles,
    [quaternion_make_from_euler_angles] returns the fold of the elementary
    quaternions: the first one is the accumulator, and every further one is
    multiplied to it from the right if its letter is upper case and from the
    left if it is lower case.  The case of the first letter plays no role. *)
Theorem euler_angles_fold (m : memory) (angles : array_like)
    (order : string) (dtype : option dtype) (ad : list R) :
  value_of angles m = Some (Arr [length (list_ascii_of_string order)] ad) ->
  (2 <= length (list_ascii_of_string order))%nat ->
  forallb is_axis (list_ascii_of_string order) = true ->
  exists out m',
    quaternion_make_from_euler_angles angles order None dtype m
    = inr (out, m')
    /\ value_of (Nd out) m'
       = Some (Arr [4%nat] (euler_quaternion (list_ascii_of_string order) ad)).
Proof.
  intros Ha Hn Hax. destruct m as [pre J].
  destruct (np_asarray_float_value angles pre J _ Ha)
    as (v & L & Hv & Hva & Hdt).
  destruct (euler_core v (pre ++ L) J order dtype ad Hdt Hva Hn Hax)
    as (out & m' & Hrun & Hout).
  exists out, m'. split; [|exact Hout].
  rewrite (euler_angles_as_array _ _ _ _ _ _ _ Hv Hdt). exact Hrun.
Qed.

Lemma euler_angles_fold_witness :
  let m := Memory [] (fun _ _ => 0) in
  let angles := Seq (Arr [3%nat] [PI; 0; PI]) in
  value_of angles m
  = Some (Arr [length (list_ascii_of_string "XyZ")] [PI; 0; PI])
  /\ (2 <= length (list_ascii_of_string "XyZ"))%nat
  /\ forallb is_axis (list_ascii_of_string "XyZ") = true
  /\ exists out m',
       quaternion_make_from_euler_angles angles "XyZ" None None m
       = inr (out, m')
       /\ value_of (Nd out) m'
          = Some (Arr [4%nat]
                    (euler_quaternion (list_ascii_of_string "XyZ")
                                      [PI; 0; PI])).
Proof.
  split; [reflexivity|]. split; [cbn; lia|]. split; [reflexivity|].
  apply (euler_angles_fold (Memory [] (fun _ _ => 0))
           (Seq (Arr [3%nat] [PI; 0; PI])) "XyZ" None [PI; 0; PI]).
  - reflexivity.
  - cbn. lia.
  - reflexivity.
Defined.

(** ** Orders and angles that are refused *)

Lemma axis_index_error (c : ascii) (e : exn) :
  axis_index c = inl e -> e = KeyError.
Proof.
  unfold axis_index.
  repeat match goal with |- context [if ?b then _ else _] => destruct b end;
    congruence.
Qed.

Lemma comprehension_axis_error (l : list ascii) :
  forallb is_axis l = false -> comprehension axis_index l = inl KeyError.
Proof.
  induction l as [|c l IH]; cbn [forallb comprehension]; [discriminate|].
  intros H. unfold is_axis in H.
  destruct (axis_index c) as [e|k] eqn:E.
  - rewrite (axis_index_error c e E). reflexivity.
  - cbn in H. rewrite (IH H). reflexivity.
Qed.

(** X10.  An order with a character other than [x], [y], [z], [X], [Y], [Z] is
    refused with [KeyError], whatever the angles and the output array. *)
Theorem euler_angles_unknown_axis (m : memory) (angles : array_like)
    (order : string) (out : option ndarray) (dtype : option dtype) (a : arr) :
  value_of angles m = Some a ->
  forallb is_axis (list_ascii_of_string order) = false ->
  quaternion_make_from_euler_angles angles order out dtype m = inl KeyError.
Proof.
  intros Ha Hax. destruct m as [pre J].
  destruct (np_asarray_float_value angles pre J _ Ha)
    as (v & L & Hv & Hva & Hdt).
  unfold quaternion_make_from_euler_angles.
  rewrite (bind_inr _ _ _ _ _ Hv). cbv beta zeta.
  rewrite comprehension_axis_error by assumption.
  destruct out as [o|]; reflexivity.
Qed.

Lemma euler_angles_unknown_axis_witness :
  let m := Memory [] (fun _ _ => 0) in
  let angles := Seq (Arr [3%nat] [0; 0; 0]) in
  value_of angles m = Some (Arr [3%nat] [0; 0; 0])
  /\ forallb is_axis (list_ascii_of_string "XYW") = false
  /\ quaternion_make_from_euler_angles angles "XYW" None None m
     = inl KeyError.
Proof.
  split; [reflexivity|]. split; [reflexivity|].
  apply (euler_angles_unknown_axis (Memory [] (fun _ _ => 0))
           (Seq (Arr [3%nat] [0; 0; 0])) "XYW" None None
           (Arr [3%nat] [0; 0; 0]));
    reflexivity.
Defined.

Lemma setitem_value_mismatch (k n : nat) (d : list R) :
  k <> n -> k <> 1%nat -> setitem_value (Arr [k] d) [n] = inl ValueError.
Proof.
  intros Hn H1. unfold setitem_value, broadcast_to, bstrides.
  cbn [ashape adata length Nat.sub strip_ones rev app bstrides_rev].
  apply Nat.eqb_neq in Hn, H1. rewrite Hn, H1. reflexivity.
Qed.

(** X11.  With an order of [n >= 2] letters, a one-dimensional array of [k]
    angles is refused with [ValueError] unless [k = n] or [k = 1]. *)
Theorem euler_angles_length_mismatch (m : memory) (angles : array_like)
    (order : string) (dtype : option dtype) (k : nat) (ad : list R) :
  value_of angles m = Some (Arr [k] ad) ->
  (2 <= length (list_ascii_of_string order))%nat ->
  forallb is_axis (list_ascii_of_string order) = true ->
  k <> length (list_ascii_of_string order) -> k <> 1%nat ->
  quaternion_make_from_euler_angles angles order None dtype m
  = inl ValueError.
Proof.
  intros Ha Hn Hax Hk H1. destruct m as [pre J].
  destruct (np_asarray_float_value angles pre J _ Ha)
    as (v & L & Hv & Hva & Hdt).
  rewrite (euler_angles_as_array _ _ _ _ _ _ _ Hv Hdt).
  unfold quaternion_make_from_euler_angles, np_asarray_float.
  rewrite Hdt. set (l := list_ascii_of_string order) in *.
  rewrite bind_inr with (1 := eq_refl (ret v (Memory (pre ++ L) J))).
  cbv beta zeta.
  assert (Hsh : shape v = [k]).
  { apply value_of_Nd_inv in Hva as (_ & _ & _ & Hs). exact Hs. }
  rewrite Hsh.
  replace (1 <? length l)%nat with true by (symmetry; apply Nat.ltb_lt; lia).
  cbn [removelast app].
  rewrite bind_inr with
    (1 := eq_refl : np_empty [4%nat] dtype (Memory (pre ++ L) J)
                    = inr (NdArray (length (pre ++ L)) 0 [(4%nat, 1%nat)]
                                   (default float64 dtype),
                           Memory ((pre ++ L)
                                   ++ [J (length (pre ++ L)) <$> seq 0 4]) J)).
  cbv beta.
  rewrite comprehension_axis by assumption. rewrite bind_lift_inr.
  rewrite length_map.
  set (P := (pre ++ L) ++ _).
  rewrite (bind_inr _ _ _ _ _ (np_zeros_rows P J (length l))).
  unfold assign at 1. rewrite !bind_bind.
  erewrite bind_evals; cycle 1.
  { apply evals_op1, evals_op2_num_r, evals_read. unfold P.
    rewrite <- app_assoc. apply value_of_extend. exact Hva. }
  cbv beta.
  change (index_last _ 3)
    with (inr (NdArray (length P) (0 + 3 * 1) [(length l, 4%nat)] float64)
          : exn + ndarray).
  rewrite bind_bind, bind_lift_inr. unfold write at 1.
  change (shape _) with [length l].
  replace (np_prod [k]) with k by (cbn; lia).
  rewrite setitem_value_mismatch by assumption. reflexivity.
Qed.

Lemma euler_angles_length_mismatch_witness :
  let m := Memory [] (fun _ _ => 0) in
  let angles := Seq (Arr [3%nat] [0; 0; 0]) in
  value_of angles m = Some (Arr [3%nat] [0; 0; 0])
  /\ (2 <= length (list_ascii_of_string "XY"))%nat
  /\ forallb is_axis (list_ascii_of_string "XY") = true
  /\ 3%nat <> length (list_ascii_of_string "XY") /\ 3%nat <> 1%nat
  /\ quaternion_make_from_euler_angles angles "XY" None None m
     = inl ValueError.
Proof.
  split; [reflexivity|]. split; [cbn; lia|]. split; [reflexivity|].
  split; [cbn; lia|]. split; [lia|].
  apply (euler_angles_length_mismatch (Memory [] (fun _ _ => 0))
           (Seq (Arr [3%nat] [0; 0; 0])) "XY" None 3 [0; 0; 0]).
  - reflexivity.
  - cbn. lia.
  - reflexivity.
  - cbn. lia.
  - lia.
Defined.

(** ** Spherical coordinates *)

Lemma spherical_general (pre : list (list R)) J (euclidean : array_like)
    (dtype : option dtype) (x y z : R) :
  value_of euclidean (Memory pre J) = Some (Arr [3%nat] [x; y; z]) ->
  Rsum [x * x; z * z] <> 0 ->
  sqrt (Rsum [x * x; y * y; z * z]) <> 0 ->
  exists out L,
    vector_euclidean_to_spherical euclidean None dtype (Memory pre J)
    = inr (out, Memory (pre ++ L) J)
    /\ value_of (Nd out) (Memory (pre ++ L) J)
       = Some (Arr [3%nat]
                 [sqrt (Rsum [x * x; y * y; z * z]);
                  np_sign x * acos (z / sqrt (Rsum [x * x; z * z]));
                  acos (z / sqrt (Rsum [x * x; y * y; z * z]))]).
Proof.
  intros He Hxz Hr.
  destruct euclidean as [r|a|[b o ds [|]]]; inv_value He.
  all: eexists _, _.
  all: (split; [rewrite <- (app_nil_r pre) at 1;
                unfold vector_euclidean_to_spherical; exec_R; reflexivity|]).
  all: exec; reflexivity.
Qed.

Lemma Rsum2 (a b : R) : Rsum [a; b] = a + b.
Proof. unfold Rsum. cbn. ring. Qed.

Lemma Rsum3 (a b c : R) : Rsum [a; b; c] = a + b + c.
Proof. unfold Rsum. cbn. ring. Qed.

(** X12.  Away from the y axis, [vector_euclidean_to_spherical] returns the
    radius, [sign(x) * arccos(z / sqrt(x^2 + z^2))] and [arccos(z / r)];
    the argument is left as it was. *)
Theorem euclidean_to_spherical_formula (m : memory) (euclidean : array_like)
    (dtype : option dtype) (x y z : R) :
  value_of euclidean m = Some (Arr [3%nat] [x; y; z]) ->
  x * x + z * z <> 0 ->
  exists out m',
    vector_euclidean_to_spherical euclidean None dtype m = inr (out, m')
    /\ value_of (Nd out) m'
       = Some (Arr [3%nat]
                 [sqrt (x * x + y * y + z * z);
                  np_sign x * acos (z / sqrt (x * x + z * z));
                  acos (z / sqrt (x * x + y * y + z * z))])
    /\ value_of euclidean m' = Some (Arr [3%nat] [x; y; z]).
Proof.
  intros He Hxz. destruct m as [pre J].
  assert (Hr : sqrt (Rsum [x * x; y * y; z * z]) <> 0).
  { rewrite Rsum3. intros H0. apply sqrt_eq_0 in H0; nra. }
  rewrite <- Rsum2 in Hxz.
  destruct (spherical_general pre J euclidean dtype x y z He Hxz Hr)
    as (out & L & Hrun & Hout).
  exists out, (Memory (pre ++ L) J). rewrite Rsum2, Rsum3 in Hout.
  auto using value_of_extend.
Qed.

Lemma euclidean_to_spherical_formula_witness :
  let m := Memory [] (fun _ _ => 0) in
  let v := Seq (Arr [3%nat] [1; 0; 0]) in
  value_of v m = Some (Arr [3%nat] [1; 0; 0])
  /\ 1 * 1 + 0 * 0 <> 0
  /\ exists out m',
       vector_euclidean_to_spherical v None None m = inr (out, m')
       /\ value_of (Nd out) m'
          = Some (Arr [3%nat]
                    [sqrt (1 * 1 + 0 * 0 + 0 * 0);
                     np_sign 1 * acos (0 / sqrt (1 * 1 + 0 * 0));
                     acos (0 / sqrt (1 * 1 + 0 * 0 + 0 * 0))])
       /\ value_of v m' = Some (Arr [3%nat] [1; 0; 0]).
Proof.
  split; [reflexivity|]. split; [lra|].
  apply (euclidean_to_spherical_formula (Memory [] (fun _ _ => 0))
           (Seq (Arr [3%nat] [1; 0; 0])) None 1 0 0);
    [reflexivity|lra].
Defined.

Lemma Rsum_000 : Rsum [0 * 0; 0 * 0; 0 * 0] = 0.
Proof. unfold Rsum. cbn. ring. Qed.

Ltac exec_origin :=
  repeat first
    [ exec_step
    | rewrite Rsum_000 | rewrite Rsum_00 | rewrite sqrt_0
    | progress unfold np_sign
    | decide_R ].

(** X13.  At the origin both masked ufuncs of the third component leave their
    result arrays as [np.empty] made them: the third component returned is
    whatever that memory held, not the 0 that the source announces. *)
Theorem euclidean_to_spherical_origin (pre : list (list R)) (c : R)
    (euclidean : array_like) (dtype : option dtype) :
  value_of euclidean (Memory pre (fun _ _ => c))
  = Some (Arr [3%nat] [0; 0; 0]) ->
  exists out m' phi,
    vector_euclidean_to_spherical euclidean None dtype
      (Memory pre (fun _ _ => c)) = inr (out, m')
    /\ value_of (Nd out) m' = Some (Arr [3%nat] [0; phi; c]).
Proof.
  intros He.
  destruct euclidean as [r|a|[b o ds [|]]]; inv_value He.
  all: eexists _, _, _.
  all: (split; [rewrite <- (app_nil_r pre) at 1;
                unfold vector_euclidean_to_spherical; exec_origin;
                reflexivity|]).
  all: exec; reflexivity.
Qed.

Lemma euclidean_to_spherical_origin_witness :
  let m := Memory [] (fun _ _ => 7) in
  let v := Seq (Arr [3%nat] [0; 0; 0]) in
  value_of v m = Some (Arr [3%nat] [0; 0; 0])
  /\ exists out m' phi,
       vector_euclidean_to_spherical v None None m = inr (out, m')
       /\ value_of (Nd out) m' = Some (Arr [3%nat] [0; phi; 7]).
Proof.
  split; [reflexivity|].
  apply (euclidean_to_spherical_origin [] 7
           (Seq (Arr [3%nat] [0; 0; 0])) None).
  reflexivity.
Defined.

(** ** Rows of an array *)

Lemma rows_concat (d n : nat) (l : list R) :
  length l = (n * d)%nat -> flat_map (row d l) (seq 0 n) = l.
Proof.
  revert l. induction n as [|n IH]; intros l Hl.
  - destruct l; [reflexivity|discriminate].
  - cbn [seq flat_map]. rewrite <- seq_shift, flat_map_map'.
    unfold row at 1. cbn [Nat.mul drop].
    transitivity (take d l ++ drop d l); [|apply take_drop]. f_equal.
    rewrite <- (IH (drop d l)) by (rewrite length_drop; lia).
    apply flat_map_ext. intros i. unfold row.
    rewrite drop_drop. do 2 f_equal; try lia.
Qed.

Lemma length_row (d n : nat) (l : list R) (i : nat) :
  length l = (n * d)%nat -> (i < n)%nat -> length (row d l i) = d.
Proof.
  intros Hl Hi. unfold row. rewrite length_take, length_drop. nia.
Qed.

Lemma upd_snoc (loc : list nat) (vs : list R) (k : nat) (x : R) (b : list R) :
  length loc = length vs ->
  upd (loc ++ [k]) (vs ++ [x]) b = <[k := x]> (upd loc vs b).
Proof.
  intros Hl. unfold upd. rewrite zip_with_app by assumption.
  rewrite foldl_app. reflexivity.
Qed.

(** Storing a row at the first positions of a block. *)
Lemma upd_prefix (r b : list R) :
  (length r <= length b)%nat ->
  upd (seq 0 (length r)) r b = r ++ drop (length r) b.
Proof.
  induction r as [|x r IH] using rev_ind; intros Hl; [reflexivity|].
  rewrite length_app in *. cbn [length] in *.
  rewrite Nat.add_1_r, seq_S. cbn [plus].
  rewrite upd_snoc by (rewrite length_seq; reflexivity).
  rewrite IH by lia.
  rewrite insert_app_r_alt, Nat.sub_diag by lia.
  destruct (drop (length r) b) as [|y t] eqn:E.
  - apply (f_equal length) in E. rewrite length_drop in E. cbn in E. lia.
  - cbn. rewrite <- app_assoc. cbn. do 2 f_equal.
    replace (S (length r)) with (length r + 1)%nat by lia.
    rewrite <- drop_drop, E. reflexivity.
Qed.

Lemma flat_map_ext_seq {A} (f g : nat -> list A) (n : nat) :
  (forall i, (i < n)%nat -> f i = g i) ->
  flat_map f (seq 0 n) = flat_map g (seq 0 n).
Proof.
  intros H. rewrite !flat_map_concat_map. f_equal.
  apply map_ext_in. intros i Hi. apply in_seq in Hi. apply H. lia.
Qed.

Lemma vector_dims (bs : list nat) (k : nat) :
  zip (bs ++ [k]) (cstrides (bs ++ [k]))
  = zip bs (map (Nat.mul k) (cstrides bs)) ++ [(k, 1%nat)].
Proof.
  rewrite dims_split. change (np_prod [k]) with (k * 1)%nat.
  rewrite Nat.mul_1_r. reflexivity.
Qed.

Lemma np_prod_snoc (bs : list nat) (k : nat) :
  np_prod (bs ++ [k]) = (np_prod bs * k)%nat.
Proof. rewrite np_prod_app. cbn. lia. Qed.

(** A fresh array of vectors of [k] elements: one block for each vector. *)
Lemma np_empty_vectors (bs : list nat) (k : nat) (d : option dtype)
    (pre : list (list R)) J :
  np_empty (bs ++ [k]) d (Memory pre J)
  = inr (NdArray (length pre) 0 (zip (bs ++ [k]) (cstrides (bs ++ [k])))
                 (default float64 d),
         Memory (pre ++ [flat_map (fun i => map (fun j => J (length pre)
                                                         (i * k + j)%nat)
                                               (seq 0 k))
                                  (seq 0 (np_prod bs))] ++ []) J).
Proof.
  unfold np_empty, alloc. cbn [bufs junk app].
  rewrite np_prod_snoc. rewrite <- seq_blocks0. reflexivity.
Qed.

(** Assignment of a number to a view that has the same local offsets
    [loc] in every block of the buffer at [length pre]. *)
Lemma assign_num (t : exn + ndarray) (v : ndarray) (c : R) (k n : nat)
    (loc : list nat) (blk : nat -> list R) (pre post : list (list R)) J :
  t = inr v ->
  base v = length pre ->
  offsets (dims v) (offset v)
  = flat_map (fun i => map (fun j => i * k + j)%nat loc) (seq 0 n) ->
  np_prod (shape v) = (n * length loc)%nat ->
  (forall i, length (blk i) = k) ->
  Forall (fun j => j < k)%nat loc ->
  assign t (num c) (Memory (pre ++ [flat_map blk (seq 0 n)] ++ post) J)
  = inr (tt, Memory (pre ++ [flat_map (fun i => upd loc (repeat c (length loc))
                                                    (blk i)) (seq 0 n)]
                          ++ post) J).
Proof.
  intros -> Hb Ho Hn Hk Hl.
  unfold assign, num, write, scalar. msimpl.
  rewrite setitem_value_scalar. msimpl.
  rewrite Ho, Hb, Hn, repeat_blocks.
  apply (poke_blocks k (fun _ => loc) (fun _ => repeat c (length loc)) blk).
  intros i _. rewrite repeat_length. auto.
Qed.

(** Assignment of an array, row by row, to a view that has the local
    offsets [0 .. d-1] in every block. *)
Lemma assign_rows (t : exn + ndarray) (v : ndarray) (e : M arr) (sh : list nat)
    (vd : list R) (k d n : nat) (blk : nat -> list R)
    (pre post : list (list R)) J :
  t = inr v ->
  base v = length pre ->
  shape v = sh ->
  np_prod sh = (n * d)%nat ->
  length vd = (n * d)%nat ->
  offsets (dims v) (offset v)
  = flat_map (fun i => map (fun j => i * k + j)%nat (seq 0 d)) (seq 0 n) ->
  (forall i, length (blk i) = k) ->
  (d <= k)%nat ->
  e (Memory (pre ++ [flat_map blk (seq 0 n)] ++ post) J)
  = inr (Arr sh vd, Memory (pre ++ [flat_map blk (seq 0 n)] ++ post) J) ->
  assign t e (Memory (pre ++ [flat_map blk (seq 0 n)] ++ post) J)
  = inr (tt, Memory (pre ++ [flat_map (fun i => upd (seq 0 d) (row d vd i)
                                                    (blk i)) (seq 0 n)]
                          ++ post) J).
Proof.
  intros -> Hb Hs Hp Hl Ho Hk Hd He.
  unfold assign. rewrite (bind_inr _ _ _ _ _ He). rewrite bind_lift_inr.
  unfold write. rewrite Hs.
  rewrite setitem_value_same by lia. msimpl.
  rewrite Ho, Hb. rewrite <- (rows_concat d n vd Hl) at 1.
  apply (poke_blocks k (fun _ => seq 0 d) (row d vd) blk).
  intros i Hi. repeat split; auto.
  - rewrite length_seq. apply length_row with (n := n); auto.
  - apply Forall_forall. intros j Hj. apply elem_of_seq in Hj. lia.
Qed.

Lemma last_snoc_shape (bs : list nat) (k : nat) : last (bs ++ [k]) = Some k.
Proof. apply last_snoc. Qed.

Lemma vector_offsets (bs : list nat) (k d c : nat) :
  offsets (zip bs (map (Nat.mul k) (cstrides bs)) ++ [(d, 1%nat)]) c
  = flat_map (fun i => map (fun j => i * k + j)%nat (seq c d))
             (seq 0 (np_prod bs)).
Proof.
  rewrite offsets_app, offsets_contig, flat_map_map'.
  apply flat_map_ext. intros i. rewrite offsets_vector.
  replace (seq c d) with (map (Nat.add c) (seq 0 d)).
  - rewrite map_map. apply map_ext. intros j. lia.
  - change (map (Nat.add c) (seq 0 d)) with (Nat.add c <$> seq 0 d).
    rewrite fmap_add_seq. f_equal. lia.
Qed.

Lemma drop_insert_last (b : list R) (d : nat) (w : R) :
  length b = S d -> drop d (<[d := w]> b) = [w].
Proof.
  intros Hl. rewrite <- (take_drop d b) at 1.
  rewrite insert_app_r_alt by (rewrite length_take; lia).
  rewrite length_take, Nat.min_l, Nat.sub_diag by lia.
  rewrite drop_app_length' by (rewrite length_take; lia).
  destruct (drop d b) as [|y [|? ?]] eqn:E;
    apply (f_equal length) in E; rewrite length_drop in E; cbn in E;
    try lia.
  reflexivity.
Qed.

Lemma homogeneous_fresh (vv : ndarray) (pre : list (list R)) J (w : R)
    (dtype : option dtype) (bs : list nat) (d : nat) (vd : list R) :
  value_of (Nd vv) (Memory pre J) = Some (Arr (bs ++ [d]) vd) ->
  exists out L,
    vector_make_homogeneous (Nd vv) w None dtype (Memory pre J)
    = inr (out, Memory (pre ++ L) J)
    /\ value_of (Nd out) (Memory (pre ++ L) J)
       = Some (Arr (bs ++ [S d])
                 (flat_map (fun i => row d vd i ++ [w])
                           (seq 0 (np_prod bs))))
    /\ dt out = default (dt vv) dtype.
Proof.
  intros Hv.
  assert (Hsh : shape vv = bs ++ [d]).
  { apply value_of_Nd_inv in Hv as (_ & _ & _ & Hs). exact Hs. }
  pose proof (value_of_length _ _ _ Hv) as Hl. cbn [ashape adata] in Hl.
  rewrite np_prod_snoc in Hl.
  unfold vector_make_homogeneous, np_asarray.
  rewrite bind_inr with (1 := eq_refl (ret vv (Memory pre J))). cbv beta.
  rewrite Hsh, rev_app_distr. cbn [rev app].
  rewrite bind_inr with
    (1 := eq_refl (ret (rev (S d :: rev bs)) (Memory pre J))).
  cbn [rev]. rewrite rev_involutive.
  rewrite (bind_inr _ _ _ _ _ (np_empty_vectors bs (S d) _ pre J)).
  change (default float64 (Some (default (dt vv) dtype)))
    with (default (dt vv) dtype).
  set (out := NdArray (length pre) 0 _ (default (dt vv) dtype)).
  set (b0 := fun i : nat => map _ (seq 0 (S d))).
  assert (L0 : forall i, length (b0 i) = S d)
    by (intros i; unfold b0; rewrite length_map, length_seq; reflexivity).
  assert (Hlast : (default 0 (last (shape out)) - 1)%nat = d).
  { unfold out, shape. cbn [dims]. rewrite shape_contig, last_snoc. cbn. lia. }
  unfold index_last_m1, slice_last_m1. rewrite Hlast.
  set (b1 := fun i : nat => <[d := w]> (b0 i)).
  assert (L1 : forall i, length (b1 i) = S d)
    by (intros i; unfold b1; rewrite length_insert; apply L0).
  exists out, ([flat_map (fun i => upd (seq 0 d) (row d vd i) (b1 i))
                         (seq 0 (np_prod bs))] ++ []).
  split; [|split; [|reflexivity]].
  - erewrite bind_inr; cycle 1.
    { apply (assign_num _ (NdArray (length pre) (0 + d * 1)
                             (zip bs (map (Nat.mul (S d)) (cstrides bs)))
                             (default (dt vv) dtype))
               w (S d) (np_prod bs) [d] b0 pre [] J).
      - apply index_last_snoc with (d := S d); [apply vector_dims|lia].
      - reflexivity.
      - cbn [dims offset]. rewrite offsets_contig.
        rewrite <- flat_map_singleton. apply flat_map_ext. intros i.
        cbn. f_equal. lia.
      - unfold shape. cbn [dims length]. rewrite fst_zip_cstrides. lia.
      - exact L0.
      - repeat constructor. }
    change (fun i : nat => upd [d] (repeat w (length [d])) (b0 i)) with b1.
    erewrite bind_inr; cycle 1.
    { apply (assign_rows _ (NdArray (length pre) 0
                              (zip bs (map (Nat.mul (S d)) (cstrides bs))
                               ++ [(d, 1%nat)])
                              (default (dt vv) dtype))
               (read vv) (bs ++ [d]) vd (S d) d (np_prod bs) b1 pre [] J).
      - unfold slice_last, out. cbn [dims base offset dt].
        rewrite vector_dims, rev_app_distr. cbn [rev app].
        rewrite rev_involutive, Nat.min_l by lia. reflexivity.
      - reflexivity.
      - unfold shape. cbn [dims]. rewrite fmap_app, fst_zip_cstrides.
        reflexivity.
      - apply np_prod_snoc.
      - exact Hl.
      - cbn [dims offset]. apply vector_offsets.
      - exact L1.
      - lia.
      - apply value_of_read. apply value_of_extend. exact Hv. }
    reflexivity.
  - unfold value_of, out.
    rewrite read_contig.
    + do 2 f_equal. apply flat_map_ext_seq. intros i Hi.
      rewrite <- (length_row d (np_prod bs) vd i Hl Hi) at 1.
      rewrite upd_prefix.
      * rewrite (length_row d (np_prod bs) vd i Hl Hi). f_equal.
        apply drop_insert_last. apply L0.
      * rewrite (length_row d (np_prod bs) vd i Hl Hi), L1. lia.
    + rewrite (length_blocks _ (S d)).
      * rewrite np_prod_snoc. reflexivity.
      * intros i. rewrite length_upd. apply L1.
Qed.

Lemma np_asarray_dtype (x : array_like) (m m' : memory) (v : ndarray) :
  np_asarray x m = inr (v, m') -> dt v = dtype_of x.
Proof.
  destruct x as [r|s|v0]; cbn; unfold np_array, alloc, ret;
    intros [= <- _]; reflexivity.
Qed.

Lemma homogeneous_any (vectors : array_like) (pre : list (list R)) J (w : R)
    (dtype : option dtype) (bs : list nat) (d : nat) (vd : list R) :
  value_of vectors (Memory pre J) = Some (Arr (bs ++ [d]) vd) ->
  exists out L,
    vector_make_homogeneous vectors w None dtype (Memory pre J)
    = inr (out, Memory (pre ++ L) J)
    /\ value_of (Nd out) (Memory (pre ++ L) J)
       = Some (Arr (bs ++ [S d])
                 (flat_map (fun i => row d vd i ++ [w])
                           (seq 0 (np_prod bs))))
    /\ dt out = default (dtype_of vectors) dtype.
Proof.
  intros Hv.
  destruct (np_asarray_value vectors pre J _ Hv) as (v & L & Hnp & Ha).
  destruct (homogeneous_fresh v (pre ++ L) J w dtype bs d vd Ha)
    as (out & L' & Hrun & Hout & Hdt).
  exists out, (L ++ L'). rewrite app_assoc. split; [|split].
  - rewrite <- Hrun. unfold vector_make_homogeneous at 1.
    rewrite (bind_inr _ _ _ _ _ Hnp). reflexivity.
  - exact Hout.
  - rewrite Hdt, (np_asarray_dtype _ _ _ _ Hnp). reflexivity.
Qed.

(** X14.  For vectors given as an array object of element type float32 or
    float64, of any batch shape, [vector_make_homogeneous] appends [w] to
    every vector (in real arithmetic: the rounding of [w] and of the
    elements to the element type of the result is not modelled); the result
    is a fresh array whose element type is [dtype] (float32 or float64) if
    it is given and that of the vectors otherwise, and the argument is left
    as it was.  Vectors of integers, for which the source stores a truncated
    [w], are not covered. *)
Theorem vector_make_homogeneous_batch (m : memory) (vectors : ndarray)
    (w : R) (dtype : option dtype) (bs : list nat) (d : nat) (vd : list R) :
  value_of (Nd vectors) m = Some (Arr (bs ++ [d]) vd) ->
  exists out m',
    vector_make_homogeneous (Nd vectors) w None dtype m = inr (out, m')
    /\ value_of (Nd out) m'
       = Some (Arr (bs ++ [S d])
                 (flat_map (fun i => row d vd i ++ [w])
                           (seq 0 (np_prod bs))))
    /\ dt out = default (dt vectors) dtype
    /\ value_of (Nd vectors) m' = Some (Arr (bs ++ [d]) vd).
Proof.
  intros Hv. destruct m as [pre J].
  destruct (homogeneous_any (Nd vectors) pre J w dtype bs d vd Hv)
    as (out & L & Hrun & Hout & Hdt).
  exists out, (Memory (pre ++ L) J). split; [exact Hrun|].
  split; [exact Hout|]. split; [exact Hdt|].
  apply value_of_extend. exact Hv.
Qed.

Lemma vector_make_homogeneous_batch_witness :
  let m := Memory [[1; 2; 3; 4; 5; 6]] (fun _ _ => 0) in
  let v := NdArray 0 0 [(2, 3); (3, 1)]%nat float32 in
  value_of (Nd v) m = Some (Arr ([2%nat] ++ [3%nat]) [1; 2; 3; 4; 5; 6])
  /\ exists out m',
       vector_make_homogeneous (Nd v) (1 / 2) None None m = inr (out, m')
       /\ value_of (Nd out) m'
          = Some (Arr ([2%nat] ++ [4%nat])
                    (flat_map (fun i => row 3 [1; 2; 3; 4; 5; 6] i ++ [1 / 2])
                              (seq 0 (np_prod [2%nat]))))
       /\ dt out = default (dt v) None
       /\ value_of (Nd v) m'
          = Some (Arr ([2%nat] ++ [3%nat]) [1; 2; 3; 4; 5; 6]).
Proof.
  split; [reflexivity|].
  apply (vector_make_homogeneous_batch
           (Memory [[1; 2; 3; 4; 5; 6]] (fun _ _ => 0))
           (NdArray 0 0 [(2, 3); (3, 1)]%nat float32) (1 / 2) None
           [2%nat] 3 [1; 2; 3; 4; 5; 6]).
  reflexivity.
Defined.

(** X15.  A number or a 0-d array has no last axis to extend:
    [vector_make_homogeneous] raises [IndexError]. *)
Theorem vector_make_homogeneous_scalar (m : memory) (vectors : array_like)
    (w : R) (out : option ndarray) (dtype : option dtype) (vd : list R) :
  value_of vectors m = Some (Arr [] vd) ->
  vector_make_homogeneous vectors w out dtype m = inl IndexError.
Proof.
  intros Hv. destruct m as [pre J].
  destruct (np_asarray_value vectors pre J _ Hv) as (v & L & Hnp & Ha).
  assert (Hsh : shape v = []).
  { apply value_of_Nd_inv in Ha as (_ & _ & _ & Hs). exact Hs. }
  unfold vector_make_homogeneous.
  rewrite (bind_inr _ _ _ _ _ Hnp). cbv beta. rewrite Hsh. reflexivity.
Qed.

Lemma vector_make_homogeneous_scalar_witness :
  let m := Memory [] (fun _ _ => 0) in
  value_of (Num 5) m = Some (Arr [] [5])
  /\ vector_make_homogeneous (Num 5) 1 None None m = inl IndexError.
Proof.
  split; [reflexivity|].
  apply (vector_make_homogeneous_scalar (Memory [] (fun _ _ => 0))
           (Num 5) 1 None None [5]).
  reflexivity.
Defined.

(** ** Normalising the rows of a matrix *)

Lemma gather_app {A} (buf : list A) (o1 o2 : list nat) (d1 d2 : list A) :
  gather buf o1 = Some d1 -> gather buf o2 = Some d2 ->
  gather buf (o1 ++ o2) = Some (d1 ++ d2).
Proof.
  unfold gather. intros H1 H2. apply mapM_Some in H1, H2.
  apply mapM_Some. apply Forall2_app; assumption.
Qed.

Lemma gather_flat_map {A} (buf : list A) (f : nat -> list nat)
    (h : nat -> list A) (l : list nat) :
  (forall i, In i l -> gather buf (f i) = Some (h i)) ->
  gather buf (flat_map f l) = Some (flat_map h l).
Proof.
  induction l as [|i l IH]; intros H; [reflexivity|].
  cbn [flat_map]. apply gather_app.
  - apply H. left. reflexivity.
  - apply IH. intros j Hj. apply H. right. exact Hj.
Qed.

Lemma zip_with_flat_map {A B C} (F : A -> B -> C) (f : nat -> list A)
    (g : nat -> list B) (l : list nat) :
  (forall i, In i l -> length (f i) = length (g i)) ->
  zip_with F (flat_map f l) (flat_map g l)
  = flat_map (fun i => zip_with F (f i) (g i)) l.
Proof.
  induction l as [|i l IH]; intros H; [reflexivity|].
  cbn [flat_map]. rewrite zip_with_app by (apply H; left; reflexivity).
  rewrite IH; [reflexivity|]. intros j Hj. apply H. right. exact Hj.
Qed.

Lemma lookup_map_seq {A} (g : nat -> A) (n i : nat) :
  (i < n)%nat -> map g (seq 0 n) !! i = Some (g i).
Proof.
  intros Hi. change (map g (seq 0 n)) with (g <$> seq 0 n).
  rewrite list_lookup_fmap, lookup_seq_lt by exact Hi. reflexivity.
Qed.

(** The norms of the rows, read once for each of the three columns. *)
Lemma broadcast_column (n : nat) (g : nat -> R) :
  broadcast_to (Arr [n; 1%nat] (map g (seq 0 n))) [n; 3%nat]
  = Some (flat_map (fun i => [g i; g i; g i]) (seq 0 n)).
Proof.
  unfold broadcast_to, bstrides.
  cbn [ashape adata cstrides rev app bstrides_rev Nat.eqb hd tail].
  rewrite Nat.eqb_refl. cbn [fmap option_fmap option_map mbind option_bind
                            rev app zip zip_with offsets].
  apply gather_flat_map. intros i Hi. apply in_seq in Hi.
  cbn [seq flat_map app]. unfold gather. cbn [mapM].
  change (np_prod [1%nat]) with 1%nat.
  replace (0 + i * 1 + 0 * 0)%nat with i by lia.
  replace (0 + i * 1 + 1 * 0)%nat with i by lia.
  replace (0 + i * 1 + 2 * 0)%nat with i by lia.
  rewrite lookup_map_seq by lia. reflexivity.
Qed.

Lemma broadcast_shapes_column (n : nat) :
  broadcast_shapes [n; 3%nat] [n; 1%nat] = Some [n; 3%nat].
Proof.
  unfold broadcast_shapes. cbn [rev app broadcast_rev].
  rewrite Nat.eqb_refl. reflexivity.
Qed.

Lemma np_prod_matrix (n d : nat) : np_prod [n; d] = (n * d)%nat.
Proof. cbn. lia. Qed.

Lemma divide_rows (n : nat) (vd : list R) (g : nat -> R) :
  length vd = (n * 3)%nat ->
  ufunc2 Rdiv (Arr [n; 3%nat] vd) (Arr [n; 1%nat] (map g (seq 0 n)))
  = inr (Arr [n; 3%nat]
           (flat_map (fun i => map (fun x => x / g i) (row 3 vd i))
                     (seq 0 n))).
Proof.
  intros Hl. unfold ufunc2. cbn [ashape].
  rewrite broadcast_shapes_column.
  rewrite broadcast_to_same by (rewrite np_prod_matrix; exact Hl).
  rewrite broadcast_column. do 2 f_equal.
  rewrite <- (rows_concat 3 n vd Hl) at 1.
  rewrite zip_with_flat_map.
  - apply flat_map_ext_seq. intros i Hi.
    pose proof (length_row 3 n vd i Hl Hi) as Hr.
    destruct (row 3 vd i) as [|x [|y [|z [|? ?]]]]; try discriminate.
    reflexivity.
  - intros i Hi. apply in_seq in Hi. rewrite (length_row 3 n vd i Hl) by lia.
    reflexivity.
Qed.

Lemma scatter_all (old d : list R) :
  length d = length old -> scatter (seq 0 (length old)) d old = Some d.
Proof.
  intros Hl.
  pose proof (scatter_local (seq 0 (length old)) d [] old []) as H.
  cbn [app length plus] in H. rewrite app_nil_r in H.
  rewrite (map_id' (fun c => c)) in H by reflexivity.
  rewrite H.
  - rewrite app_nil_r, <- Hl, upd_prefix by lia.
    rewrite Hl, drop_all, app_nil_r. reflexivity.
  - apply Forall_forall. intros j Hj. apply elem_of_seq in Hj. lia.
Qed.

(** Storing a whole array into a C-contiguous array of the same shape. *)
Lemma write_out_contig (pre post : list (list R)) J (sh : list nat)
    (dd : dtype) (old d : list R) :
  length old = np_prod sh -> length d = np_prod sh ->
  write_out (NdArray (length pre) 0 (zip sh (cstrides sh)) dd) (Arr sh d)
            (Memory (pre ++ [old] ++ post) J)
  = inr (tt, Memory (pre ++ [d] ++ post) J).
Proof.
  intros Ho Hd. unfold write_out, shape. cbn [dims base offset].
  rewrite shape_contig, broadcast_to_same by exact Hd.
  unfold poke, store. cbn [bufs junk].
  rewrite lookup_mid, offsets_cstrides, <- Ho, scatter_all by lia.
  rewrite insert_mid. reflexivity.
Qed.

Lemma length_blocks_lt {A} (blk : nat -> list A) (k n : nat) :
  (forall i, (i < n)%nat -> length (blk i) = k) ->
  length (flat_map blk (seq 0 n)) = (n * k)%nat.
Proof.
  induction n as [|n IH]; intros H; [reflexivity|].
  rewrite seq_S, flat_map_app, length_app, IH by (intros; apply H; lia).
  cbn [plus flat_map]. rewrite app_nil_r, H by lia. lia.
Qed.

Lemma normalize_fresh (vv : ndarray) (pre : list (list R)) J
    (dtype : option dtype) (n : nat) (vd : list R) :
  value_of (Nd vv) (Memory pre J) = Some (Arr [n; 3%nat] vd) ->
  exists out L,
    vector_normalize (Nd vv) None dtype (Memory pre J)
    = inr (out, Memory (pre ++ L) J)
    /\ value_of (Nd out) (Memory (pre ++ L) J)
       = Some (Arr [n; 3%nat]
                 (flat_map (fun i => map (fun x => x / sqrt (sumsq (row 3 vd i)))
                                         (row 3 vd i))
                           (seq 0 n))).
Proof.
  intros Hv.
  assert (Hsh : shape vv = [n; 3%nat]).
  { apply value_of_Nd_inv in Hv as (_ & _ & _ & Hs). exact Hs. }
  pose proof (value_of_length _ _ _ Hv) as Hl. cbn [ashape adata] in Hl.
  rewrite np_prod_matrix in Hl.
  set (res := flat_map (fun i => map (fun x => x / sqrt (sumsq (row 3 vd i)))
                                     (row 3 vd i)) (seq 0 n)).
  assert (Lres : length res = np_prod [n; 3%nat]).
  { unfold res. rewrite np_prod_matrix. apply length_blocks_lt.
    intros i Hi. rewrite length_map.
    apply length_row with (n := n); [exact Hl|lia]. }
  exists (NdArray (length pre) 0 (zip [n; 3%nat] (cstrides [n; 3%nat]))
                  (default (dt vv) dtype)), ([res] ++ []).
  split.
  - unfold vector_normalize, np_asarray.
    rewrite bind_inr with (1 := eq_refl (ret vv (Memory pre J))). cbv beta.
    unfold np_empty_like. rewrite Hsh.
    rewrite bind_inr with
      (1 := eq_refl : np_empty [n; 3%nat] (Some (default (dt vv) dtype))
                        (Memory pre J)
                      = inr (NdArray (length pre) 0
                               (zip [n; 3%nat] (cstrides [n; 3%nat]))
                               (default (dt vv) dtype),
                             Memory (pre ++ [J (length pre)
                                               <$> seq 0 (np_prod [n; 3%nat])]
                                         ++ []) J)).
    cbv beta.
    assert (Hrd : forall X, read vv (Memory (pre ++ X) J)
                            = inr (Arr [n; 3%nat] vd, Memory (pre ++ X) J)).
    { intros X. apply value_of_read, value_of_extend. exact Hv. }
    unfold op2. rewrite !bind_bind. rewrite (bind_inr _ _ _ _ _ (Hrd _)).
    rewrite !bind_bind. rewrite (bind_inr _ _ _ _ _ (Hrd _)).
    unfold norm_last. cbn [ashape adata rev app].
    rewrite !bind_bind, bind_lift_inr. unfold colon_newaxis. cbn [ashape adata].
    rewrite bind_lift_inr.
    change (np_prod [n]) with (n * 1)%nat. rewrite Nat.mul_1_r.
    unfold rows.
    change ((fun r => sqrt (sumsq r)) <$>
              ((fun i => take 3 (drop (i * 3) vd)) <$> seq 0 n))
      with (map (fun r => sqrt (sumsq r)) (map (row 3 vd) (seq 0 n))).
    rewrite map_map.
    rewrite (divide_rows n vd (fun i => sqrt (sumsq (row 3 vd i))) Hl).
    rewrite bind_lift_inr. fold res.
    erewrite bind_inr; cycle 1.
    { apply (write_out_contig pre [] J [n; 3%nat]); [|exact Lres].
      rewrite length_fmap, length_seq. reflexivity. }
    reflexivity.
  - unfold value_of. rewrite read_contig by exact Lres. reflexivity.
Qed.

Lemma sumsq_scaled (r : list R) (s : R) :
  s <> 0 -> sumsq (map (fun x => x / s) r) = sumsq r / (s * s).
Proof.
  intros Hs. induction r as [|x r IH].
  - unfold sumsq. cbn. field. exact Hs.
  - cbn [map].
    change (sumsq (x / s :: map (fun x => x / s) r))
      with (x / s * (x / s) + sumsq (map (fun x => x / s) r)).
    change (sumsq (x :: r)) with (x * x + sumsq r).
    rewrite IH. field. exact Hs.
Qed.

Lemma normalized_unit (v : list R) :
  sumsq v <> 0 -> sqrt (sumsq (normalized v)) = 1.
Proof.
  intros Hv. unfold normalized.
  assert (Hs : sqrt (sumsq v) <> 0).
  { intros H0. apply sqrt_eq_0 in H0; [contradiction|apply sumsq_nonneg]. }
  rewrite sumsq_scaled by exact Hs.
  rewrite sqrt_sqrt by apply sumsq_nonneg.
  replace (sumsq v / sumsq v) with 1 by (field; exact Hv). apply sqrt_1.
Qed.

(** X16.  On a matrix of [n] rows of three components, given as an array object
    of element type float32 or float64, [vector_normalize] returns a fresh
    matrix whose rows are the rows of the argument, each divided by its own
    norm, so that every row that is not zero has norm 1 (in real
    arithmetic); the argument is left as it was.  A matrix of integers, on
    which the division into an integer result array fails in the source, is
    not covered. *)
Theorem vector_normalize_rows (m : memory) (vectors : ndarray)
    (dtype : option dtype) (n : nat) (vd : list R) :
  value_of (Nd vectors) m = Some (Arr [n; 3%nat] vd) ->
  exists out m',
    vector_normalize (Nd vectors) None dtype m = inr (out, m')
    /\ value_of (Nd out) m'
       = Some (Arr [n; 3%nat]
                 (flat_map (fun i => normalized (row 3 vd i)) (seq 0 n)))
    /\ (forall i, sumsq (row 3 vd i) <> 0 ->
                  sqrt (sumsq (normalized (row 3 vd i))) = 1)
    /\ value_of (Nd vectors) m' = Some (Arr [n; 3%nat] vd).
Proof.
  intros Hv. destruct m as [pre J].
  destruct (np_asarray_value (Nd vectors) pre J _ Hv) as (v & L & Hnp & Ha).
  destruct (normalize_fresh v (pre ++ L) J dtype n vd Ha)
    as (out & L' & Hrun & Hout).
  exists out, (Memory ((pre ++ L) ++ L') J). split; [|split; [|split]].
  - rewrite <- Hrun. unfold vector_normalize at 1.
    rewrite (bind_inr _ _ _ _ _ Hnp). reflexivity.
  - exact Hout.
  - intros i Hi. apply normalized_unit. exact Hi.
  - rewrite <- app_assoc. apply value_of_extend. exact Hv.
Qed.

Lemma vector_normalize_rows_witness :
  let m := Memory [[3; 0; 4; 0; 5; 0]] (fun _ _ => 0) in
  let v := NdArray 0 0 [(2, 3); (3, 1)]%nat float64 in
  value_of (Nd v) m = Some (Arr [2; 3]%nat [3; 0; 4; 0; 5; 0])
  /\ exists out m',
       vector_normalize (Nd v) None None m = inr (out, m')
       /\ value_of (Nd out) m'
          = Some (Arr [2; 3]%nat
                    (flat_map (fun i => normalized (row 3 [3; 0; 4; 0; 5; 0] i))
                              (seq 0 2)))
       /\ (forall i, sumsq (row 3 [3; 0; 4; 0; 5; 0] i) <> 0 ->
             sqrt (sumsq (normalized (row 3 [3; 0; 4; 0; 5; 0] i))) = 1)
       /\ value_of (Nd v) m' = Some (Arr [2; 3]%nat [3; 0; 4; 0; 5; 0]).
Proof.
  split; [reflexivity|].
  apply (vector_normalize_rows (Memory [[3; 0; 4; 0; 5; 0]] (fun _ _ => 0))
           (NdArray 0 0 [(2, 3); (3, 1)]%nat float64) None 2
           [3; 0; 4; 0; 5; 0]).
  reflexivity.
Defined.

(** ** Applying a matrix to vectors *)

Lemma np_prod_rev (l : list nat) : np_prod (rev l) = np_prod l.
Proof.
  induction l as [|d l IH]; [reflexivity|].
  cbn [rev]. rewrite np_prod_snoc, IH.
  change (np_prod (d :: l)) with (d * np_prod l)%nat. lia.
Qed.

Lemma np_array_of_value (a : arr) (d : dtype) (pre : list (list R)) J :
  length (adata a) = np_prod (ashape a) ->
  exists v,
    np_array_of a d (Memory pre J) = inr (v, Memory (pre ++ [adata a]) J)
    /\ value_of (Nd v) (Memory (pre ++ [adata a]) J) = Some a
    /\ dt v = d.
Proof.
  intros Hl. eexists. split; [|split].
  - unfold np_array_of, alloc. cbn [bufs junk].
    rewrite <- Hl, lookup_default_seq. reflexivity.
  - unfold value_of. change (pre ++ [adata a]) with (pre ++ [adata a] ++ []).
    rewrite read_contig by auto. destruct a; reflexivity.
  - reflexivity.
Qed.

(** The product of a batch of vectors of four components with a matrix of
    four rows and three columns. *)
Lemma np_dot_matrix_rows (bs : list nat) (hd td : list R) :
  np_dot_matrix (Arr (bs ++ [4%nat]) hd) (Arr [4; 3]%nat td)
  = inr (Arr (bs ++ [3%nat])
           (flat_map (fun i => (fun j => Rsum (zip_with Rmult (row 4 hd i)
                                                 (column 4 3 td j)))
                               <$> seq 0 3)
                     (seq 0 (np_prod bs)))).
Proof.
  unfold np_dot_matrix. cbn [ashape adata]. rewrite rev_app_distr.
  cbn [rev app Nat.eqb]. rewrite rev_involutive, np_prod_rev.
  do 2 f_equal. unfold rows.
  rewrite flat_map_concat_map. f_equal.
  change (?f <$> (?g <$> ?l)) with (map f (map g l)).
  rewrite map_map. reflexivity.
Qed.

(** The view [matrix[:-1, :].T] of a 4x4 matrix: its columns are the first
    three rows of the matrix. *)
Lemma transform_value (mv : ndarray) (m : memory) (md : list R) :
  value_of (Nd mv) m = Some (Arr [4; 4]%nat md) ->
  exists tv td,
    rows_but_last mv = inr tv
    /\ value_of (Nd (transpose tv)) m = Some (Arr [4; 3]%nat td)
    /\ dt (transpose tv) = dt mv
    /\ (forall j, (j < 3)%nat -> column 4 3 td j = row 4 md j).
Proof.
  intros Hm. pose proof (value_of_length _ _ _ Hm) as Hl. cbn in Hl.
  do 17 (destruct md as [|? md]; try discriminate). clear Hl.
  destruct m as [pre J].
  inv_value Hm.
  eexists _, _. split; [reflexivity|]. split; [|split].
  - repeat match goal with
           | H : _ !! (_ + _ + _)%nat = Some _ |- _ =>
               rewrite Nat.add_shuffle0 in H; revert H
           end.
    intros. rewrite <- (app_nil_r pre). unfold transpose. exec. reflexivity.
  - reflexivity.
  - intros j Hj. destruct j as [|[|[|j]]]; try lia; reflexivity.
Qed.

Lemma row_blocks (blk : nat -> list R) (d n i : nat) :
  (forall i, (i < n)%nat -> length (blk i) = d) -> (i < n)%nat ->
  row d (flat_map blk (seq 0 n)) i = blk i.
Proof.
  intros H. induction n as [|n IH]; intros Hi; [lia|].
  rewrite seq_S, flat_map_app. cbn [plus flat_map]. rewrite app_nil_r.
  assert (Hl : length (flat_map blk (seq 0 n)) = (n * d)%nat)
    by (apply length_blocks_lt; intros; apply H; lia).
  unfold row. destruct (decide (i = n)) as [->|Hne].
  - rewrite drop_app_length' by (symmetry; exact Hl).
    apply take_ge. rewrite H by lia. lia.
  - rewrite drop_app_le by nia. rewrite take_app_le.
    + apply IH; [intros; apply H; lia|lia].
    + rewrite length_drop. nia.
Qed.

(** The two operands of the product that [vector_apply_matrix] computes,
    and the product. *)
Lemma apply_matrix_dot (vectors : array_like) (matrix : ndarray)
    (pre : list (list R)) J (w : R) (bs : list nat) (vd md : list R) :
  value_of vectors (Memory pre J) = Some (Arr (bs ++ [3%nat]) vd) ->
  value_of (Nd matrix) (Memory pre J) = Some (Arr [4; 4]%nat md) ->
  let res := flat_map (fun i => transform_point md w (row 3 vd i))
                      (seq 0 (np_prod bs)) in
  exists hv tv L x y,
    length res = np_prod (bs ++ [3%nat])
    /\ (forall A (k : ndarray -> ndarray -> M A),
          (vectors ← vector_make_homogeneous vectors w None None;
           transform ← mapM_ transpose (lift (rows_but_last matrix));
           k vectors transform) (Memory pre J)
          = k hv (transpose tv) (Memory (pre ++ L) J))
    /\ (forall L', read hv (Memory ((pre ++ L) ++ L') J)
                   = inr (x, Memory ((pre ++ L) ++ L') J))
    /\ (forall L', read (transpose tv) (Memory ((pre ++ L) ++ L') J)
                   = inr (y, Memory ((pre ++ L) ++ L') J))
    /\ np_dot_matrix x y = inr (Arr (bs ++ [3%nat]) res)
    /\ dt hv = dtype_of vectors
    /\ dt (transpose tv) = dt matrix.
Proof.
  intros Hv Hm res.
  pose proof (value_of_length _ _ _ Hv) as Hl. cbn [ashape adata] in Hl.
  rewrite np_prod_snoc in Hl.
  destruct (homogeneous_any vectors pre J w None bs 3 vd Hv)
    as (hv & L & Hrun & Hhv & Hdt). cbn [default] in Hdt.
  destruct (transform_value matrix (Memory (pre ++ L) J) md
              (value_of_extend _ _ _ _ _ Hm))
    as (tv & td & Hrows & Htv & Hdtt & Hcol).
  set (hd := flat_map (fun i => row 3 vd i ++ [w]) (seq 0 (np_prod bs))) in *.
  exists hv, tv, L, (Arr (bs ++ [4%nat]) hd), (Arr [4; 3]%nat td).
  split; [|split; [|split; [|split; [|split; [|split]]]]].
  - unfold res. rewrite np_prod_snoc. apply length_blocks_lt.
    intros i Hi. unfold transform_point. rewrite length_fmap. reflexivity.
  - intros A k. rewrite (bind_inr _ _ _ _ _ Hrun).
    unfold mapM_. rewrite Hrows, bind_bind, bind_lift_inr.
    rewrite bind_inr with
      (1 := eq_refl (ret (transpose tv) (Memory (pre ++ L) J))).
    reflexivity.
  - intros L'. apply value_of_read, value_of_extend, Hhv.
  - intros L'. apply value_of_read, value_of_extend, Htv.
  - rewrite np_dot_matrix_rows. do 2 f_equal. unfold res.
    apply flat_map_ext_seq. intros i Hi. unfold transform_point, hd.
    rewrite row_blocks.
    + apply map_ext_in. intros j Hj. apply in_seq in Hj.
      rewrite Hcol by lia. reflexivity.
    + intros k Hk. rewrite length_app. cbn [length].
      rewrite (length_row 3 (np_prod bs) vd k Hl Hk). reflexivity.
    + exact Hi.
  - exact Hdt.
  - exact Hdtt.
Qed.

Lemma np_dot_new_value (hv tv : ndarray) (B : list (list R)) J (x y r : arr) :
  read hv (Memory B J) = inr (x, Memory B J) ->
  read tv (Memory B J) = inr (y, Memory B J) ->
  np_dot_matrix x y = inr r ->
  length (adata r) = np_prod (ashape r) ->
  exists v,
    np_dot_new hv tv (Memory B J) = inr (v, Memory (B ++ [adata r]) J)
    /\ (forall L, value_of (Nd v) (Memory ((B ++ [adata r]) ++ L) J) = Some r)
    /\ dt v = result_type (dt hv) (dt tv)
    /\ base v = length B.
Proof.
  intros Hx Hy Hdot Hlen. destruct r as [sh res]. cbn [adata ashape] in *.
  destruct (np_array_of_value (Arr sh res) (result_type (dt hv) (dt tv))
              B J Hlen) as (v & Hv1 & Hv2 & Hv3).
  cbn [adata] in Hv1, Hv2. exists v.
  split; [|split; [|split]].
  - unfold np_dot_new. rewrite (bind_inr _ _ _ _ _ Hx).
    rewrite (bind_inr _ _ _ _ _ Hy). cbv beta. rewrite Hdot. exact Hv1.
  - intros L. apply value_of_extend. exact Hv2.
  - exact Hv3.
  - unfold np_array_of in Hv1. revert Hv1. unfold np_array, bind, alloc. cbn.
    intros Hv1. injection Hv1 as <- _. reflexivity.
Qed.

Lemma apply_matrix_fresh (vectors : array_like) (matrix : ndarray)
    (pre : list (list R)) J (w : R) (dtype : option dtype)
    (bs : list nat) (vd md : list R) :
  value_of vectors (Memory pre J) = Some (Arr (bs ++ [3%nat]) vd) ->
  value_of (Nd matrix) (Memory pre J) = Some (Arr [4; 4]%nat md) ->
  exists out L,
    vector_apply_matrix vectors matrix w None dtype (Memory pre J)
    = inr (out, Memory (pre ++ L) J)
    /\ value_of (Nd out) (Memory (pre ++ L) J)
       = Some (Arr (bs ++ [3%nat])
                 (flat_map (fun i => transform_point md w (row 3 vd i))
                           (seq 0 (np_prod bs))))
    /\ dt out = default (result_type (dtype_of vectors) (dt matrix)) dtype.
Proof.
  intros Hv Hm.
  destruct (apply_matrix_dot vectors matrix pre J w bs vd md Hv Hm)
    as (hv & tv & L & x & y & Lres & Hpre & Hx & Hy & Hdot & Hdt & Hdtt).
  set (res := flat_map (fun i => transform_point md w (row 3 vd i))
                       (seq 0 (np_prod bs))) in *.
  specialize (Hx []). specialize (Hy []). rewrite app_nil_r in Hx, Hy.
  destruct (np_dot_new_value hv (transpose tv) (pre ++ L) J x y _ Hx Hy Hdot
              Lres) as (v & Hnew & Hv2 & Hv3 & _).
  cbn [adata] in Hnew, Hv2. rewrite Hdt, Hdtt in Hv3.
  pose proof (Hv2 []) as Hv0. rewrite app_nil_r in Hv0.
  unfold vector_apply_matrix. rewrite Hpre, (bind_inr _ _ _ _ _ Hnew).
  destruct dtype as [d|]; cbn [default].
  - unfold astype. destruct (dtype_eqb (dt v) d) eqn:E.
    + exists v, (L ++ [res]). rewrite app_assoc. repeat split; auto.
      destruct (dt v), d; try discriminate; reflexivity.
    + destruct (np_array_of_value (Arr (bs ++ [3%nat]) res) d
                  ((pre ++ L) ++ [res]) J Lres) as (v' & Hv1' & Hv2' & Hv3').
      cbn [adata] in Hv1', Hv2'.
      exists v', (L ++ [res] ++ [res]). rewrite !app_assoc.
      split; [|split; [exact Hv2'|exact Hv3']].
      rewrite (bind_inr _ _ _ _ _ (value_of_read _ _ _ Hv0)). exact Hv1'.
  - exists v, (L ++ [res]). rewrite app_assoc. repeat split; auto.
Qed.

(** X17.  For vectors of any batch shape [bs ++ [3]] and a 4x4 matrix, both given
    as array objects of element type float32 or float64 (of any strides),
    [vector_apply_matrix] returns a fresh array of shape [bs ++ [3]]: every
    vector [v] is replaced by the first three components of
    [matrix . (v, w)] (in real arithmetic).  Its element type is [dtype]
    (float32 or float64) if that is given, and otherwise the common type of
    the vectors and the matrix.  Both arguments are left as they were.
    Vectors of integers, for which [vector_make_homogeneous] stores a
    truncated [w], are not covered. *)
Theorem vector_apply_matrix_batch (m : memory) (vectors matrix : ndarray)
    (w : R) (dtype : option dtype) (bs : list nat) (vd md : list R) :
  value_of (Nd vectors) m = Some (Arr (bs ++ [3%nat]) vd) ->
  value_of (Nd matrix) m = Some (Arr [4; 4]%nat md) ->
  exists out m',
    vector_apply_matrix (Nd vectors) matrix w None dtype m = inr (out, m')
    /\ value_of (Nd out) m'
       = Some (Arr (bs ++ [3%nat])
                 (flat_map (fun i => transform_point md w (row 3 vd i))
                           (seq 0 (np_prod bs))))
    /\ dt out = default (result_type (dt vectors) (dt matrix)) dtype
    /\ value_of (Nd vectors) m' = Some (Arr (bs ++ [3%nat]) vd)
    /\ value_of (Nd matrix) m' = Some (Arr [4; 4]%nat md).
Proof.
  intros Hv Hm. destruct m as [pre J].
  destruct (apply_matrix_fresh (Nd vectors) matrix pre J w dtype bs vd md
              Hv Hm) as (out & L & Hrun & Hout & Hdt).
  exists out, (Memory (pre ++ L) J). split; [exact Hrun|].
  split; [exact Hout|]. split; [exact Hdt|].
  split; apply value_of_extend; assumption.
Qed.

Lemma vector_apply_matrix_batch_witness :
  let m := Memory [[1; 0; 0; 5; 0; 1; 0; 6; 0; 0; 1; 7; 0; 0; 0; 1];
                   [1; 2; 3; 4; 5; 6]] (fun _ _ => 0) in
  let matrix := NdArray 0 0 [(4, 4); (4, 1)]%nat float64 in
  let v := NdArray 1 0 [(2, 3); (3, 1)]%nat float32 in
  value_of (Nd v) m = Some (Arr ([2%nat] ++ [3%nat]) [1; 2; 3; 4; 5; 6])
  /\ value_of (Nd matrix) m
     = Some (Arr [4; 4]%nat [1; 0; 0; 5; 0; 1; 0; 6; 0; 0; 1; 7; 0; 0; 0; 1])
  /\ exists out m',
       vector_apply_matrix (Nd v) matrix (1 / 2) None None m = inr (out, m')
       /\ value_of (Nd out) m'
          = Some (Arr ([2%nat] ++ [3%nat])
                    (flat_map
                       (fun i =>
                          transform_point
                            [1; 0; 0; 5; 0; 1; 0; 6; 0; 0; 1; 7; 0; 0; 0; 1]
                            (1 / 2) (row 3 [1; 2; 3; 4; 5; 6] i))
                       (seq 0 (np_prod [2%nat]))))
       /\ dt out = default (result_type (dt v) (dt matrix)) None
       /\ value_of (Nd v) m'
          = Some (Arr ([2%nat] ++ [3%nat]) [1; 2; 3; 4; 5; 6])
       /\ value_of (Nd matrix) m'
          = Some (Arr [4; 4]%nat
                    [1; 0; 0; 5; 0; 1; 0; 6; 0; 0; 1; 7; 0; 0; 0; 1]).
Proof.
  split; [reflexivity|]. split; [reflexivity|].
  apply (vector_apply_matrix_batch
           (Memory [[1; 0; 0; 5; 0; 1; 0; 6; 0; 0; 1; 7; 0; 0; 0; 1];
                    [1; 2; 3; 4; 5; 6]] (fun _ _ => 0))
           (NdArray 1 0 [(2, 3); (3, 1)]%nat float32)
           (NdArray 0 0 [(4, 4); (4, 1)]%nat float64) (1 / 2) None
           [2%nat] [1; 2; 3; 4; 5; 6]
           [1; 0; 0; 5; 0; 1; 0; 6; 0; 0; 1; 7; 0; 0; 0; 1]);
    reflexivity.
Defined.

(** ** Storing into a view of a caller's buffer *)

Lemma scatter_length (offs : list nat) (d buf buf' : list R) :
  scatter offs d buf = Some buf' -> length buf' = length buf.
Proof.
  revert d buf. induction offs as [|o offs IH]; intros [|v d] buf H;
    cbn [scatter] in H; try (injection H as <-; reflexivity).
  destruct (o <? length buf)%nat; [|discriminate].
  apply IH in H. rewrite length_insert in H. exact H.
Qed.

Lemma scatter_lookup_other (offs : list nat) (d buf buf' : list R) (o : nat) :
  ~ In o offs -> scatter offs d buf = Some buf' -> buf' !! o = buf !! o.
Proof.
  revert d buf. induction offs as [|o' offs IH]; intros [|v d] buf Hn H;
    cbn [scatter] in H; try (injection H as <-; reflexivity).
  destruct (o' <? length buf)%nat; [|discriminate].
  rewrite (IH _ _ (fun Hi => Hn (or_intror Hi)) H).
  apply list_lookup_insert_ne. intros ->. apply Hn. left. reflexivity.
Qed.

(** Elements stored at offsets that are all different and within the
    buffer are read back as they were stored. *)
Lemma gather_scatter (offs : list nat) (d buf : list R) :
  List.NoDup offs -> length d = length offs ->
  Forall (fun o => o < length buf)%nat offs ->
  exists buf', scatter offs d buf = Some buf' /\ gather buf' offs = Some d.
Proof.
  revert d buf. induction offs as [|o offs IH]; intros [|v d] buf Hnd Hl Hlt;
    try discriminate.
  - exists buf. split; reflexivity.
  - apply List.NoDup_cons_iff in Hnd as [Hno Hnd].
    apply Forall_cons in Hlt as [Ho Hlt]. cbn [scatter].
    apply Nat.ltb_lt in Ho as Ho'. rewrite Ho'.
    destruct (IH d (<[o := v]> buf) Hnd) as (buf' & Hs & Hg).
    + cbn in Hl. lia.
    + rewrite length_insert. exact Hlt.
    + exists buf'. split; [exact Hs|].
      unfold gather in *. cbn [mapM].
      rewrite (scatter_lookup_other _ _ _ _ o Hno Hs).
      rewrite list_lookup_insert_eq by exact Ho. cbn. rewrite Hg. reflexivity.
Qed.

Lemma gather_lt {A} (buf : list A) (offs : list nat) (d : list A) :
  gather buf offs = Some d -> Forall (fun o => o < length buf)%nat offs.
Proof.
  unfold gather. intros H. apply mapM_Some in H.
  induction H as [|o x offs d Hx _ IH]; constructor; [|exact IH].
  eapply lookup_lt_Some. exact Hx.
Qed.

(** Storing [d] through the view [out], whose elements are all different
    elements of its buffer. *)
Lemma poke_view (out : ndarray) (B : list (list R)) J (sh : list nat)
    (od d : list R) :
  value_of (Nd out) (Memory B J) = Some (Arr sh od) ->
  List.NoDup (offsets (dims out) (offset out)) ->
  length d = np_prod sh ->
  exists buf',
    poke (base out) (offsets (dims out) (offset out)) d (Memory B J)
    = inr (tt, Memory (<[base out := buf']> B) J)
    /\ forall L, value_of (Nd out) (Memory (<[base out := buf']> B ++ L) J)
                 = Some (Arr sh d).
Proof.
  intros Ho Hnd Hl.
  pose proof (value_of_length _ _ _ Ho) as Hlo. cbn [ashape adata] in Hlo.
  apply value_of_Nd_inv in Ho as (buf & Hb & Hg & Hs).
  cbn [bufs ashape adata] in Hb, Hg, Hs.
  destruct (gather_scatter (offsets (dims out) (offset out)) d buf Hnd)
    as (buf' & Hsc & Hga).
  - apply length_mapM in Hg. lia.
  - eapply gather_lt. exact Hg.
  - exists buf'. split.
    + unfold poke, store. cbn [bufs junk]. rewrite Hb, Hsc. reflexivity.
    + intros L. unfold value_of, read, load. cbn [bufs].
      rewrite (lookup_insert_old B L (base out) buf buf' Hb), Hga.
      unfold shape. rewrite Hs. reflexivity.
Qed.

Lemma write_out_view (out : ndarray) (B : list (list R)) J (sh : list nat)
    (od d : list R) :
  value_of (Nd out) (Memory B J) = Some (Arr sh od) ->
  List.NoDup (offsets (dims out) (offset out)) ->
  length d = np_prod sh ->
  exists m',
    write_out out (Arr sh d) (Memory B J) = inr (tt, m')
    /\ write out (Arr sh d) (Memory B J) = inr (tt, m')
    /\ value_of (Nd out) m' = Some (Arr sh d).
Proof.
  intros Ho Hnd Hl.
  destruct (poke_view out B J sh od d Ho Hnd Hl) as (buf' & Hp & Hval).
  apply value_of_Nd_inv in Ho as (_ & _ & _ & Hs). cbn [ashape] in Hs.
  exists (Memory (<[base out := buf']> B) J).
  split; [|split].
  - unfold write_out, shape. rewrite Hs, (broadcast_to_same sh d Hl). exact Hp.
  - unfold write, shape. rewrite Hs, (setitem_value_same sh d Hl).
    rewrite bind_lift_inr. exact Hp.
  - specialize (Hval []). rewrite app_nil_r in Hval. exact Hval.
Qed.

(** X18.  For vectors, a matrix and a caller's array [out] that are array objects
    of element type float32 or float64, [out] of the shape of the vectors:
    [vector_apply_matrix] returns [out] holding the transformed vectors (in
    real arithmetic), whether [np.dot] accepts [out] or refuses it.  [out]
    may have either float type and any strides under which its elements are
    distinct, and it may share memory with the vectors or with the matrix.
    Vectors of integers and an [out] of integers, into which the source
    stores truncated numbers, are not covered. *)
Theorem vector_apply_matrix_out (m : memory)
    (vectors matrix out : ndarray) (w : R) (dtype : option dtype)
    (bs : list nat) (vd md od : list R) :
  value_of (Nd vectors) m = Some (Arr (bs ++ [3%nat]) vd) ->
  value_of (Nd matrix) m = Some (Arr [4; 4]%nat md) ->
  value_of (Nd out) m = Some (Arr (bs ++ [3%nat]) od) ->
  List.NoDup (offsets (dims out) (offset out)) ->
  exists m',
    vector_apply_matrix (Nd vectors) matrix w (Some out) dtype m
    = inr (out, m')
    /\ value_of (Nd out) m'
       = Some (Arr (bs ++ [3%nat])
                 (flat_map (fun i => transform_point md w (row 3 vd i))
                           (seq 0 (np_prod bs)))).
Proof.
  intros Hv Hm Ho Hnd. destruct m as [pre J].
  destruct (apply_matrix_dot (Nd vectors) matrix pre J w bs vd md Hv Hm)
    as (hv & tv & L & x & y & Lres & Hpre & Hx & Hy & Hdot & _).
  set (res := flat_map (fun i => transform_point md w (row 3 vd i))
                       (seq 0 (np_prod bs))) in *.
  pose proof (Hx []) as Hx0. pose proof (Hy []) as Hy0.
  rewrite app_nil_r in Hx0, Hy0.
  unfold vector_apply_matrix. rewrite Hpre. unfold except_ValueError.
  unfold np_dot_out at 1.
  rewrite (bind_inr _ _ _ _ _ Hx0), (bind_inr _ _ _ _ _ Hy0). cbv beta.
  rewrite Hdot, bind_lift_inr. cbn [ashape].
  destruct (dtype_eqb (dt out) (result_type (dt hv) (dt (transpose tv)))
            && shape_eqb (shape out) (bs ++ [3%nat])
            && is_c_contiguous out).
  - (* np.dot stores into out *)
    destruct (write_out_view out (pre ++ L) J _ od res
                (value_of_extend _ _ _ _ _ Ho) Hnd Lres)
      as (m' & Hw & _ & Hval).
    exists m'. unfold bind at 1. rewrite Hw. split; [reflexivity|exact Hval].
  - (* np.dot refuses out: the product is copied into it *)
    unfold raise at 1. cbv iota.
    destruct (np_dot_new_value hv (transpose tv) (pre ++ L) J x y _
                Hx0 Hy0 Hdot Lres) as (v & Hnew & Hv2 & _).
    cbn [adata] in Hnew, Hv2.
    pose proof (Hv2 []) as Hv0. rewrite app_nil_r in Hv0.
    assert (Ho' : value_of (Nd out) (Memory ((pre ++ L) ++ [res]) J)
                  = Some (Arr (bs ++ [3%nat]) od)).
    { rewrite <- app_assoc. apply value_of_extend. exact Ho. }
    destruct (write_out_view out _ J _ od res Ho' Hnd Lres)
      as (m' & _ & Hw & Hval).
    exists m'. split; [|exact Hval].
    assert (Hsl : slice_all out = inr out).
    { apply value_of_Nd_inv in Ho as (_ & _ & _ & Hs). cbn [ashape] in Hs.
      unfold slice_all. destruct (dims out); [|reflexivity].
      destruct bs; discriminate. }
    unfold assign. rewrite Hsl, !bind_bind, (bind_inr _ _ _ _ _ Hnew).
    rewrite (bind_inr _ _ _ _ _ (value_of_read _ _ _ Hv0)).
    rewrite bind_bind, bind_lift_inr. unfold bind at 1. rewrite Hw. reflexivity.
Qed.

Lemma vector_apply_matrix_out_witness :
  let m := Memory [[1; 0; 0; 5; 0; 1; 0; 6; 0; 0; 1; 7; 0; 0; 0; 1];
                   [1; 2; 3; 0; 0; 0]] (fun _ _ => 0) in
  let matrix := NdArray 0 0 [(4, 4); (4, 1)]%nat float64 in
  let v := NdArray 1 0 [(3, 1)]%nat float64 in
  let out := NdArray 1 0 [(3, 2)]%nat float64 in
  let res := flat_map (fun i => transform_point
                         [1; 0; 0; 5; 0; 1; 0; 6; 0; 0; 1; 7; 0; 0; 0; 1]
                         (1 / 2) (row 3 [1; 2; 3] i)) (seq 0 (np_prod [])) in
  value_of (Nd v) m = Some (Arr ([] ++ [3%nat]) [1; 2; 3])
  /\ value_of (Nd matrix) m
     = Some (Arr [4; 4]%nat [1; 0; 0; 5; 0; 1; 0; 6; 0; 0; 1; 7; 0; 0; 0; 1])
  /\ value_of (Nd out) m = Some (Arr ([] ++ [3%nat]) [1; 3; 0])
  /\ List.NoDup (offsets (dims out) (offset out))
  /\ exists m',
       vector_apply_matrix (Nd v) matrix (1 / 2) (Some out) None m
       = inr (out, m')
       /\ value_of (Nd out) m' = Some (Arr ([] ++ [3%nat]) res).
Proof.
  assert (Hnd : List.NoDup (offsets [(3, 2)]%nat 0)).
  { cbv. repeat constructor; cbn; intuition discriminate. }
  split; [reflexivity|]. split; [reflexivity|]. split; [reflexivity|].
  split; [exact Hnd|].
  apply (vector_apply_matrix_out
           (Memory [[1; 0; 0; 5; 0; 1; 0; 6; 0; 0; 1; 7; 0; 0; 0; 1];
                    [1; 2; 3; 0; 0; 0]] (fun _ _ => 0))
           (NdArray 1 0 [(3, 1)]%nat float64)
           (NdArray 0 0 [(4, 4); (4, 1)]%nat float64)
           (NdArray 1 0 [(3, 2)]%nat float64) (1 / 2) None
           [] [1; 2; 3] [1; 0; 0; 5; 0; 1; 0; 6; 0; 0; 1; 7; 0; 0; 0; 1]
           [1; 3; 0]); [reflexivity|reflexivity|reflexivity|exact Hnd].
Defined.

Lemma np_dot_matrix_mismatch (bs : list nat) (k : nat) (hd td : list R) :
  k <> 4%nat ->
  np_dot_matrix (Arr (bs ++ [k]) hd) (Arr [4; 3]%nat td) = inl ValueError.
Proof.
  intros Hk. unfold np_dot_matrix. cbn [ashape]. rewrite rev_app_distr.
  cbn [rev app]. apply Nat.eqb_neq in Hk. rewrite Hk. reflexivity.
Qed.

(** X19.  Vectors whose last axis does not have three elements cannot be
    multiplied with the transposed matrix: [vector_apply_matrix] raises
    [ValueError], with or without [out]. *)
Theorem vector_apply_matrix_wrong_length (m : memory) (vectors : array_like)
    (matrix : ndarray) (w : R) (out : option ndarray) (dtype : option dtype)
    (bs : list nat) (d : nat) (vd md : list R) :
  value_of vectors m = Some (Arr (bs ++ [d]) vd) ->
  value_of (Nd matrix) m = Some (Arr [4; 4]%nat md) ->
  d <> 3%nat ->
  vector_apply_matrix vectors matrix w out dtype m = inl ValueError.
Proof.
  intros Hv Hm Hd. destruct m as [pre J].
  destruct (homogeneous_any vectors pre J w None bs d vd Hv)
    as (hv & L & Hrun & Hhv & _).
  destruct (transform_value matrix (Memory (pre ++ L) J) md
              (value_of_extend _ _ _ _ _ Hm))
    as (tv & td & Hrows & Htv & _).
  assert (Hdot : forall hd, np_dot_matrix (Arr (bs ++ [S d]) hd)
                              (Arr [4; 3]%nat td) = inl ValueError).
  { intros hd. apply np_dot_matrix_mismatch. lia. }
  assert (Hnew : np_dot_new hv (transpose tv) (Memory (pre ++ L) J)
                 = inl ValueError).
  { unfold np_dot_new.
    rewrite (bind_inr _ _ _ _ _ (value_of_read _ _ _ Hhv)).
    rewrite (bind_inr _ _ _ _ _ (value_of_read _ _ _ Htv)).
    cbv beta. rewrite Hdot. reflexivity. }
  unfold vector_apply_matrix. rewrite (bind_inr _ _ _ _ _ Hrun).
  unfold mapM_. rewrite Hrows, bind_bind, bind_lift_inr.
  rewrite bind_inr with
    (1 := eq_refl (ret (transpose tv) (Memory (pre ++ L) J))).
  destruct out as [out|].
  - unfold except_ValueError, np_dot_out at 1.
    rewrite (bind_inr _ _ _ _ _ (value_of_read _ _ _ Hhv)).
    rewrite (bind_inr _ _ _ _ _ (value_of_read _ _ _ Htv)).
    cbv beta. rewrite Hdot. cbn [lift]. unfold bind at 1, raise at 1.
    unfold assign. rewrite !bind_bind. unfold bind at 1. rewrite Hnew.
    reflexivity.
  - unfold bind at 1. rewrite Hnew. reflexivity.
Qed.

Lemma vector_apply_matrix_wrong_length_witness :
  let m := Memory [[1; 0; 0; 5; 0; 1; 0; 6; 0; 0; 1; 7; 0; 0; 0; 1]]
                  (fun _ _ => 0) in
  let matrix := NdArray 0 0 [(4, 4); (4, 1)]%nat float64 in
  let v := Seq (Arr ([] ++ [4%nat]) [1; 2; 3; 1]) in
  value_of v m = Some (Arr ([] ++ [4%nat]) [1; 2; 3; 1])
  /\ value_of (Nd matrix) m
     = Some (Arr [4; 4]%nat [1; 0; 0; 5; 0; 1; 0; 6; 0; 0; 1; 7; 0; 0; 0; 1])
  /\ 4%nat <> 3%nat
  /\ vector_apply_matrix v matrix 1 None None m = inl ValueError.
Proof.
  split; [reflexivity|]. split; [reflexivity|]. split; [lia|].
  apply (vector_apply_matrix_wrong_length
           (Memory [[1; 0; 0; 5; 0; 1; 0; 6; 0; 0; 1; 7; 0; 0; 0; 1]]
                   (fun _ _ => 0))
           (Seq (Arr ([] ++ [4%nat]) [1; 2; 3; 1]))
           (NdArray 0 0 [(4, 4); (4, 1)]%nat float64) 1 None None
           [] 4 [1; 2; 3; 1]
           [1; 0; 0; 5; 0; 1; 0; 6; 0; 0; 1; 7; 0; 0; 0; 1]);
    [reflexivity|reflexivity|lia].
Defined.

(** ** Rotating vectors with the matrix of a quaternion *)

Lemma to_matrix_single (q : array_like) (pre : list (list R)) J
    (d : option dtype) (x y z w : R) :
  value_of q (Memory pre J) = Some (Arr [4%nat] [x; y; z; w]) ->
  exists out L,
    quaternion_to_matrix q None d (Memory pre J)
    = inr (out, Memory (pre ++ L) J)
    /\ value_of (Nd out) (Memory (pre ++ L) J)
       = Some (Arr [4; 4]%nat (rotation_matrix x y z w)).
Proof.
  intros Hq.
  destruct (np_asarray_value q pre J _ Hq) as (v & L & Hv & Ha).
  destruct (to_matrix_fresh v (pre ++ L) J [] [x; y; z; w] d Ha)
    as (out & L' & Hrun & Hout & _).
  exists out, (L ++ L'). rewrite app_assoc. split; [|exact Hout].
  rewrite <- Hrun. unfold quaternion_to_matrix at 1.
  rewrite (bind_inr _ _ _ _ _ Hv). reflexivity.
Qed.

(** The vector that the matrix of the quaternion [(x, y, z, w)] makes of
    [(vx, vy, vz)]. *)
Lemma rotate_single (q v : array_like) (pre : list (list R)) J (w0 : R)
    (x y z w vx vy vz : R) :
  value_of q (Memory pre J) = Some (Arr [4%nat] [x; y; z; w]) ->
  value_of v (Memory pre J) = Some (Arr [3%nat] [vx; vy; vz]) ->
  exists out L,
    (mat ← quaternion_to_matrix q None None;
     vector_apply_matrix v mat w0 None None) (Memory pre J)
    = inr (out, Memory (pre ++ L) J)
    /\ value_of (Nd out) (Memory (pre ++ L) J)
       = Some (Arr [3%nat]
                 (transform_point (rotation_matrix x y z w) w0 [vx; vy; vz])).
Proof.
  intros Hq Hv.
  destruct (to_matrix_single q pre J None x y z w Hq)
    as (mat & L & Hmat & Vmat).
  destruct (apply_matrix_fresh v mat (pre ++ L) J w0 None [] [vx; vy; vz]
              (rotation_matrix x y z w)
              (value_of_extend _ _ _ _ _ Hv) Vmat)
    as (out & L' & Hrun & Vout & _).
  exists out, (L ++ L'). rewrite app_assoc. split; [|exact Vout].
  rewrite (bind_inr _ _ _ _ _ Hmat). exact Hrun.
Qed.

Ltac list_ring := repeat (apply (f_equal2 cons); [ring|]); reflexivity.

(** For a quaternion of norm 1 the matrix acts as the conjugation
    [q * (v, 0) * q^-1]. *)
Lemma rotation_conjugation (x y z w vx vy vz w0 : R) :
  x * x + y * y + z * z + w * w = 1 ->
  transform_point (rotation_matrix x y z w) w0 [vx; vy; vz] ++ [0]
  = hamilton (hamilton [x; y; z; w] [vx; vy; vz; 0]) (conjugate [x; y; z; w]).
Proof.
  intros Hn. unfold transform_point, rotation_matrix, row, Rsum.
  cbn. rewrite <- Hn. list_ring.
Qed.

(** X20.  Rotating a vector with the matrix of a unit quaternion [q] gives the
    vector part of [q * (v, 0) * quaternion_inverse(q)], whose scalar part
    is 0. *)
Theorem rotation_matrix_is_conjugation (m : memory) (q v p : array_like)
    (w0 x y z w vx vy vz : R) :
  value_of q m = Some (Arr [4%nat] [x; y; z; w]) ->
  value_of v m = Some (Arr [3%nat] [vx; vy; vz]) ->
  value_of p m = Some (Arr [4%nat] [vx; vy; vz; 0]) ->
  x * x + y * y + z * z + w * w = 1 ->
  exists out1 m1 out2 m2 r,
    (mat ← quaternion_to_matrix q None None;
     vector_apply_matrix v mat w0 None None) m = inr (out1, m1)
    /\ (qp ← quaternion_multiply q p None None;
        qi ← quaternion_inverse q None None;
        quaternion_multiply (Nd qp) (Nd qi) None None) m = inr (out2, m2)
    /\ value_of (Nd out1) m1 = Some (Arr [3%nat] r)
    /\ value_of (Nd out2) m2 = Some (Arr [4%nat] (r ++ [0])).
Proof.
  intros Hq Hv Hp Hn. destruct m as [pre J].
  destruct (rotate_single q v pre J w0 x y z w vx vy vz Hq Hv)
    as (out1 & L1 & Hrun1 & V1).
  destruct (multiply_fresh pre J q p None _ _ _ _ _ _ _ _ Hq Hp)
    as (qp & L2 & Hqp & Vqp).
  destruct (inverse_fresh (pre ++ L2) J q None _ _ _ _
              (value_of_extend _ _ _ _ _ Hq)) as (qi & L3 & Hqi & Vqi).
  cbn [hamilton conjugate] in Vqp, Vqi.
  destruct (multiply_fresh ((pre ++ L2) ++ L3) J (Nd qp) (Nd qi) None
              _ _ _ _ _ _ _ _ (value_of_extend _ _ _ _ _ Vqp) Vqi)
    as (out2 & L4 & Hrun2 & V2).
  eexists out1, _, out2, _, _. split; [|split; [|split]].
  - exact Hrun1.
  - eapply bind_run; [eauto|]. eapply bind_run; eauto.
  - exact V1.
  - rewrite V2, (rotation_conjugation x y z w vx vy vz w0 Hn). reflexivity.
Qed.

Lemma rotation_matrix_is_conjugation_witness :
  let m := Memory [] (fun _ _ => 0) in
  let q := Seq (Arr [4%nat] [0; 0; 1; 0]) in
  let v := Seq (Arr [3%nat] [1; 2; 3]) in
  let p := Seq (Arr [4%nat] [1; 2; 3; 0]) in
  value_of q m = Some (Arr [4%nat] [0; 0; 1; 0])
  /\ value_of v m = Some (Arr [3%nat] [1; 2; 3])
  /\ value_of p m = Some (Arr [4%nat] [1; 2; 3; 0])
  /\ 0 * 0 + 0 * 0 + 1 * 1 + 0 * 0 = 1
  /\ exists out1 m1 out2 m2 r,
       (mat ← quaternion_to_matrix q None None;
        vector_apply_matrix v mat 1 None None) m = inr (out1, m1)
       /\ (qp ← quaternion_multiply q p None None;
           qi ← quaternion_inverse q None None;
           quaternion_multiply (Nd qp) (Nd qi) None None) m = inr (out2, m2)
       /\ value_of (Nd out1) m1 = Some (Arr [3%nat] r)
       /\ value_of (Nd out2) m2 = Some (Arr [4%nat] (r ++ [0])).
Proof.
  split; [reflexivity|]. split; [reflexivity|]. split; [reflexivity|].
  split; [lra|].
  apply (rotation_matrix_is_conjugation
           (Memory [] (fun _ _ => 0)) (Seq (Arr [4%nat] [0; 0; 1; 0]))
           (Seq (Arr [3%nat] [1; 2; 3])) (Seq (Arr [4%nat] [1; 2; 3; 0]))
           1 0 0 1 0 1 2 3); [reflexivity|reflexivity|reflexivity|lra].
Defined.

Lemma rotation_norm (x y z w vx vy vz w0 : R) :
  x * x + y * y + z * z + w * w = 1 ->
  sumsq (transform_point (rotation_matrix x y z w) w0 [vx; vy; vz])
  = sumsq [vx; vy; vz].
Proof.
  intros Hn.
  transitivity ((x * x + y * y + z * z + w * w)
                * (x * x + y * y + z * z + w * w) * sumsq [vx; vy; vz]).
  - unfold transform_point, rotation_matrix, row, sumsq, Rsum. cbn.
    rewrite <- Hn. ring.
  - rewrite Hn. ring.
Qed.

(** X21.  The matrix of a unit quaternion preserves the length of every vector
    it is applied to. *)
Theorem rotation_matrix_preserves_norm (m : memory) (q v : array_like)
    (w0 x y z w vx vy vz : R) :
  value_of q m = Some (Arr [4%nat] [x; y; z; w]) ->
  value_of v m = Some (Arr [3%nat] [vx; vy; vz]) ->
  x * x + y * y + z * z + w * w = 1 ->
  exists out m' r,
    (mat ← quaternion_to_matrix q None None;
     vector_apply_matrix v mat w0 None None) m = inr (out, m')
    /\ value_of (Nd out) m' = Some (Arr [3%nat] r)
    /\ sqrt (sumsq r) = sqrt (sumsq [vx; vy; vz]).
Proof.
  intros Hq Hv Hn. destruct m as [pre J].
  destruct (rotate_single q v pre J w0 x y z w vx vy vz Hq Hv)
    as (out & L & Hrun & Vout).
  eexists out, _, _. split; [exact Hrun|]. split; [exact Vout|].
  rewrite (rotation_norm x y z w vx vy vz w0 Hn). reflexivity.
Qed.

Lemma rotation_matrix_preserves_norm_witness :
  let m := Memory [] (fun _ _ => 0) in
  let q := Seq (Arr [4%nat] [0; 0; 1; 0]) in
  let v := Seq (Arr [3%nat] [1; 2; 3]) in
  value_of q m = Some (Arr [4%nat] [0; 0; 1; 0])
  /\ value_of v m = Some (Arr [3%nat] [1; 2; 3])
  /\ 0 * 0 + 0 * 0 + 1 * 1 + 0 * 0 = 1
  /\ exists out m' r,
       (mat ← quaternion_to_matrix q None None;
        vector_apply_matrix v mat 1 None None) m = inr (out, m')
       /\ value_of (Nd out) m' = Some (Arr [3%nat] r)
       /\ sqrt (sumsq r) = sqrt (sumsq [1; 2; 3]).
Proof.
  split; [reflexivity|]. split; [reflexivity|]. split; [lra|].
  apply (rotation_matrix_preserves_norm
           (Memory [] (fun _ _ => 0)) (Seq (Arr [4%nat] [0; 0; 1; 0]))
           (Seq (Arr [3%nat] [1; 2; 3])) 1 0 0 1 0 1 2 3);
    [reflexivity|reflexivity|lra].
Defined.

Lemma hamilton_norm (ax ay az aw bx by_ bz bw : R) :
  sumsq (hamilton [ax; ay; az; aw] [bx; by_; bz; bw])
  = sumsq [ax; ay; az; aw] * sumsq [bx; by_; bz; bw].
Proof. unfold sumsq, Rsum. cbn. ring. Qed.

(** X22.  The matrix of a product of unit quaternions is the composition of
    their matrices: applying the matrix of [b] and then the matrix of [a]
    to a vector gives what the matrix of [quaternion_multiply(a, b)]
    gives. *)
Theorem rotation_matrix_of_product (m : memory) (a b v : array_like)
    (w0 ax ay az aw bx by_ bz bw vx vy vz : R) :
  value_of a m = Some (Arr [4%nat] [ax; ay; az; aw]) ->
  value_of b m = Some (Arr [4%nat] [bx; by_; bz; bw]) ->
  value_of v m = Some (Arr [3%nat] [vx; vy; vz]) ->
  ax * ax + ay * ay + az * az + aw * aw = 1 ->
  bx * bx + by_ * by_ + bz * bz + bw * bw = 1 ->
  exists out1 m1 out2 m2 r,
    (ab ← quaternion_multiply a b None None;
     mat ← quaternion_to_matrix (Nd ab) None None;
     vector_apply_matrix v mat w0 None None) m = inr (out1, m1)
    /\ (mb ← quaternion_to_matrix b None None;
        vb ← vector_apply_matrix v mb w0 None None;
        ma ← quaternion_to_matrix a None None;
        vector_apply_matrix (Nd vb) ma w0 None None) m = inr (out2, m2)
    /\ value_of (Nd out1) m1 = Some (Arr [3%nat] r)
    /\ value_of (Nd out2) m2 = Some (Arr [3%nat] r).
Proof.
  intros Ha Hb Hv Hna Hnb. destruct m as [pre J].
  destruct (multiply_fresh pre J a b None _ _ _ _ _ _ _ _ Ha Hb)
    as (ab & L1 & Hab & Vab).
  assert (Hnab : sumsq (hamilton [ax; ay; az; aw] [bx; by_; bz; bw]) = 1).
  { rewrite hamilton_norm. unfold sumsq, Rsum. cbn. nra. }
  cbn [hamilton] in Vab, Hnab.
  match type of Vab with
  | _ = Some (Arr _ [?x; ?y; ?z; ?w]) =>
      assert (Hn : x * x + y * y + z * z + w * w = 1)
        by (rewrite <- Hnab; unfold sumsq, Rsum; cbn; ring);
      destruct (rotate_single (Nd ab) v (pre ++ L1) J w0 x y z w vx vy vz Vab
                  (value_of_extend _ _ _ _ _ Hv))
        as (out1 & L2 & Hrun1 & V1);
      pose proof (rotation_conjugation x y z w vx vy vz w0 Hn) as E1
  end.
  destruct (rotate_single b v pre J w0 bx by_ bz bw vx vy vz Hb Hv)
    as (vb & L3 & Hvb & Vvb).
  pose proof (rotation_conjugation bx by_ bz bw vx vy vz w0 Hnb) as E2.
  assert (Hu : exists u0 u1 u2,
             transform_point (rotation_matrix bx by_ bz bw) w0 [vx; vy; vz]
             = [u0; u1; u2])
    by (unfold transform_point; do 3 eexists; reflexivity).
  destruct Hu as (u0 & u1 & u2 & Eu). rewrite Eu in Vvb, E2.
  destruct (rotate_single a (Nd vb) (pre ++ L3) J w0 ax ay az aw u0 u1 u2
              (value_of_extend _ _ _ _ _ Ha) Vvb)
    as (out2 & L4 & Hrun2 & V2).
  pose proof (rotation_conjugation ax ay az aw u0 u1 u2 w0 Hna) as E3.
  eexists out1, _, out2, _, _. split; [|split; [|split]].
  - eapply bind_run; [eauto|]. exact Hrun1.
  - rewrite <- (bind_bind (quaternion_to_matrix b None None)
                  (fun mb => vector_apply_matrix v mb w0 None None)
                  (fun vb => ma ← quaternion_to_matrix a None None;
                             vector_apply_matrix (Nd vb) ma w0 None None)).
    rewrite (bind_inr _ _ _ _ _ Hvb). exact Hrun2.
  - exact V1.
  - rewrite V2. do 2 f_equal. apply (app_inv_tail [0]). rewrite E1, E3.
    cbn in E2. injection E2 as -> -> -> _. cbn. list_ring.
Qed.

Lemma rotation_matrix_of_product_witness :
  let m := Memory [] (fun _ _ => 0) in
  let a := Seq (Arr [4%nat] [1; 0; 0; 0]) in
  let b := Seq (Arr [4%nat] [0; 1; 0; 0]) in
  let v := Seq (Arr [3%nat] [1; 2; 3]) in
  value_of a m = Some (Arr [4%nat] [1; 0; 0; 0])
  /\ value_of b m = Some (Arr [4%nat] [0; 1; 0; 0])
  /\ value_of v m = Some (Arr [3%nat] [1; 2; 3])
  /\ 1 * 1 + 0 * 0 + 0 * 0 + 0 * 0 = 1
  /\ 0 * 0 + 1 * 1 + 0 * 0 + 0 * 0 = 1
  /\ exists out1 m1 out2 m2 r,
       (ab ← quaternion_multiply a b None None;
        mat ← quaternion_to_matrix (Nd ab) None None;
        vector_apply_matrix v mat 1 None None) m = inr (out1, m1)
       /\ (mb ← quaternion_to_matrix b None None;
           vb ← vector_apply_matrix v mb 1 None None;
           ma ← quaternion_to_matrix a None None;
           vector_apply_matrix (Nd vb) ma 1 None None) m = inr (out2, m2)
       /\ value_of (Nd out1) m1 = Some (Arr [3%nat] r)
       /\ value_of (Nd out2) m2 = Some (Arr [3%nat] r).
Proof.
  split; [reflexivity|]. split; [reflexivity|]. split; [reflexivity|].
  split; [lra|]. split; [lra|].
  apply (rotation_matrix_of_product
           (Memory [] (fun _ _ => 0)) (Seq (Arr [4%nat] [1; 0; 0; 0]))
           (Seq (Arr [4%nat] [0; 1; 0; 0])) (Seq (Arr [3%nat] [1; 2; 3]))
           1 1 0 0 0 0 1 0 0 1 2 3);
    [reflexivity|reflexivity|reflexivity|lra|lra].
Defined.

(** ** The quaternion of an axis and an angle *)

(** X23.  For an axis that is not zero and an angle given as a number,
    [quaternion_make_from_axis_angle] returns
    [(axis / |axis| * sin(angle / 2), cos(angle / 2))]. *)
Theorem axis_angle_formula (m : memory) (axis : array_like)
    (dtype : option dtype) (x y z t : R) :
  value_of axis m = Some (Arr [3%nat] [x; y; z]) ->
  [x; y; z] <> [0; 0; 0] ->
  exists r m',
    quaternion_make_from_axis_angle axis (Num t) None dtype m = inr (r, m')
    /\ value_of (Nd r) m'
       = Some (Arr [4%nat]
                 [x / sqrt (sumsq [x; y; z]) * sin (t / 2);
                  y / sqrt (sumsq [x; y; z]) * sin (t / 2);
                  z / sqrt (sumsq [x; y; z]) * sin (t / 2);
                  cos (t / 2)]).
Proof.
  intros Ha Hnz.
  destruct m as [pre J]. rewrite <- (app_nil_r pre).
  destruct axis as [r|a|[b o ds [|]]]; inv_value Ha.
  1-2: eexists _, _;
    (split; [unfold quaternion_make_from_axis_angle; exec; reflexivity|]);
    exec; reflexivity.
  mutated_axis.
  eexists _, _; (split; [exec_axis_angle|]); exec; reflexivity.
Qed.

Lemma axis_angle_formula_witness :
  let m := Memory [] (fun _ _ => 0) in
  let axis := Seq (Arr [3%nat] [0; 0; 2]) in
  value_of axis m = Some (Arr [3%nat] [0; 0; 2])
  /\ [0; 0; 2] <> [0; 0; 0]
  /\ exists r m',
       quaternion_make_from_axis_angle axis (Num PI) None None m
       = inr (r, m')
       /\ value_of (Nd r) m'
          = Some (Arr [4%nat]
                    [0 / sqrt (sumsq [0; 0; 2]) * sin (PI / 2);
                     0 / sqrt (sumsq [0; 0; 2]) * sin (PI / 2);
                     2 / sqrt (sumsq [0; 0; 2]) * sin (PI / 2);
                     cos (PI / 2)]).
Proof.
  assert (Hnz : [0; 0; 2] <> [0; 0; 0])
    by (intros H; injection H as H; lra).
  split; [reflexivity|]. split; [exact Hnz|].
  apply (axis_angle_formula (Memory [] (fun _ _ => 0))
           (Seq (Arr [3%nat] [0; 0; 2])) None 0 0 2 PI);
    [reflexivity|exact Hnz].
Defined.

Lemma rodrigues (kx ky kz t vx vy vz w0 : R) :
  kx * kx + ky * ky + kz * kz = 1 ->
  transform_point
    (rotation_matrix (kx * sin (t / 2)) (ky * sin (t / 2))
                     (kz * sin (t / 2)) (cos (t / 2)))
    w0 [vx; vy; vz]
  = [vx * cos t + (ky * vz - kz * vy) * sin t
     + kx * (kx * vx + ky * vy + kz * vz) * (1 - cos t);
     vy * cos t + (kz * vx - kx * vz) * sin t
     + ky * (kx * vx + ky * vy + kz * vz) * (1 - cos t);
     vz * cos t + (kx * vy - ky * vx) * sin t
     + kz * (kx * vx + ky * vy + kz * vz) * (1 - cos t)].
Proof.
  intros Hk.
  assert (Hc : cos t = 1 - 2 * sin (t / 2) * sin (t / 2)).
  { rewrite <- cos_2a_sin. f_equal. field. }
  assert (Hs : sin t = 2 * sin (t / 2) * cos (t / 2)).
  { rewrite <- sin_2a. f_equal. field. }
  rewrite Hc, Hs. clear Hc Hs.
  generalize (sin (t / 2)) (cos (t / 2)). intros s c.
  unfold transform_point, rotation_matrix, row, Rsum. cbn.
  apply (f_equal2 cons); [|apply (f_equal2 cons); [|apply (f_equal2 cons)]];
    try reflexivity.
  - apply Rminus_diag_uniq.
    match goal with |- ?l - ?r = 0 =>
      replace (l - r)
        with (2 * s * s * vx * (1 - (kx * kx + ky * ky + kz * kz))) by ring
    end.
    rewrite Hk. ring.
  - apply Rminus_diag_uniq.
    match goal with |- ?l - ?r = 0 =>
      replace (l - r)
        with (2 * s * s * vy * (1 - (kx * kx + ky * ky + kz * kz))) by ring
    end.
    rewrite Hk. ring.
  - apply Rminus_diag_uniq.
    match goal with |- ?l - ?r = 0 =>
      replace (l - r)
        with (2 * s * s * vz * (1 - (kx * kx + ky * ky + kz * kz))) by ring
    end.
    rewrite Hk. ring.
Qed.

(** X24.  The matrix of the quaternion [(k sin(t/2), cos(t/2))] of a unit axis
    [k] turns every vector by the angle [t] about [k], counter-clockwise
    seen from the tip of [k] (Rodrigues' formula):
    [v cos t + (k x v) sin t + k (k . v) (1 - cos t)]. *)
Theorem rotation_matrix_rodrigues (m : memory) (q v : array_like)
    (w0 kx ky kz t vx vy vz : R) :
  value_of q m
  = Some (Arr [4%nat] [kx * sin (t / 2); ky * sin (t / 2);
                       kz * sin (t / 2); cos (t / 2)]) ->
  value_of v m = Some (Arr [3%nat] [vx; vy; vz]) ->
  kx * kx + ky * ky + kz * kz = 1 ->
  exists out m',
    (mat ← quaternion_to_matrix q None None;
     vector_apply_matrix v mat w0 None None) m = inr (out, m')
    /\ value_of (Nd out) m'
       = Some (Arr [3%nat]
                 [vx * cos t + (ky * vz - kz * vy) * sin t
                  + kx * (kx * vx + ky * vy + kz * vz) * (1 - cos t);
                  vy * cos t + (kz * vx - kx * vz) * sin t
                  + ky * (kx * vx + ky * vy + kz * vz) * (1 - cos t);
                  vz * cos t + (kx * vy - ky * vx) * sin t
                  + kz * (kx * vx + ky * vy + kz * vz) * (1 - cos t)]).
Proof.
  intros Hq Hv Hk. destruct m as [pre J].
  destruct (rotate_single q v pre J w0 _ _ _ _ vx vy vz Hq Hv)
    as (out & L & Hrun & Vout).
  exists out, (Memory (pre ++ L) J). split; [exact Hrun|].
  rewrite Vout, (rodrigues kx ky kz t vx vy vz w0 Hk). reflexivity.
Qed.

Lemma rotation_matrix_rodrigues_witness :
  let m := Memory [] (fun _ _ => 0) in
  let q := Seq (Arr [4%nat] [0 * sin (PI / 2); 0 * sin (PI / 2);
                             1 * sin (PI / 2); cos (PI / 2)]) in
  let v := Seq (Arr [3%nat] [1; 0; 0]) in
  value_of q m
  = Some (Arr [4%nat] [0 * sin (PI / 2); 0 * sin (PI / 2);
                       1 * sin (PI / 2); cos (PI / 2)])
  /\ value_of v m = Some (Arr [3%nat] [1; 0; 0])
  /\ 0 * 0 + 0 * 0 + 1 * 1 = 1
  /\ exists out m',
       (mat ← quaternion_to_matrix q None None;
        vector_apply_matrix v mat 1 None None) m = inr (out, m')
       /\ value_of (Nd out) m'
          = Some (Arr [3%nat]
                    [1 * cos PI + (0 * 0 - 1 * 0) * sin PI
                     + 0 * (0 * 1 + 0 * 0 + 1 * 0) * (1 - cos PI);
                     0 * cos PI + (1 * 1 - 0 * 0) * sin PI
                     + 0 * (0 * 1 + 0 * 0 + 1 * 0) * (1 - cos PI);
                     0 * cos PI + (0 * 0 - 0 * 1) * sin PI
                     + 1 * (0 * 1 + 0 * 0 + 1 * 0) * (1 - cos PI)]).
Proof.
  split; [reflexivity|]. split; [reflexivity|]. split; [lra|].
  apply (rotation_matrix_rodrigues
           (Memory [] (fun _ _ => 0))
           (Seq (Arr [4%nat] [0 * sin (PI / 2); 0 * sin (PI / 2);
                              1 * sin (PI / 2); cos (PI / 2)]))
           (Seq (Arr [3%nat] [1; 0; 0])) 1 0 0 1 PI 1 0 0);
    [reflexivity|reflexivity|lra].
Defined.

(** ** The quaternion between two vectors *)

Lemma np_asarray_float_same (v : ndarray) (m : memory) :
  dt v = float64 -> np_asarray_float (Nd v) m = inr (v, m).
Proof. intros H. unfold np_asarray_float. rewrite H. reflexivity. Qed.

(** The call on two float64 arrays, which [np.asarray] returns as they
    are. *)
Lemma unit_vectors_arrays
    (pre : list (list R)) J (sv tv : ndarray) (dtype : option dtype)
    (sx sy sz tx ty tz : R) :
  value_of (Nd sv) (Memory pre J) = Some (Arr [3%nat] [sx; sy; sz]) ->
  value_of (Nd tv) (Memory pre J) = Some (Arr [3%nat] [tx; ty; tz]) ->
  dt sv = float64 -> dt tv = float64 ->
  exists out L,
    quaternion_make_from_unit_vectors (Nd sv) (Nd tv) None dtype (Memory pre J)
    = inr (out, Memory (pre ++ L) J)
    /\ value_of (Nd out) (Memory (pre ++ L) J)
       = Some (Arr [4%nat] (axis_angle_quaternion
                              (rotation_axis [sx; sy; sz] [tx; ty; tz])
                              (rotation_angle [sx; sy; sz] [tx; ty; tz]))).
Proof.
  intros Hs Ht Ds Dt.
  destruct sv as [b o ds d], tv as [b' o' ds' d']. cbn in Ds, Dt. subst d d'.
  unfold rotation_axis, rotation_angle, cross, dot. cbn [nth zip_with].
  destruct (Req_dec_T _ 0) as [Hp|Hp].
  - unfold fallback_axis.
    destruct (Req_dec_T sz 0) as [Hz|Hz];
      [|destruct (Req_dec_T sy 0) as [Hy|Hy]].
    all: inv_value Hs; inv_value Ht.
    all: eexists _, _.
    all: (split; [rewrite <- (app_nil_r pre) at 1;
                  unfold quaternion_make_from_unit_vectors,
                    unit_vectors_axis_angle; exec; rewrite Hp; exec_R;
                  unfold quaternion_make_from_axis_angle; exec;
                  reflexivity|]).
    all: exec.
    all: unfold axis_angle_quaternion, normalized; cbn [map fmap list_fmap app].
    all: rewrite ?Hp; first [reflexivity | repeat f_equal; ring].
  - inv_value Hs; inv_value Ht.
    eexists _, _.
    split; [rewrite <- (app_nil_r pre) at 1;
            unfold quaternion_make_from_unit_vectors,
              unit_vectors_axis_angle; exec; exec_R;
            unfold quaternion_make_from_axis_angle; exec;
            reflexivity|].
    exec. reflexivity.
Qed.

Lemma unit_vectors_fresh
    (pre : list (list R)) J (source target : array_like) (dtype : option dtype)
    (sx sy sz tx ty tz : R) :
  value_of source (Memory pre J) = Some (Arr [3%nat] [sx; sy; sz]) ->
  value_of target (Memory pre J) = Some (Arr [3%nat] [tx; ty; tz]) ->
  exists out L,
    quaternion_make_from_unit_vectors source target None dtype (Memory pre J)
    = inr (out, Memory (pre ++ L) J)
    /\ value_of (Nd out) (Memory (pre ++ L) J)
       = Some (Arr [4%nat] (axis_angle_quaternion
                              (rotation_axis [sx; sy; sz] [tx; ty; tz])
                              (rotation_angle [sx; sy; sz] [tx; ty; tz]))).
Proof.
  intros Hs Ht.
  destruct (np_asarray_float_value source pre J _ Hs)
    as (sv & L1 & Hsv & Vs & Ds).
  destruct (np_asarray_float_value target (pre ++ L1) J _
              (value_of_extend _ _ _ _ _ Ht)) as (tv & L2 & Htv & Vt & Dt).
  destruct (unit_vectors_arrays ((pre ++ L1) ++ L2) J sv tv dtype
              sx sy sz tx ty tz (value_of_extend _ _ _ _ _ Vs) Vt Ds Dt)
    as (out & L & Hrun & Vout).
  exists out, (L1 ++ L2 ++ L). rewrite !app_assoc. split; [|exact Vout].
  rewrite <- Hrun.
  unfold quaternion_make_from_unit_vectors, unit_vectors_axis_angle.
  rewrite !bind_bind.
  rewrite (bind_inr _ _ _ _ _ Hsv).
  rewrite (bind_inr _ _ _ _ _ (np_asarray_float_same sv _ Ds)).
  rewrite !bind_bind.
  rewrite (bind_inr _ _ _ _ _ Htv).
  rewrite (bind_inr _ _ _ _ _ (np_asarray_float_same tv _ Dt)).
  reflexivity.
Qed.

(** [np.arctan2] of a point of the unit circle is the angle of the point. *)
Lemma arctan2_unit_circle (y x : R) :
  x * x + y * y = 1 ->
  cos (np_arctan2 y x) = x /\ sin (np_arctan2 y x) = y.
Proof.
  intros H. unfold np_arctan2.
  assert (Hsq : forall a, 0 < a -> a * a = x * x ->
                          sqrt (1 + (y / x)²) = 1 / a).
  { intros a Ha Hax. assert (x <> 0) by nra.
    replace (1 + (y / x)²) with ((1 / a)²).
    - apply sqrt_Rsqr. apply Rlt_le, Rdiv_lt_0_compat; lra.
    - unfold Rsqr. apply (Rmult_eq_reg_r (a * a)); [|nra].
      rewrite Hax at 2. field_simplify; [|assumption|lra]. nra. }
  destruct (Rlt_dec 0 x) as [Hx|Hx]; [|destruct (Rlt_dec x 0) as [Hx'|Hx']].
  - rewrite cos_atan, sin_atan, (Hsq x Hx eq_refl). split; field; lra.
  - assert (Hs' : sqrt (1 + (y / x)²) = 1 / - x) by (apply Hsq; lra).
    destruct (Rlt_dec y 0).
    + unfold Rminus. rewrite cos_plus, sin_plus, cos_neg, sin_neg.
      rewrite cos_PI, sin_PI, cos_atan, sin_atan, Hs'. split; field; lra.
    + rewrite neg_cos, neg_sin, cos_atan, sin_atan, Hs'. split; field; lra.
  - assert (x = 0) by lra. subst x.
    destruct (Rlt_dec 0 y); [|destruct (Rlt_dec y 0)].
    + rewrite cos_PI2, sin_PI2. split; [reflexivity|nra].
    + replace (- PI / 2) with (- (PI / 2)) by field.
      rewrite cos_neg, sin_neg, cos_PI2, sin_PI2. split; [reflexivity|nra].
    + exfalso. nra.
Qed.

Lemma sumsq3 (a b c : R) : sumsq [a; b; c] = a * a + b * b + c * c.
Proof. unfold sumsq, Rsum. cbn. ring. Qed.

Lemma sumsq3_zero (a b c : R) :
  sqrt (sumsq [a; b; c]) = 0 -> a = 0 /\ b = 0 /\ c = 0.
Proof.
  intros H. apply sqrt_eq_0 in H; [|apply sumsq_nonneg].
  rewrite sumsq3 in H. repeat split; nra.
Qed.

(** The rotation about the unit axis [k] by the angle of the unit-circle
    point [(d, n)], applied to a vector orthogonal to [k]. *)
Lemma rotate_orthogonal (a0 a1 a2 na th d n sx sy sz w0 : R) :
  na <> 0 -> na * na = a0 * a0 + a1 * a1 + a2 * a2 ->
  cos th = d -> sin th = n ->
  a0 * sx + a1 * sy + a2 * sz = 0 ->
  transform_point
    (rotation_matrix (a0 / na * sin (th / 2)) (a1 / na * sin (th / 2))
                     (a2 / na * sin (th / 2)) (cos (th / 2)))
    w0 [sx; sy; sz]
  = [sx * d + (a1 * sz - a2 * sy) * (n / na);
     sy * d + (a2 * sx - a0 * sz) * (n / na);
     sz * d + (a0 * sy - a1 * sx) * (n / na)].
Proof.
  intros Hna Hsq Hc Hs Horth.
  rewrite rodrigues by (field_simplify_eq; [lra|assumption]).
  rewrite Hc, Hs.
  assert (Hk : a0 / na * sx + a1 / na * sy + a2 / na * sz = 0).
  { replace (a0 / na * sx + a1 / na * sy + a2 / na * sz)
      with ((a0 * sx + a1 * sy + a2 * sz) / na) by (field; assumption).
    rewrite Horth. field. assumption. }
  rewrite Hk.
  repeat (apply (f_equal2 cons); [field; assumption|]). reflexivity.
Qed.

(** For unit vectors the quaternion of [quaternion_make_from_unit_vectors]
    has a matrix that sends the source to the target. *)
Lemma unit_vectors_rotation (sx sy sz tx ty tz : R) :
  sx * sx + sy * sy + sz * sz = 1 ->
  tx * tx + ty * ty + tz * tz = 1 ->
  exists x y z w,
    axis_angle_quaternion (rotation_axis [sx; sy; sz] [tx; ty; tz])
                          (rotation_angle [sx; sy; sz] [tx; ty; tz])
    = [x; y; z; w]
    /\ forall w0,
         transform_point (rotation_matrix x y z w) w0 [sx; sy; sz]
         = [tx; ty; tz].
Proof.
  intros Hs Ht.
  unfold rotation_axis, rotation_angle, cross, dot, Rsum.
  cbn [nth zip_with foldr].
  set (cx := sy * tz - sz * ty). set (cy := sz * tx - sx * tz).
  set (cz := sx * ty - sy * tx).
  set (d := sx * tx + (sy * ty + (sz * tz + 0))).
  set (n := sqrt (sumsq [cx; cy; cz])).
  assert (Hn : n * n = cx * cx + cy * cy + cz * cz).
  { unfold n. rewrite sqrt_sqrt by apply sumsq_nonneg. apply sumsq3. }
  assert (Hcirc : d * d + n * n = 1).
  { rewrite Hn.
    replace (d * d + (cx * cx + cy * cy + cz * cz))
      with ((sx * sx + sy * sy + sz * sz) * (tx * tx + ty * ty + tz * tz))
      by (unfold d, cx, cy, cz; ring).
    rewrite Hs, Ht. ring. }
  destruct (arctan2_unit_circle n d Hcirc) as [Hcos Hsin].
  assert (Hx : tx = sx * d + cy * sz - cz * sy).
  { rewrite <- (Rmult_1_r tx), <- Hs. unfold d, cy, cz. ring. }
  assert (Hy : ty = sy * d + cz * sx - cx * sz).
  { rewrite <- (Rmult_1_r ty), <- Hs. unfold d, cx, cz. ring. }
  assert (Hz : tz = sz * d + cx * sy - cy * sx).
  { rewrite <- (Rmult_1_r tz), <- Hs. unfold d, cx, cy. ring. }
  destruct (Req_dec_T n 0) as [Hp|Hp].
  - (* parallel vectors: a replacement axis, and the angle 0 or pi *)
    destruct (sumsq3_zero cx cy cz Hp) as (Hcx & Hcy & Hcz).
    clearbody n cx cy cz. subst cx cy cz.
    unfold fallback_axis.
    destruct (Req_dec_T sz 0) as [Hz0|Hz0];
      [|destruct (Req_dec_T sy 0) as [Hy0|Hy0]].
    all: unfold axis_angle_quaternion, normalized; cbn [map app].
    all: eexists _, _, _, _; split; [reflexivity|]; intros w0.
    all: match goal with
         | |- context [sqrt (sumsq [?a; ?b; ?c])] =>
             assert (Hna : sqrt (sumsq [a; b; c]) <> 0)
               by (apply nonzero_norm; intros E; injection E; intros; lra);
             rewrite (rotate_orthogonal a b c (sqrt (sumsq [a; b; c]))
                        _ d n sx sy sz w0 Hna)
         end.
    all: try assumption.
    all: try (rewrite sqrt_sqrt by apply sumsq_nonneg; apply sumsq3).
    all: try (rewrite ?Hz0, ?Hy0; ring).
    all: rewrite Hp;
      match goal with
      | |- context [0 / ?x] => replace (0 / x) with 0 by (field; assumption)
      end.
    all: repeat (apply (f_equal2 cons); [lra|]); reflexivity.
  - unfold axis_angle_quaternion, normalized; cbn [map app].
    eexists _, _, _, _; split; [reflexivity|]; intros w0.
    fold n.
    rewrite (rotate_orthogonal cx cy cz n _ d n sx sy sz w0 Hp Hn Hcos Hsin)
      by (unfold cx, cy, cz; ring).
    clearbody n d cx cy cz. rewrite Hx, Hy, Hz.
    repeat (apply (f_equal2 cons); [field; assumption|]). reflexivity.
Qed.

(** X25.  For every pair of vectors of three components,
    [quaternion_make_from_unit_vectors] returns the quaternion of the
    rotation about their cross product (about the replacement axis if they
    are parallel) by the angle [arctan2(|source x target|, source . target)];
    both arguments are left as they were. *)
Theorem unit_vectors_formula (m : memory) (source target : array_like)
    (dtype : option dtype) (sx sy sz tx ty tz : R) :
  value_of source m = Some (Arr [3%nat] [sx; sy; sz]) ->
  value_of target m = Some (Arr [3%nat] [tx; ty; tz]) ->
  exists out m',
    quaternion_make_from_unit_vectors source target None dtype m
    = inr (out, m')
    /\ value_of (Nd out) m'
       = Some (Arr [4%nat] (axis_angle_quaternion
                              (rotation_axis [sx; sy; sz] [tx; ty; tz])
                              (rotation_angle [sx; sy; sz] [tx; ty; tz])))
    /\ value_of source m' = Some (Arr [3%nat] [sx; sy; sz])
    /\ value_of target m' = Some (Arr [3%nat] [tx; ty; tz]).
Proof.
  intros Hs Ht. destruct m as [pre J].
  destruct (unit_vectors_fresh pre J source target dtype _ _ _ _ _ _ Hs Ht)
    as (out & L & Hrun & Vout).
  exists out, (Memory (pre ++ L) J).
  split; [exact Hrun|]. split; [exact Vout|].
  split; apply value_of_extend; assumption.
Qed.

Lemma unit_vectors_formula_witness :
  let m := Memory [] (fun _ _ => 0) in
  let s := Seq (Arr [3%nat] [1; 0; 0]) in
  let t := Seq (Arr [3%nat] [0; 1; 0]) in
  value_of s m = Some (Arr [3%nat] [1; 0; 0])
  /\ value_of t m = Some (Arr [3%nat] [0; 1; 0])
  /\ exists out m',
       quaternion_make_from_unit_vectors s t None None m = inr (out, m')
       /\ value_of (Nd out) m'
          = Some (Arr [4%nat] (axis_angle_quaternion
                                 (rotation_axis [1; 0; 0] [0; 1; 0])
                                 (rotation_angle [1; 0; 0] [0; 1; 0])))
       /\ value_of s m' = Some (Arr [3%nat] [1; 0; 0])
       /\ value_of t m' = Some (Arr [3%nat] [0; 1; 0]).
Proof.
  split; [reflexivity|]. split; [reflexivity|].
  apply (unit_vectors_formula (Memory [] (fun _ _ => 0))
           (Seq (Arr [3%nat] [1; 0; 0])) (Seq (Arr [3%nat] [0; 1; 0]))
           None 1 0 0 0 1 0); reflexivity.
Defined.

(** X26.  For unit vectors [source] and [target], parallel or not, the matrix of
    [quaternion_make_from_unit_vectors(source, target)] sends [source] to
    [target]. *)
Theorem unit_vectors_rotate_source_onto_target (m : memory)
    (source target : array_like) (w0 sx sy sz tx ty tz : R) :
  value_of source m = Some (Arr [3%nat] [sx; sy; sz]) ->
  value_of target m = Some (Arr [3%nat] [tx; ty; tz]) ->
  sx * sx + sy * sy + sz * sz = 1 ->
  tx * tx + ty * ty + tz * tz = 1 ->
  exists out m',
    (q ← quaternion_make_from_unit_vectors source target None None;
     mat ← quaternion_to_matrix (Nd q) None None;
     vector_apply_matrix source mat w0 None None) m = inr (out, m')
    /\ value_of (Nd out) m' = Some (Arr [3%nat] [tx; ty; tz]).
Proof.
  intros Hs Ht Us Ut. destruct m as [pre J].
  destruct (unit_vectors_fresh pre J source target None _ _ _ _ _ _ Hs Ht)
    as (q & L & Hq & Vq).
  destruct (unit_vectors_rotation sx sy sz tx ty tz Us Ut)
    as (x & y & z & w & Eq & Hrot).
  rewrite Eq in Vq.
  destruct (rotate_single (Nd q) source (pre ++ L) J w0 x y z w sx sy sz Vq
              (value_of_extend _ _ _ _ _ Hs)) as (out & L' & Hrun & Vout).
  exists out, (Memory ((pre ++ L) ++ L') J). split.
  - rewrite (bind_inr _ _ _ _ _ Hq). exact Hrun.
  - rewrite Vout, Hrot. reflexivity.
Qed.

Lemma unit_vectors_rotate_source_onto_target_witness :
  let m := Memory [] (fun _ _ => 0) in
  let s := Seq (Arr [3%nat] [1; 0; 0]) in
  let t := Seq (Arr [3%nat] [0; 1; 0]) in
  value_of s m = Some (Arr [3%nat] [1; 0; 0])
  /\ value_of t m = Some (Arr [3%nat] [0; 1; 0])
  /\ 1 * 1 + 0 * 0 + 0 * 0 = 1
  /\ 0 * 0 + 1 * 1 + 0 * 0 = 1
  /\ exists out m',
       (q ← quaternion_make_from_unit_vectors s t None None;
        mat ← quaternion_to_matrix (Nd q) None None;
        vector_apply_matrix s mat 1 None None) m = inr (out, m')
       /\ value_of (Nd out) m' = Some (Arr [3%nat] [0; 1; 0]).
Proof.
  split; [reflexivity|]. split; [reflexivity|]. split; [lra|]. split; [lra|].
  apply (unit_vectors_rotate_source_onto_target (Memory [] (fun _ _ => 0))
           (Seq (Arr [3%nat] [1; 0; 0])) (Seq (Arr [3%nat] [0; 1; 0]))
           1 1 0 0 0 1 0); [reflexivity|reflexivity|lra|lra].
Defined.




(** ** Euler angles: an order of one letter *)

(** X28.  With an order of one letter and one angle (a number or a 0-d array),
    [quaternion_make_from_euler_angles] returns the elementary quaternion
    of that axis: [sin(angle / 2)] in the slot of the axis and
    [cos(angle / 2)] as scalar part. *)
Theorem euler_angles_single_axis (m : memory) (angles : array_like)
    (c : ascii) (dtype : option dtype) (t : R) :
  value_of angles m = Some (Arr [] [t]) ->
  is_axis c = true ->
  exists out m',
    quaternion_make_from_euler_angles angles (String c EmptyString) None dtype m
    = inr (out, m')
    /\ value_of (Nd out) m' = Some (Arr [4%nat] (elementary c t)).
Proof.
  intros Ha Hc. destruct m as [pre J].
  destruct (np_asarray_float_value angles pre J _ Ha)
    as (v & L & Hv & Hva & Hdt).
  rewrite (euler_angles_as_array _ _ _ _ _ _ _ Hv Hdt).
  unfold elementary. unfold is_axis in Hc.
  destruct (axis_index c) as [e|k] eqn:Ek; [discriminate|].
  assert (Hk : (k < 3)%nat).
  { revert Ek. unfold axis_index.
    repeat destruct (Ascii.eqb _ _); intros E; inversion E; lia. }
  generalize (pre ++ L) Hva. clear Hv Ha Hva. intros pre' Hva.
  destruct v as [b o ds d]. cbn in Hdt. subst d. inv_value Hva.
  destruct k as [|[|[|k]]]; [| | |lia].
  all: eexists _, _; (split;
    [rewrite <- (app_nil_r pre') at 1;
     unfold quaternion_make_from_euler_angles;
     cbn [list_ascii_of_string length Nat.ltb Nat.leb comprehension map];
     rewrite Ek; exec; reflexivity|]).
  all: exec; reflexivity.
Qed.

Lemma euler_angles_single_axis_witness :
  let m := Memory [] (fun _ _ => 0) in
  value_of (Num PI) m = Some (Arr [] [PI])
  /\ is_axis "z" = true
  /\ exists out m',
       quaternion_make_from_euler_angles (Num PI) "z" None None m
       = inr (out, m')
       /\ value_of (Nd out) m' = Some (Arr [4%nat] (elementary "z" PI)).
Proof.
  split; [reflexivity|]. split; [reflexivity|].
  apply (euler_angles_single_axis (Memory [] (fun _ _ => 0)) (Num PI)
           "z" None PI); reflexivity.
Defined.

(** ** [quaternion_inverse] into an array of the caller *)








(** ** [quaternion_make_from_axis_angle] on several axes *)

Lemma divide_by_norms_mismatch (n : nat) (ad nd : list R) :
  n <> 1%nat -> n <> 3%nat ->
  ufunc2 Rdiv (Arr [n; 3%nat] ad) (Arr [n] nd) = inl ValueError.
Proof.
  intros H1 H3. unfold ufunc2, broadcast_shapes. cbn -[Nat.eqb].
  destruct (Nat.eqb_spec 3 n) as [E|_]; [lia|].
  destruct (Nat.eqb_spec n 1) as [E|_]; [lia|]. reflexivity.
Qed.

(** X30.  The norms of [n] axes form an array of shape [n], which does not
    broadcast against the axes of shape [n, 3] unless [n] is 1 or 3: the
    normalisation [axis /= norm] raises [ValueError], whatever the angle and
    the output array are. *)
Theorem axis_angle_rejects_batch (m : memory) (axis angle : array_like)
    (out : option ndarray) (dtype : option dtype) (n : nat)
    (ad : list R) (aa : arr) :
  value_of axis m = Some (Arr [n; 3%nat] ad) ->
  value_of angle m = Some aa ->
  n <> 1%nat -> n <> 3%nat ->
  quaternion_make_from_axis_angle axis angle out dtype m = inl ValueError.
Proof.
  intros Hax Han H1 H3. destruct m as [pre J].
  destruct (np_asarray_float_value axis pre J _ Hax)
    as (av & L1 & Hav & Vav & _).
  destruct (np_asarray_float_value angle (pre ++ L1) J _
              (value_of_extend _ _ _ _ _ Han)) as (nv & L2 & Hnv & _ & _).
  unfold quaternion_make_from_axis_angle.
  rewrite (bind_inr _ _ _ _ _ Hav), (bind_inr _ _ _ _ _ Hnv).
  assert (Hdiv : forall B,
            value_of (Nd av) (Memory B J) = Some (Arr [n; 3%nat] ad) ->
            inplace Rdiv av (a ← read av; lift (norm_last a)) (Memory B J)
            = inl ValueError).
  { intros B HB. unfold inplace. rewrite bind_bind.
    rewrite (bind_inr _ _ _ _ _ (value_of_read _ _ _ HB)).
    unfold norm_last at 1. cbn [ashape rev app adata]. rewrite bind_lift_inr.
    rewrite (bind_inr _ _ _ _ _ (value_of_read _ _ _ HB)).
    rewrite divide_by_norms_mismatch by assumption. reflexivity. }
  destruct out as [o|].
  - rewrite bind_inr with
      (1 := eq_refl (ret o (Memory ((pre ++ L1) ++ L2) J))).
    unfold bind at 1. rewrite Hdiv; [reflexivity|].
    apply value_of_extend. exact Vav.
  - destruct (broadcast_shapes _ _) as [sh|]; [|reflexivity].
    unfold np_empty at 1, alloc at 1, bind at 1. cbn [bufs junk].
    unfold bind at 1. rewrite Hdiv; [reflexivity|].
    do 2 apply value_of_extend. exact Vav.
Qed.

Lemma axis_angle_rejects_batch_witness :
  let m := Memory [] (fun _ _ => 0) in
  let axes := Seq (Arr [2; 3]%nat [1; 0; 0; 0; 1; 0]) in
  value_of axes m = Some (Arr [2; 3]%nat [1; 0; 0; 0; 1; 0])
  /\ value_of (Num 0) m = Some (Arr [] [0])
  /\ 2%nat <> 1%nat /\ 2%nat <> 3%nat
  /\ quaternion_make_from_axis_angle axes (Num 0) None None m
     = inl ValueError.
Proof.
  split; [reflexivity|]. split; [reflexivity|].
  split; [lia|]. split; [lia|].
  apply (axis_angle_rejects_batch (Memory [] (fun _ _ => 0))
           (Seq (Arr [2; 3]%nat [1; 0; 0; 0; 1; 0])) (Num 0) None None 2
           [1; 0; 0; 0; 1; 0] (Arr [] [0])); [reflexivity|reflexivity|lia|lia].
Defined.
